(** * Pangolin packet-stream reader: a shallow embedding of
      [src/log/packetstream_reader.cpp] and the properties of its
      frame dispatcher, packet index, seek and payload protocol. *)

From Stdlib Require Import ZArith Lia Bool String Strings.Byte.
From stdpp Require Import base option list gmap strings.

Local Open Scope Z_scope.
Set Warnings "-register-all".

(** ** Bytes and machine integers *)

Definition byte_val (b : byte) : Z := Z.of_N (Byte.to_N b).

Definition byte_of_Z (z : Z) : byte :=
  match Byte.of_N (Z.to_N (z mod 256)) with
  | Some b => b
  | None => x00
  end.

(** [size_t] and [uint64_t] are 64-bit; [static_cast<size_t>(-1)]. *)
Definition SIZE_WIDTH : Z := 2 ^ 64.
Definition SIZE_MAX : Z := SIZE_WIDTH - 1.
Definition wrap64 (z : Z) : Z := z mod SIZE_WIDTH.

(** Little-endian value of a run of bytes (lowest byte first). *)
Fixpoint le_value (l : list byte) : Z :=
  match l with
  | [] => 0
  | b :: l' => Z.lor (byte_val b) (Z.shiftl (le_value l') 8)
  end.

(** A signed 64-bit reading of eight little-endian bytes. *)
Definition le_int64 (l : list byte) : Z :=
  let u := le_value l in
  if u <? 2 ^ 63 then u else u - SIZE_WIDTH.

(** ** Structured values (picojson) *)

Inductive json :=
| JNull
| JBool (b : bool)
| JInt (z : Z)
| JStr (s : string)
| JArr (l : list json)
| JObj (members : list (string * json)).

Module Json.

(** Modelled from the spec: the structured value parser is an external
    collaborator (spec section 6).  [field] is key lookup, which yields the
    null value for an absent key; it needs an object. *)
Fixpoint assoc (key : string) (members : list (string * json)) : option json :=
  match members with
  | [] => None
  | (k, v) :: rest => if String.eqb k key then Some v else assoc key rest
  end.

Definition field (j : json) (key : string) : option json :=
  match j with
  | JObj members => Some (default JNull (assoc key members))
  | _ => None
  end.

(** The "key not present" query, [value::contains]. *)
Definition contains (j : json) (key : string) : option bool :=
  match j with
  | JObj members => Some (bool_decide (is_Some (assoc key members)))
  | _ => None
  end.

(** Typed extraction, [get<int64_t>], [get<string>], [get<array>]. *)
Definition get_int64 (j : json) : option Z :=
  match j with JInt z => Some z | _ => None end.

Definition get_string (j : json) : option string :=
  match j with JStr s => Some s | _ => None end.

Definition get_array (j : json) : option (list json) :=
  match j with JArr l => Some l | _ => None end.

(** *** A concrete reader and printer of the textual form

    The development is parametric in the parser (see [Section Reader]);
    this one, for a JSON fragment without string escapes and without
    fractions, is what the worked streams below are read with. *)

Definition is_ws (b : byte) : bool :=
  match b with
  | x20 | x0a | x0d | x09 => true
  | _ => false
  end.

Fixpoint skip_ws (l : list byte) : list byte :=
  match l with
  | b :: l' => if is_ws b then skip_ws l' else l
  | [] => []
  end.

Definition digit_of (b : byte) : option Z :=
  let v := byte_val b in
  if (48 <=? v) && (v <=? 57) then Some (v - 48) else None.

Fixpoint parse_digits (l : list byte) (acc : Z) : Z * list byte :=
  match l with
  | b :: l' =>
      match digit_of b with
      | Some d => parse_digits l' (10 * acc + d)
      | None => (acc, l)
      end
  | [] => (acc, [])
  end.

Fixpoint parse_chars (l : list byte) : option (list byte * list byte) :=
  match l with
  | [] => None
  | x22 :: l' => Some ([], l')
  | b :: l' =>
      match parse_chars l' with
      | Some (s, r) => Some (b :: s, r)
      | None => None
      end
  end.

Definition parse_number (l : list byte) : option (json * list byte) :=
  match l with
  | x2d :: (b :: _) as l' =>
      match digit_of b with
      | Some _ => let '(n, r) := parse_digits l' 0 in Some (JInt (- n), r)
      | None => None
      end
  | b :: _ =>
      match digit_of b with
      | Some _ => let '(n, r) := parse_digits l 0 in Some (JInt n, r)
      | None => None
      end
  | [] => None
  end.

Fixpoint parse_value (fuel : nat) (l : list byte) : option (json * list byte) :=
  match fuel with
  | O => None
  | S f =>
      match skip_ws l with
      | x6e :: x75 :: x6c :: x6c :: r => Some (JNull, r)
      | x74 :: x72 :: x75 :: x65 :: r => Some (JBool true, r)
      | x66 :: x61 :: x6c :: x73 :: x65 :: r => Some (JBool false, r)
      | x22 :: r =>
          match parse_chars r with
          | Some (s, r') => Some (JStr (string_of_list_byte s), r')
          | None => None
          end
      | x5b :: r =>
          match skip_ws r with
          | x5d :: r' => Some (JArr [], r')
          | _ =>
              match parse_elems f r with
              | Some (vs, r') => Some (JArr vs, r')
              | None => None
              end
          end
      | x7b :: r =>
          match skip_ws r with
          | x7d :: r' => Some (JObj [], r')
          | _ =>
              match parse_members f r with
              | Some (ms, r') => Some (JObj ms, r')
              | None => None
              end
          end
      | l' => parse_number l'
      end
  end
with parse_elems (fuel : nat) (l : list byte) : option (list json * list byte) :=
  match fuel with
  | O => None
  | S f =>
      match parse_value f l with
      | Some (v, r) =>
          match skip_ws r with
          | x2c :: r' =>
              match parse_elems f r' with
              | Some (vs, r'') => Some (v :: vs, r'')
              | None => None
              end
          | x5d :: r' => Some ([v], r')
          | _ => None
          end
      | None => None
      end
  end
with parse_members (fuel : nat) (l : list byte)
     : option (list (string * json) * list byte) :=
  match fuel with
  | O => None
  | S f =>
      match skip_ws l with
      | x22 :: r =>
          match parse_chars r with
          | Some (k, r1) =>
              match skip_ws r1 with
              | x3a :: r2 =>
                  match parse_value f r2 with
                  | Some (v, r3) =>
                      match skip_ws r3 with
                      | x2c :: r4 =>
                          match parse_members f r4 with
                          | Some (ms, r5) =>
                              Some ((string_of_list_byte k, v) :: ms, r5)
                          | None => None
                          end
                      | x7d :: r4 => Some ([(string_of_list_byte k, v)], r4)
                      | _ => None
                      end
                  | None => None
                  end
              | _ => None
              end
          | None => None
          end
      | _ => None
      end
  end.

(** The parser interface: the value and the number of bytes it spans. *)
Definition parse (l : list byte) : option (json * nat) :=
  match parse_value (S (length l)) l with
  | Some (v, r) => Some (v, (length l - length r)%nat)
  | None => None
  end.

Fixpoint print_digits (fuel : nat) (n : Z) (acc : list byte) : list byte :=
  match fuel with
  | O => acc
  | S f =>
      let acc' := byte_of_Z (48 + n mod 10) :: acc in
      if n / 10 =? 0 then acc' else print_digits f (n / 10) acc'
  end.

Definition print_Z (z : Z) : list byte :=
  if z <? 0 then x2d :: print_digits 20 (- z) [] else print_digits 20 z [].

Definition quote (s : string) : list byte :=
  x22 :: list_byte_of_string s ++ [x22].

Fixpoint print (j : json) : list byte :=
  match j with
  | JNull => list_byte_of_string "null"
  | JBool true => list_byte_of_string "true"
  | JBool false => list_byte_of_string "false"
  | JInt z => print_Z z
  | JStr s => quote s
  | JArr l =>
      x5b :: (fix elems (l : list json) : list byte :=
                match l with
                | [] => [x5d]
                | [v] => print v ++ [x5d]
                | v :: l' => print v ++ x2c :: elems l'
                end) l
  | JObj ms =>
      x7b :: (fix members (ms : list (string * json)) : list byte :=
                match ms with
                | [] => [x7d]
                | [(k, v)] => quote k ++ x3a :: print v ++ [x7d]
                | (k, v) :: ms' => quote k ++ x3a :: print v ++ x2c :: members ms'
                end) ms
  end.

End Json.

(** ** The marker vocabulary *)

Module Tag.

(** Modelled from the spec: the fixed vocabulary of markers of section 4.2
    (MAGIC, HEADER, ADD_SOURCE, SRC_METADATA, SRC_PACKET, SYNC, STATS,
    FOOTER, END), each a fixed-width marker of [TAG_LENGTH] bytes kept in a
    32-bit word, first byte lowest.  The header that spells them is not
    among the sources; the three-letter spellings are the format's. *)
Definition TAG_LENGTH : Z := 3.

Definition PANGO_TAG (a b c : byte) : Z :=
  Z.lor (Z.lor (Z.shiftl (byte_val c) 16) (Z.shiftl (byte_val b) 8)) (byte_val a).

Definition TAG_PANGO_HDR : Z := Eval cbv in PANGO_TAG "L" "I" "N".
Definition TAG_PANGO_MAGIC : Z := Eval cbv in PANGO_TAG "P" "A" "N".
Definition TAG_PANGO_SYNC : Z := Eval cbv in PANGO_TAG "S" "Y" "N".
Definition TAG_PANGO_STATS : Z := Eval cbv in PANGO_TAG "S" "T" "A".
Definition TAG_PANGO_FOOTER : Z := Eval cbv in PANGO_TAG "F" "T" "R".
Definition TAG_ADD_SOURCE : Z := Eval cbv in PANGO_TAG "S" "R" "C".
Definition TAG_SRC_JSON : Z := Eval cbv in PANGO_TAG "J" "S" "N".
Definition TAG_SRC_PACKET : Z := Eval cbv in PANGO_TAG "P" "K" "T".
Definition TAG_END : Z := Eval cbv in PANGO_TAG "E" "N" "D".

Definition PANGO_MAGIC : list byte := list_byte_of_string "PANGO".

Definition valid (t : Z) : bool :=
  bool_decide (t ∈ [TAG_PANGO_HDR; TAG_PANGO_MAGIC; TAG_PANGO_SYNC;
                    TAG_PANGO_STATS; TAG_PANGO_FOOTER; TAG_ADD_SOURCE;
                    TAG_SRC_JSON; TAG_SRC_PACKET; TAG_END]).

(** The bytes of a marker, for the streams built below. *)
Definition bytes (t : Z) : list byte :=
  [byte_of_Z t; byte_of_Z (Z.shiftr t 8); byte_of_Z (Z.shiftr t 16)].

End Tag.

(** ** The tagged stream primitive *)

Module PacketStream.

(** Modelled from the spec: the tagged stream ([PacketStream], a file
    stream with a one-tag look-ahead) is an external collaborator whose
    header and implementation are not among the sources.  Its interface is
    that of spec section 6: open/close, [good], [seekable], tell/seek,
    [peekTag]/[readTag], [readUINT], [readTimestamp], and raw [read]/[skip]
    within a declared data window ([data_len]).  The byte-level behaviour
    underneath is that of a C++ input file stream: a read that meets the
    end of the medium leaves the stream in a failed state, in which reads
    and seeks do nothing until [clear]. *)
Record t := mk {
  content : list byte;   (* the bytes of the medium *)
  is_open : bool;
  gpos : Z;              (* get position of the underlying file stream *)
  good : bool;           (* no end-of-file or failure flag is raised *)
  _tag : Z;              (* the peeked tag, 0 when there is none *)
  _data_len : Z;         (* bytes left in the declared data window *)
  _is_pipe : bool
}.

Definition closed : t :=
  {| content := []; is_open := false; gpos := 0; good := true;
     _tag := 0; _data_len := 0; _is_pipe := false |}.

Definition set_gpos (p : Z) (st : t) : t :=
  {| content := content st; is_open := is_open st; gpos := p; good := good st;
     _tag := _tag st; _data_len := _data_len st; _is_pipe := _is_pipe st |}.

Definition set_good (g : bool) (st : t) : t :=
  {| content := content st; is_open := is_open st; gpos := gpos st; good := g;
     _tag := _tag st; _data_len := _data_len st; _is_pipe := _is_pipe st |}.

Definition set_tag (x : Z) (st : t) : t :=
  {| content := content st; is_open := is_open st; gpos := gpos st; good := good st;
     _tag := x; _data_len := _data_len st; _is_pipe := _is_pipe st |}.

Definition set_data_len (d : Z) (st : t) : t :=
  {| content := content st; is_open := is_open st; gpos := gpos st; good := good st;
     _tag := _tag st; _data_len := d; _is_pipe := _is_pipe st |}.

(** The look-ahead and the window are dropped together. *)
Definition cclear (st : t) : t := set_data_len 0 (set_tag 0 st).

Definition size (st : t) : Z := Z.of_nat (length (content st)).

(** The bytes from the get position on. *)
Definition remaining (st : t) : list byte :=
  if (0 <=? gpos st) && (gpos st <? size st)
  then drop (Z.to_nat (gpos st)) (content st)
  else [].

(** *** The underlying file stream *)

Definition base_read (n : Z) (st : t) : list byte * t :=
  if is_open st && good st then
    let avail := remaining st in
    let bs := take (Z.to_nat (Z.min n (Z.of_nat (length avail)))) avail in
    let st' := set_gpos (gpos st + Z.of_nat (length bs)) st in
    if Z.of_nat (length bs) <? n then (bs, set_good false st') else (bs, st')
  else ([], set_good false st).

(** [get] yields the end-of-file value, as a [char], when nothing is read. *)
Definition base_get (st : t) : byte * t :=
  match base_read 1 st with
  | (b :: _, st') => (b, st')
  | ([], st') => (xff, st')
  end.

Definition base_seekg (target : Z) (st : t) : t :=
  if is_open st && good st then
    if target <? 0 then set_good false st else set_gpos target st
  else st.

Definition base_tellg (st : t) : Z :=
  if is_open st && good st then gpos st else -1.

(** [ignore] stops at the end of the medium and raises the end-of-file flag. *)
Definition base_ignore (n : Z) (st : t) : t :=
  if is_open st && good st then
    if gpos st + n <=? size st then set_gpos (gpos st + n) st
    else set_good false (set_gpos (Z.max (gpos st) (size st)) st)
  else st.

(** *** The wrapper *)

Definition seekable (st : t) : bool := is_open st && negb (_is_pipe st).

(** [open(filename)]: [data] is what the path holds, if it can be opened. *)
Definition open (data : option (list byte)) (pipe : bool) (st : t) : t :=
  match data with
  | Some bytes =>
      {| content := bytes; is_open := true; gpos := 0; good := true;
         _tag := 0; _data_len := 0; _is_pipe := pipe |}
  | None =>
      {| content := []; is_open := false; gpos := 0; good := false;
         _tag := 0; _data_len := 0; _is_pipe := pipe |}
  end.

Definition close (st : t) : t :=
  {| content := []; is_open := false; gpos := 0; good := good st;
     _tag := 0; _data_len := 0; _is_pipe := _is_pipe st |}.

Definition clear (st : t) : t := set_good true st.

Definition seekg (target : Z) (st : t) : t :=
  if seekable st then base_seekg target (cclear st) else st.

(** [seekg(off, ios_base::end)] *)
Definition seekg_end (off : Z) (st : t) : t :=
  if seekable st then base_seekg (size st + off) (cclear st) else st.

Definition tellg (st : t) : Z :=
  if _tag st =? 0 then base_tellg st else base_tellg st - Tag.TAG_LENGTH.

Definition data_len (st : t) : Z := _data_len st.

Definition get (st : t) : byte * t := base_get (set_tag 0 st).

(** Raw [read]: the bytes stored to the target buffer, whose number is the
    returned count; the window shrinks by that count. *)
Definition read (len : Z) (st : t) : list byte * t :=
  let '(bs, st') := base_read len (set_tag 0 st) in
  (bs, set_data_len (Z.max 0 (_data_len st' - Z.of_nat (length bs))) st').

(** [skip] moves on by [len], by a relative seek on a seekable medium and
    by [ignore] on a pipe, and returns [len]. *)
Definition skip (len : Z) (st : t) : Z * t :=
  let st0 := set_tag 0 st in
  let st1 := if seekable st0 then base_seekg (gpos st0 + len) st0
             else base_ignore len st0 in
  (len, set_data_len (Z.max 0 (_data_len st1 - len)) st1).

(** [readUINT]: a variable-length unsigned integer, seven bits per byte,
    lowest group first, the high bit marking a continuation; [-1] when the
    stream fails. *)
Fixpoint uint_decode (l : list byte) (shift : Z) : option (Z * nat) :=
  match l with
  | [] => None
  | b :: l' =>
      let v := byte_val b in
      let group := Z.shiftl (Z.land v 127) shift in
      if Z.testbit v 7 then
        match uint_decode l' (shift + 7) with
        | Some (n, k) => Some (Z.lor group n, S k)
        | None => None
        end
      else Some (group, 1%nat)
  end.

Definition readUINT (st : t) : Z * t :=
  let st0 := set_tag 0 st in
  if is_open st0 && good st0 then
    match uint_decode (remaining st0) 0 with
    | Some (n, k) => (wrap64 n, set_gpos (gpos st0 + Z.of_nat k) st0)
    | None =>
        (SIZE_MAX,
         set_good false (set_gpos (gpos st0 + Z.of_nat (length (remaining st0))) st0))
    end
  else (SIZE_MAX, set_good false st0).

(** [readTimestamp]: eight bytes, a signed count of microseconds. *)
Definition readTimestamp (st : t) : Z * t :=
  let '(bs, st') := base_read 8 (set_tag 0 st) in
  (le_int64 bs, st').

Definition peekTag (st : t) : Z * t :=
  if _tag st =? 0 then
    let '(bs, st') := base_read Tag.TAG_LENGTH st in
    let x := if good st' then le_value bs else Tag.TAG_END in
    (x, set_tag x st')
  else (_tag st, st).

Definition readTag (st : t) : Z * t :=
  let '(r, st') := peekTag st in (r, set_tag 0 st').

(** [readTag(expected)]: the tag read, or the mismatch as an error. *)
Definition readTag_expect (x : Z) (st : t) : (Z + Z) * t :=
  let '(r, st') := readTag st in
  if r =? x then (inl r, st') else (inr r, st').

(** [syncToTag]: slide a three-byte window on, one byte at a time, until it
    spells a known tag or the stream ends (then END). *)
Fixpoint sync_scan (l : list byte) (b1 b2 : Z) (k : nat) : option (Z * nat) :=
  match l with
  | [] => None
  | c :: l' =>
      let x := Z.lor (Z.lor (Z.shiftl (byte_val c) 16) (Z.shiftl b2 8)) b1 in
      if Tag.valid x then Some (x, S k)
      else sync_scan l' b2 (byte_val c) (S k)
  end.

Definition syncToTag (st : t) : Z * t :=
  let '(x0, st0) := peekTag st in
  if is_open st0 && good st0 then
    let b1 := Z.land (Z.shiftr x0 8) 255 in
    let b2 := Z.land (Z.shiftr x0 16) 255 in
    match sync_scan (remaining st0) b1 b2 0 with
    | Some (x, k) => (x, set_tag x (set_gpos (gpos st0 + Z.of_nat k) st0))
    | None =>
        (Tag.TAG_END,
         set_tag Tag.TAG_END
           (set_good false
              (set_gpos (gpos st0 + Z.of_nat (length (remaining st0))) st0)))
    end
  else (Tag.TAG_END, set_tag Tag.TAG_END st0).

(** The medium under the stream: its bytes, whether it is open, whether it
    is a pipe.  Only [open] and [close] change it. *)
Definition medium (st : t) : list byte * bool * bool :=
  (content st, is_open st, _is_pipe st).

End PacketStream.

(** ** Errors, warnings and the world outside the reader *)

(** What a [runtime_error] of the reader complains about, by throw site. *)
Inductive format_fault :=
| UnrecognisedFileHeader     (* "Unrecognised file header." *)
| BadStream                  (* "Bad stream" *)
| SourceIdMismatch           (* "Id mismatch parsing source descriptors..." *)
| MetadataSourceMismatch     (* "Frame preceded by metadata for a mismatched source..." *)
| UnknownPacketType          (* "Unknown packet type." *)
| TagMismatch (found expected : Z)   (* readTag(expected) *)
| ValueTypeMismatch.         (* a typed extraction from a structured value *)

(** The error taxonomy of spec section 7, one constructor per kind. *)
Inductive exn :=
| CannotOpenStream           (* "Cannot open stream." *)
| FormatError (f : format_fault)
| UnsupportedOperation       (* "Stream is not seekable (probably a pipe)." *)
| InvalidArgument            (* "Invalid Frame Source ID." *)
| InvalidState               (* "Packetstream not positioned on data block..." *)
| OutOfRange                 (* std::out_of_range *)
| StdException.              (* what [throw e] of a caught [std::exception&] throws *)

(** [pango_print_warn] messages. *)
Inductive warning :=
| WarnUnexpectedTag (x : Z)          (* "Unexpected packet type ... Resyncing()" *)
| WarnOldFile                        (* "CAUTION: Old .pango files do not update..." *)
| WarnReadTrim (len remain : Z)      (* "readraw() requested read of ..." *)
| WarnSkipTrim (len remain : Z)      (* "skip() requested skip of ..." *)
| WarnSeekMiss.                      (* "seek index miss... reading ahead." *)

(** Modelled from the spec: the pipe utilities and the file system are
    external (spec section 6): a path names an ordinary file, whose bytes
    every open sees from the start, or a named pipe, which hands out the
    producer's writes one batch per open and has a readable descriptor. *)
Inductive Medium :=
| RegularFile (data : list byte)
| NamedPipe (fd : Z) (chunks : list (list byte)).

Record World := {
  fs : gmap string Medium;
  os_closed : list Z;          (* the descriptors passed to close(2), latest first *)
  log : list warning;          (* the warnings printed, latest first *)
  warned_already : bool        (* the function-local static of NextFrame *)
}.

Definition set_fs (v : gmap string Medium) (s : World) : World :=
    {| fs := v; os_closed := os_closed s; log := log s;
       warned_already := warned_already s |}.

Definition set_os_closed (v : list Z) (s : World) : World :=
    {| fs := fs s; os_closed := v; log := log s; warned_already := warned_already s |}.

Definition set_log (v : list warning) (s : World) : World :=
    {| fs := fs s; os_closed := os_closed s; log := v;
       warned_already := warned_already s |}.

Definition set_warned_already (v : bool) (s : World) : World :=
    {| fs := fs s; os_closed := os_closed s; log := log s; warned_already := v |}.

Definition IsPipe (w : World) (filename : string) : bool :=
  match fs w !! filename with
  | Some (NamedPipe _ _) => true
  | _ => false
  end.

Definition ReadablePipeFileDescriptor (w : World) (filename : string) : Z :=
  match fs w !! filename with
  | Some (NamedPipe fd _) => fd
  | _ => -1
  end.

(** The descriptor is the one of the pipe the session follows. *)
Definition PipeHasDataToRead (w : World) (filename : string) : bool :=
  match fs w !! filename with
  | Some (NamedPipe _ (_ :: _)) => true
  | _ => false
  end.

(** ** The data model *)

Module PacketStreamSource.

Record t := mk {
  driver : string;
  id : Z;
  uri : string;
  info : json;
  version : Z;
  data_alignment_bytes : Z;
  data_definitions : string;
  data_size_bytes : Z
}.

End PacketStreamSource.

Module FrameInfo.

(** Modelled from the spec: the Frame Descriptor of section 3; its header
    is not among the sources.  A default-constructed one is the "no frame"
    sentinel, told by its source id [-1], and is falsy. *)
Record t := mk {
  src : Z;
  time : Z;
  size : Z;
  sequence_num : Z;
  meta : json;
  frame_streampos : Z;
  packet_streampos : Z
}.

Definition none : t :=
  {| src := SIZE_MAX; time := -1; size := SIZE_MAX; sequence_num := SIZE_MAX;
     meta := JNull; frame_streampos := 0; packet_streampos := 0 |}.

(** [operator bool] *)
Definition to_bool (fi : t) : bool := negb (src fi =? SIZE_MAX).

End FrameInfo.

Module PacketIndex.

(** Modelled from the spec: the Packet Index of section 3, a two-level
    mapping from source id and sequence number to stream position; its
    header is not among the sources. *)
Definition has (idx : gmap Z (gmap Z Z)) (source packet : Z) : bool :=
  match idx !! source with
  | Some per_source => bool_decide (is_Some (per_source !! packet))
  | None => false
  end.

(** [at(source).at(packet)]: nothing when either lookup would throw. *)
Definition position (idx : gmap Z (gmap Z Z)) (source packet : Z) : option Z :=
  match idx !! source with
  | Some per_source => per_source !! packet
  | None => None
  end.

Definition add (idx : gmap Z (gmap Z Z)) (source packet pos : Z) : gmap Z (gmap Z Z) :=
  <[source := <[packet := pos]> (default ∅ (idx !! source))]> idx.

(** The serialized form: an array per source of the positions by sequence
    number. *)
Fixpoint add_row (idx : gmap Z (gmap Z Z)) (source packet : Z) (row : list json)
  : option (gmap Z (gmap Z Z)) :=
  match row with
  | [] => Some idx
  | j :: row' =>
      match Json.get_int64 j with
      | Some pos => add_row (add idx source packet pos) source (packet + 1) row'
      | None => None
      end
  end.

Fixpoint add_rows (idx : gmap Z (gmap Z Z)) (source : Z) (rows : list json)
  : option (gmap Z (gmap Z Z)) :=
  match rows with
  | [] => Some idx
  | j :: rows' =>
      match Json.get_array j with
      | Some row =>
          match add_row idx source 0 row with
          | Some idx' => add_rows idx' (source + 1) rows'
          | None => None
          end
      | None => None
      end
  end.

Definition of_json (rows : list json) : option (gmap Z (gmap Z Z)) :=
  add_rows ∅ 0 rows.

End PacketIndex.

(** The reader object, with the world it acts on. *)
Record PacketStreamReader := {
  _filename : string;
  _is_pipe : bool;
  _pipe_fd : Z;
  _stream : PacketStream.t;
  _sources : list PacketStreamSource.t;
  _index : gmap Z (gmap Z Z);
  _next_packet_framenum : list Z;
  packet_stream_start : Z;
  _mutex : nat;                (* how many times this thread holds the re-entrant mutex *)
  world : World
}.

Definition set_filename (v : string) (s : PacketStreamReader) : PacketStreamReader :=
    {| _filename := v; _is_pipe := _is_pipe s; _pipe_fd := _pipe_fd s;
       _stream := _stream s; _sources := _sources s; _index := _index s;
       _next_packet_framenum := _next_packet_framenum s;
       packet_stream_start := packet_stream_start s; _mutex := _mutex s;
       world := world s |}.

Definition set_is_pipe (v : bool) (s : PacketStreamReader) : PacketStreamReader :=
    {| _filename := _filename s; _is_pipe := v; _pipe_fd := _pipe_fd s;
       _stream := _stream s; _sources := _sources s; _index := _index s;
       _next_packet_framenum := _next_packet_framenum s;
       packet_stream_start := packet_stream_start s; _mutex := _mutex s;
       world := world s |}.

Definition set_pipe_fd (v : Z) (s : PacketStreamReader) : PacketStreamReader :=
    {| _filename := _filename s; _is_pipe := _is_pipe s; _pipe_fd := v;
       _stream := _stream s; _sources := _sources s; _index := _index s;
       _next_packet_framenum := _next_packet_framenum s;
       packet_stream_start := packet_stream_start s; _mutex := _mutex s;
       world := world s |}.

Definition set_stream (v : PacketStream.t) (s : PacketStreamReader) : PacketStreamReader :=
    {| _filename := _filename s; _is_pipe := _is_pipe s; _pipe_fd := _pipe_fd s;
       _stream := v; _sources := _sources s; _index := _index s;
       _next_packet_framenum := _next_packet_framenum s;
       packet_stream_start := packet_stream_start s; _mutex := _mutex s;
       world := world s |}.

Definition set_sources (v : list PacketStreamSource.t) (s : PacketStreamReader) : PacketStreamReader :=
    {| _filename := _filename s; _is_pipe := _is_pipe s; _pipe_fd := _pipe_fd s;
       _stream := _stream s; _sources := v; _index := _index s;
       _next_packet_framenum := _next_packet_framenum s;
       packet_stream_start := packet_stream_start s; _mutex := _mutex s;
       world := world s |}.

Definition set_index (v : gmap Z (gmap Z Z)) (s : PacketStreamReader) : PacketStreamReader :=
    {| _filename := _filename s; _is_pipe := _is_pipe s; _pipe_fd := _pipe_fd s;
       _stream := _stream s; _sources := _sources s; _index := v;
       _next_packet_framenum := _next_packet_framenum s;
       packet_stream_start := packet_stream_start s; _mutex := _mutex s;
       world := world s |}.

Definition set_next_packet_framenum (v : list Z) (s : PacketStreamReader) : PacketStreamReader :=
    {| _filename := _filename s; _is_pipe := _is_pipe s; _pipe_fd := _pipe_fd s;
       _stream := _stream s; _sources := _sources s; _index := _index s;
       _next_packet_framenum := v; packet_stream_start := packet_stream_start s;
       _mutex := _mutex s; world := world s |}.

Definition set_packet_stream_start (v : Z) (s : PacketStreamReader) : PacketStreamReader :=
    {| _filename := _filename s; _is_pipe := _is_pipe s; _pipe_fd := _pipe_fd s;
       _stream := _stream s; _sources := _sources s; _index := _index s;
       _next_packet_framenum := _next_packet_framenum s; packet_stream_start := v;
       _mutex := _mutex s; world := world s |}.

Definition set_mutex (v : nat) (s : PacketStreamReader) : PacketStreamReader :=
    {| _filename := _filename s; _is_pipe := _is_pipe s; _pipe_fd := _pipe_fd s;
       _stream := _stream s; _sources := _sources s; _index := _index s;
       _next_packet_framenum := _next_packet_framenum s;
       packet_stream_start := packet_stream_start s; _mutex := v; world := world s |}.

Definition set_world (v : World) (s : PacketStreamReader) : PacketStreamReader :=
    {| _filename := _filename s; _is_pipe := _is_pipe s; _pipe_fd := _pipe_fd s;
       _stream := _stream s; _sources := _sources s; _index := _index s;
       _next_packet_framenum := _next_packet_framenum s;
       packet_stream_start := packet_stream_start s; _mutex := _mutex s; world := v |}.

(** [PacketStreamReader()] *)
Definition new_reader (w : World) : PacketStreamReader :=
  {| _filename := EmptyString; _is_pipe := false; _pipe_fd := -1;
     _stream := PacketStream.closed; _sources := []; _index := ∅;
     _next_packet_framenum := []; packet_stream_start := 0; _mutex := 0;
     world := w |}.

(** [v[i]] and [v.at(i)] of a vector, by an index held in a 64-bit word. *)
Definition vec_at {A} (v : list A) (i : Z) : option A :=
  if (0 <=? i) && (i <? Z.of_nat (length v)) then v !! Z.to_nat i else None.

Definition vec_set {A} (v : list A) (i : Z) (x : A) : list A :=
  if (0 <=? i) && (i <? Z.of_nat (length v)) then <[Z.to_nat i := x]> v else v.

(** [v.resize(n)], new elements value-initialized. *)
Definition vec_resize (v : list Z) (n : Z) : list Z :=
  if n <? Z.of_nat (length v) then take (Z.to_nat n) v
  else v ++ replicate (Z.to_nat n - length v) 0.

(** ** The monad of the reader's member functions *)

(** A call returns, throws, stops the process ([PANGO_ENSURE], [abort]),
    runs into C++ undefined behaviour, or exhausts the fuel given to its
    loops. *)
Inductive outcome (A : Type) :=
| Ret (a : A) (s : PacketStreamReader)
| Throw (e : exn) (s : PacketStreamReader)
| Abort
| Undefined
| OutOfFuel.

Arguments Ret {A} a s.
Arguments Throw {A} e s.
Arguments Abort {A}.
Arguments Undefined {A}.
Arguments OutOfFuel {A}.

Definition M (A : Type) : Type := PacketStreamReader → outcome A.

#[global] Instance M_ret : MRet M := λ A a s, Ret a s.

#[global] Instance M_bind : MBind M := λ A B f m s,
  match m s with
  | Ret a s' => f a s'
  | Throw e s' => Throw e s'
  | Abort => Abort
  | Undefined => Undefined
  | OutOfFuel => OutOfFuel
  end.

Definition gets {A} (f : PacketStreamReader → A) : M A := λ s, Ret (f s) s.
Definition modify (f : PacketStreamReader → PacketStreamReader) : M unit :=
  λ s, Ret tt (f s).
Definition throw {A} (e : exn) : M A := λ s, Throw e s.
Definition undefined {A} : M A := λ _, Undefined.
Definition abort {A} : M A := λ _, Abort.
Definition out_of_fuel {A} : M A := λ _, OutOfFuel.

(** [try { m } catch (std::exception&) { h }] *)
Definition try_catch {A} (m : M A) (h : exn → M A) : M A := λ s,
  match m s with
  | Throw e s' => h e s'
  | o => o
  end.

(** A call on [_stream]. *)
Definition on_stream {A} (f : PacketStream.t → A * PacketStream.t) : M A := λ s,
  let '(a, st) := f (_stream s) in Ret a (set_stream st s).

Definition upd_stream (f : PacketStream.t → PacketStream.t) : M unit := λ s,
  Ret tt (set_stream (f (_stream s)) s).

Definition ask_stream {A} (f : PacketStream.t → A) : M A := λ s, Ret (f (_stream s)) s.

Definition pango_print_warn (w : warning) : M unit :=
  modify (λ s, set_world (set_log (w :: log (world s)) (world s)) s).

(** [close(fd)] of the operating system. *)
Definition os_close (fd : Z) : M unit :=
  modify (λ s, set_world (set_os_closed (fd :: os_closed (world s)) (world s)) s).

(** Modelled from the spec: [Lock] and [Unlock] take and release the
    session-wide re-entrant mutex (section 5); they are declared in the
    header, which is not among the sources.  Releasing a mutex the thread
    does not hold is undefined. *)
Definition Lock : M unit := modify (λ s, set_mutex (S (_mutex s)) s).

Definition Unlock : M unit := λ s,
  match _mutex s with
  | S n => Ret tt (set_mutex n s)
  | O => Undefined
  end.

(** [std::lock_guard<std::recursive_mutex> lg(_mutex);] for the scope [m]. *)
Definition lock_guard {A} (m : M A) : M A := λ s,
  match m (set_mutex (S (_mutex s)) s) with
  | Ret a s' =>
      match _mutex s' with
      | S n => Ret a (set_mutex n s')
      | O => Undefined
      end
  | Throw e s' =>
      match _mutex s' with
      | S n => Throw e (set_mutex n s')
      | O => Undefined
      end
  | o => o
  end.

(** Typed extraction from a structured value throws on a mismatch. *)
Definition json_checked {A} (o : option A) : M A :=
  match o with
  | Some a => mret a
  | None => throw (FormatError ValueTypeMismatch)
  end.

(** Modelled from the spec: the names of the fields of a source-registration
    record (section 6, item 3); the header that defines them is not among
    the sources. *)
Definition pss_src_driver : string := "driver".
Definition pss_src_id : string := "id".
Definition pss_src_info : string := "info".
Definition pss_src_uri : string := "uri".
Definition pss_src_packet : string := "packet".
Definition pss_src_version : string := "version".
Definition pss_pkt_alignment_bytes : string := "alignment_bytes".
Definition pss_pkt_definitions : string := "definitions".
Definition pss_pkt_size_bytes : string := "size_bytes".

(** ** The reader *)

Section Reader.

(** The structured value parser, an external collaborator: from the bytes
    ahead, the value and the number of bytes it spans, or nothing when they
    do not start with a value. *)
Variable picojson_parse : list byte → option (json * nat).

(** [picojson::parse(value, _stream)]: the stream ends just past the blob;
    a failed parse leaves the null value and a failed stream. *)
Definition parse_value_from_stream : M json := λ s,
  let st := _stream s in
  if PacketStream.is_open st && PacketStream.good st then
    match picojson_parse (PacketStream.remaining st) with
    | Some (v, n) =>
        let n' := Z.of_nat (n `min` length (PacketStream.remaining st)) in
        Ret v (set_stream (PacketStream.set_gpos (PacketStream.gpos st + n') st) s)
    | None => Ret JNull (set_stream (PacketStream.set_good false st) s)
    end
  else Ret JNull (set_stream (PacketStream.set_good false st) s).

Definition json_field (j : json) (key : string) : M json :=
  json_checked (Json.field j key).

(** [_stream.readTag(expected)] *)
Definition readTag_expect (x : Z) : M Z :=
  r ← on_stream (PacketStream.readTag_expect x);
  match r with
  | inl t => mret t
  | inr found => throw (FormatError (TagMismatch found x))
  end.

(** [_stream.open(filename)], on the world's file system. *)
Definition stream_open (filename : string) : M unit := λ s,
  let w := world s in
  match fs w !! filename with
  | None =>
      Ret tt (set_stream (PacketStream.open None false (_stream s)) s)
  | Some (RegularFile data) =>
      Ret tt (set_stream (PacketStream.open (Some data) false (_stream s)) s)
  | Some (NamedPipe fd []) =>
      Ret tt (set_stream (PacketStream.open (Some []) true (_stream s)) s)
  | Some (NamedPipe fd (chunk :: chunks)) =>
      Ret tt (set_world (set_fs (<[filename := NamedPipe fd chunks]> (fs w)) w)
                (set_stream (PacketStream.open (Some chunk) true (_stream s)) s))
  end.

Definition Close : M unit :=
  lock_guard (
    upd_stream PacketStream.close;;
    modify (set_sources []);;
    fd ← gets _pipe_fd;
    if negb (fd =? -1) then os_close fd else mret tt).

Definition ParseHeader : M unit :=
  readTag_expect Tag.TAG_PANGO_HDR;;
  json_header ← parse_value_from_stream;
  (* File timestamp *)
  time_us ← json_field json_header "time_us";
  start_us ← json_checked (Json.get_int64 time_us);
  modify (set_packet_stream_start start_us);;
  on_stream PacketStream.get;; (* consume newline *)
  mret tt.

(** The registration proper: the id check and the four lines after it of
    [ParseNewSource]. *)
Definition register_source (pss : PacketStreamSource.t) : M unit :=
  let id := PacketStreamSource.id pss in
  sources ← gets _sources;
  if negb (Z.of_nat (length sources) =? id) then
    throw (FormatError SourceIdMismatch)
  else
    modify (set_sources (sources ++ [pss]));;
    framenum ← gets _next_packet_framenum;
    (if Z.of_nat (length framenum) <? wrap64 (id + 1)
     then modify (set_next_packet_framenum (vec_resize framenum (wrap64 (id + 1))))
     else mret tt);;
    framenum ← gets _next_packet_framenum;
    if (0 <=? id) && (id <? Z.of_nat (length framenum))
    then modify (set_next_packet_framenum (vec_set framenum id 0))
    else undefined.

Definition ParseNewSource : M unit :=
  readTag_expect Tag.TAG_ADD_SOURCE;;
  json ← parse_value_from_stream;
  on_stream PacketStream.get;; (* consume newline *)
  j_driver ← json_field json pss_src_driver;
  driver ← json_checked (Json.get_string j_driver);
  j_id ← json_field json pss_src_id;
  id64 ← json_checked (Json.get_int64 j_id);
  let id := wrap64 id64 in
  j_uri ← json_field json pss_src_uri;
  uri ← json_checked (Json.get_string j_uri);
  info ← json_field json pss_src_info;
  j_version ← json_field json pss_src_version;
  version ← json_checked (Json.get_int64 j_version);
  j_packet ← json_field json pss_src_packet;
  j_align ← json_field j_packet pss_pkt_alignment_bytes;
  align ← json_checked (Json.get_int64 j_align);
  j_defs ← json_field j_packet pss_pkt_definitions;
  defs ← json_checked (Json.get_string j_defs);
  j_size ← json_field j_packet pss_pkt_size_bytes;
  size_bytes ← json_checked (Json.get_int64 j_size);
  let pss := PacketStreamSource.mk driver id uri info version align defs
               (wrap64 size_bytes) in
  register_source pss.

(** Returns the position of the index. *)
Definition ParseFooter : M Z :=
  readTag_expect Tag.TAG_PANGO_FOOTER;;
  index ← on_stream (PacketStream.read 8);
  mret (le_int64 index).

Definition ParseIndex : M unit :=
  readTag_expect Tag.TAG_PANGO_STATS;;
  json ← parse_value_from_stream;
  present ← json_checked (Json.contains json "src_packet_index");
  if (present : bool) then
    j ← json_field json "src_packet_index";
    json_index ← json_checked (Json.get_array j);
    idx ← json_checked (PacketIndex.of_json json_index);
    modify (set_index idx)
  else mret tt.

Definition SetupIndex : M unit :=
  seekable ← ask_stream PacketStream.seekable;
  if negb seekable then mret tt
  else
    pos ← ask_stream PacketStream.tellg;
    (* a footer is a tag + index position *)
    upd_stream (PacketStream.seekg_end (- (8 + Tag.TAG_LENGTH)));;
    x ← on_stream PacketStream.peekTag;
    (if x =? Tag.TAG_PANGO_FOOTER then
       index_pos ← ParseFooter;
       upd_stream (PacketStream.seekg index_pos);;
       x' ← on_stream PacketStream.peekTag;
       if x' =? Tag.TAG_PANGO_STATS then ParseIndex else mret tt
     else mret tt);;
    upd_stream PacketStream.clear;;
    upd_stream (PacketStream.seekg pos).

(** The loop over [PANGO_MAGIC] of [Open]. *)
Fixpoint check_magic (magic : list byte) : M unit :=
  match magic with
  | [] => mret tt
  | i :: rest =>
      c ← on_stream PacketStream.get;
      if negb (Byte.eqb c i) then throw (FormatError UnrecognisedFileHeader)
      else
        g ← ask_stream PacketStream.good;
        if negb g then throw (FormatError BadStream) else check_magic rest
  end.

(** [while (_stream.peekTag() == TAG_ADD_SOURCE) ParseNewSource();] *)
Fixpoint parse_leading_sources (fuel : nat) : M unit :=
  match fuel with
  | O => out_of_fuel
  | S f =>
      x ← on_stream PacketStream.peekTag;
      if x =? Tag.TAG_ADD_SOURCE then ParseNewSource;; parse_leading_sources f
      else mret tt
  end.

Definition Open (fuel : nat) (filename : string) : M unit :=
  lock_guard (
    Close;;
    modify (set_filename filename);;
    pipe ← gets (λ s, IsPipe (world s) filename);
    modify (set_is_pipe pipe);;
    stream_open filename;;
    opened ← ask_stream PacketStream.is_open;
    if negb opened then throw CannotOpenStream
    else
      check_magic Tag.PANGO_MAGIC;;
      SetupIndex;;
      ParseHeader;;
      parse_leading_sources fuel).

Definition GoodToRead (fuel : nat) : M bool :=
  g ← ask_stream PacketStream.good;
  if negb g then
    pipe ← gets _is_pipe;
    if (pipe : bool) then
      fd ← gets _pipe_fd;
      (if fd =? -1 then
         filename ← gets _filename;
         fd' ← gets (λ s, ReadablePipeFileDescriptor (world s) filename);
         modify (set_pipe_fd fd')
       else mret tt);;
      fd ← gets _pipe_fd;
      if negb (fd =? -1) then
        (* Test whether the pipe has data to be read. *)
        filename ← gets _filename;
        has_data ← gets (λ s, PipeHasDataToRead (world s) filename);
        if (has_data : bool) then
          os_close fd;;
          modify (set_pipe_fd (-1));;
          Open fuel filename;;
          ask_stream PacketStream.good
        else mret false
      else mret false
    else mret false
  else mret true.

(** [while (peekTag() != TAG_SRC_PACKET && peekTag() != TAG_END) readTag();] *)
Fixpoint skip_to_packet (fuel : nat) : M unit :=
  match fuel with
  | O => out_of_fuel
  | S f =>
      x ← on_stream PacketStream.peekTag;
      if negb (x =? Tag.TAG_SRC_PACKET) then
        y ← on_stream PacketStream.peekTag;
        if negb (y =? Tag.TAG_END) then
          on_stream PacketStream.readTag;; skip_to_packet f
        else mret tt
      else mret tt
  end.

Definition SkipSync (fuel : nat) : M unit :=
  (* Assume we have just read PAN, read GO *)
  c1 ← on_stream PacketStream.get;
  (if negb (Byte.eqb c1 "G") then
     c2 ← on_stream PacketStream.get;
     if negb (Byte.eqb c2 "O") then throw (FormatError UnknownPacketType)
     else mret tt
   else mret tt);;
  skip_to_packet fuel.

(** Returns the current frame for source. *)
Definition GetPacketIndex (src_id : Z) : M Z :=
  framenum ← gets _next_packet_framenum;
  match vec_at framenum src_id with
  | Some n => mret n
  | None => throw OutOfRange
  end.

(** The part of [readFrameHeader] from the packet marker on; [src0] and
    [meta] are what the metadata before it gave, if there was any. *)
Definition read_packet_header (frame_streampos src0 : Z) (meta : json)
  : M FrameInfo.t :=
  packet_streampos ← ask_stream PacketStream.tellg;
  readTag_expect Tag.TAG_SRC_PACKET;;
  time ← on_stream PacketStream.readTimestamp;
  src ←
    (if negb (src0 =? SIZE_MAX) then
       src' ← on_stream PacketStream.readUINT;
       if negb (src' =? src0) then throw (FormatError MetadataSourceMismatch)
       else mret src0
     else on_stream PacketStream.readUINT);
  sources ← gets _sources;
  match vec_at sources src with
  | None => undefined
  | Some pss =>
      size ←
        (if PacketStreamSource.data_size_bytes pss =? 0
         then on_stream PacketStream.readUINT
         else mret (PacketStreamSource.data_size_bytes pss));
      sequence_num ← GetPacketIndex src;
      mret (FrameInfo.mk src time size sequence_num meta
              frame_streampos packet_streampos)
  end.

Definition readFrameHeader : M FrameInfo.t :=
  frame_streampos ← ask_stream PacketStream.tellg;
  x ← on_stream PacketStream.peekTag;
  '(src0, meta) ←
    (if x =? Tag.TAG_SRC_JSON then
       readTag_expect Tag.TAG_SRC_JSON;;
       src ← on_stream PacketStream.readUINT;
       meta ← parse_value_from_stream;
       mret (src, meta)
     else mret (FrameInfo.src FrameInfo.none, FrameInfo.meta FrameInfo.none));
  read_packet_header frame_streampos src0 meta.

(** Modelled from the spec: [ReSync] scans forward, discarding bytes, until
    a recognized tag boundary is found (section 4.2); it is declared in the
    header, which is not among the sources. *)
Definition ReSync : M unit :=
  on_stream PacketStream.syncToTag;; mret tt.

Fixpoint _nextFrame (fuel : nat) : M FrameInfo.t :=
  match fuel with
  | O => out_of_fuel
  | S f =>
      ready ← GoodToRead f;
      if (ready : bool) then
        x ← on_stream PacketStream.peekTag;
        if x =? Tag.TAG_PANGO_SYNC then SkipSync f;; _nextFrame f
        else if x =? Tag.TAG_ADD_SOURCE then ParseNewSource;; _nextFrame f
        else if (x =? Tag.TAG_SRC_JSON) || (x =? Tag.TAG_SRC_PACKET)
             then readFrameHeader
        else if x =? Tag.TAG_PANGO_STATS then ParseIndex;; _nextFrame f
        else if (x =? Tag.TAG_PANGO_FOOTER) || (x =? Tag.TAG_END)
             then mret FrameInfo.none  (* none *)
        else if x =? Tag.TAG_PANGO_HDR then ParseHeader;; _nextFrame f
        else if x =? Tag.TAG_PANGO_MAGIC then SkipSync f;; _nextFrame f
        else
          pango_print_warn (WarnUnexpectedTag x);;
          ReSync;;
          _nextFrame f
      else mret FrameInfo.none  (* No frame *)
  end.

(** [_index.position(source, packet)], which throws when there is none. *)
Definition index_position (source packet : Z) : M Z :=
  idx ← gets _index;
  match PacketIndex.position idx source packet with
  | Some pos => mret pos
  | None => throw OutOfRange
  end.

(** [PANGO_ENSURE(c)] *)
Definition PANGO_ENSURE (c : bool) : M unit :=
  if c then mret tt else abort.

(** The part of the loop body of [NextFrame] that finds the next frame and
    accounts for it: the counter, the index, the data window. *)
Definition NextFrame_dispatch (fuel : nat) : M FrameInfo.t :=
  fi ← _nextFrame fuel;
  if negb (FrameInfo.to_bool fi) then mret fi
  else
    (* So we have accurate sequence numbers for frames. *)
    framenum ← gets _next_packet_framenum;
    match vec_at framenum (FrameInfo.src fi) with
    | None => undefined
    | Some n =>
        modify (set_next_packet_framenum
                  (vec_set framenum (FrameInfo.src fi) (wrap64 (n + 1))));;
        seekable ← ask_stream PacketStream.seekable;
        (if (seekable : bool) then
           idx ← gets _index;
           if negb (PacketIndex.has idx (FrameInfo.src fi) (FrameInfo.sequence_num fi))
           then
             (* If it's not in the index for some reason, add it. *)
             modify (set_index (PacketIndex.add idx (FrameInfo.src fi)
                                  (FrameInfo.sequence_num fi)
                                  (FrameInfo.frame_streampos fi)))
           else
             pos ← index_position (FrameInfo.src fi) (FrameInfo.sequence_num fi);
             if negb (pos =? FrameInfo.frame_streampos fi) then
               pos' ← index_position (FrameInfo.src fi) (FrameInfo.sequence_num fi);
               PANGO_ENSURE (pos' =? FrameInfo.packet_streampos fi);;
               warned ← gets (λ s, warned_already (world s));
               if negb warned then
                 pango_print_warn WarnOldFile;;
                 modify (λ s, set_world (set_warned_already true (world s)) s)
               else mret tt
             else mret tt
         else mret tt);;
        (* now we are positioned on packet data for n characters. *)
        upd_stream (PacketStream.set_data_len (FrameInfo.size fi));;
        mret fi
    end.

Fixpoint NextFrame_loop (fuel : nat) (src : Z) : M FrameInfo.t :=
  match fuel with
  | O => out_of_fuel
  | S f =>
      fi ← NextFrame_dispatch f;
      if negb (FrameInfo.to_bool fi) then
        (* Nothing left in stream *)
        Unlock;; mret fi
      else if FrameInfo.src fi =? src then
        (* if it's ours, return it and don't release lock *)
        mret fi
      else
        (* otherwise skip it and get the next one. *)
        on_stream (PacketStream.skip (FrameInfo.size fi));;
        NextFrame_loop f src
  end.

Definition NextFrame (fuel : nat) (src : Z) : M FrameInfo.t :=
  Lock;;
  try_catch (NextFrame_loop fuel src)
    (λ e,
      (* Since we are not using a scoped lock, we must catch and release. *)
      Unlock;; throw StdException).

(** The bytes stored to [target]; the count returned is their number. *)
Definition ReadRaw (len : Z) : M (list byte) :=
  remain ← ask_stream PacketStream.data_len;
  len' ←
    (if remain =? 0 then throw InvalidState
     else if remain <? len then
       pango_print_warn (WarnReadTrim len remain);; mret remain
     else mret len);
  r ← on_stream (PacketStream.read len');
  remain' ← ask_stream PacketStream.data_len;
  (if remain' =? 0 then
     (* we are done reading, and should release the lock from nextFrame() *)
     Unlock
   else mret tt);;
  mret r.

Definition Skip (len : Z) : M Z :=
  remain ← ask_stream PacketStream.data_len;
  len' ←
    (if remain =? 0 then throw InvalidState
     else if remain <? len then
       pango_print_warn (WarnSkipTrim len remain);; mret remain
     else mret len);
  r ← on_stream (PacketStream.skip len');
  remain' ← ask_stream PacketStream.data_len;
  (if remain' =? 0 then Unlock else mret tt);;
  mret r.

(** [while (!_index.has(src, framenum)) ...] of [Seek]. *)
Fixpoint seek_read_ahead (fuel : nat) (src framenum : Z) : M unit :=
  match fuel with
  | O => out_of_fuel
  | S f =>
      idx ← gets _index;
      if negb (PacketIndex.has idx src framenum) then
        pango_print_warn WarnSeekMiss;;
        remain ← ask_stream PacketStream.data_len;
        (if negb (remain =? 0) then on_stream (PacketStream.skip remain);; mret tt
         else mret tt);;
        fi ← NextFrame f src;
        if negb (FrameInfo.to_bool fi) then
          (* if we hit the end, throw *)
          throw OutOfRange
        else seek_read_ahead f src framenum
      else mret tt
  end.

(** The part of [Seek] past its two guards. *)
Definition Seek_body (fuel : nat) (src framenum : Z) : M FrameInfo.t :=
  remain ← ask_stream PacketStream.data_len;
  (if negb (remain =? 0) then Skip remain;; mret tt else mret tt);;
  seek_read_ahead fuel src framenum;;
  target_header_start ← index_position src framenum;
  upd_stream (PacketStream.seekg target_header_start);;
  framenums ← gets _next_packet_framenum;
  (if (0 <=? src) && (src <? Z.of_nat (length framenums))
   then modify (set_next_packet_framenum (vec_set framenums src framenum))
   else undefined);;
  r ← readFrameHeader;
  upd_stream (PacketStream.seekg (FrameInfo.packet_streampos r));;
  mret r.

Definition Seek (fuel : nat) (src framenum : Z) : M FrameInfo.t :=
  lock_guard (
    seekable ← ask_stream PacketStream.seekable;
    if negb seekable then throw UnsupportedOperation
    else
      sources ← gets _sources;
      if Z.of_nat (length sources) <? src then throw InvalidArgument
      else Seek_body fuel src framenum).

End Reader.

(** ** Streams for the worked examples *)

Module Sample.

(** The producer's encodings of the records of the on-disk format (spec
    section 6), enough to build the small streams the examples read. *)
Fixpoint uint (fuel : nat) (n : Z) : list byte :=
  match fuel with
  | O => []
  | S f =>
      if n <? 128 then [byte_of_Z n]
      else byte_of_Z (Z.lor (Z.land n 127) 128) :: uint f (Z.shiftr n 7)
  end.

Definition writeUINT (n : Z) : list byte := uint 10 n.

Definition writeTimestamp (t : Z) : list byte :=
  map (λ i, byte_of_Z (Z.shiftr (wrap64 t) (8 * Z.of_nat i))) (seq 0 8).

Definition header (time_us : Z) : list byte :=
  Tag.PANGO_MAGIC ++ Tag.bytes Tag.TAG_PANGO_HDR
    ++ Json.print (JObj [("time_us"%string, JInt time_us)]) ++ [x0a].

Definition source (id size_bytes : Z) : list byte :=
  Tag.bytes Tag.TAG_ADD_SOURCE
    ++ Json.print
         (JObj [(pss_src_driver, JStr "video");
                (pss_src_id, JInt id);
                (pss_src_uri, JStr "test");
                (pss_src_info, JNull);
                (pss_src_version, JInt 1);
                (pss_src_packet,
                  JObj [(pss_pkt_alignment_bytes, JInt 1);
                        (pss_pkt_definitions, JStr "");
                        (pss_pkt_size_bytes, JInt size_bytes)])])
    ++ [x0a].

(** A frame of a source of fixed payload size. *)
Definition frame (src time : Z) (payload : list byte) : list byte :=
  Tag.bytes Tag.TAG_SRC_PACKET ++ writeTimestamp time ++ writeUINT src ++ payload.

(** A frame of a source of variable payload size. *)
Definition frame_var (src time : Z) (payload : list byte) : list byte :=
  Tag.bytes Tag.TAG_SRC_PACKET ++ writeTimestamp time ++ writeUINT src
    ++ writeUINT (Z.of_nat (length payload)) ++ payload.

(** The metadata marker that may precede a frame. *)
Definition metadata (src : Z) (meta : json) : list byte :=
  Tag.bytes Tag.TAG_SRC_JSON ++ writeUINT src ++ Json.print meta.

Definition sync : list byte :=
  Tag.bytes Tag.TAG_PANGO_SYNC ++ list_byte_of_string "GO".

Definition index (rows : list (list Z)) : list byte :=
  Tag.bytes Tag.TAG_PANGO_STATS
    ++ Json.print (JObj [("src_packet_index"%string,
                          JArr (map (λ row, JArr (map JInt row)) rows))]).

Definition footer (index_pos : Z) : list byte :=
  Tag.bytes Tag.TAG_PANGO_FOOTER ++ writeTimestamp index_pos.

Definition payload (b : byte) (n : nat) : list byte := replicate n b.

Definition path : string := "log.pango".

Definition file_world (data : list byte) : World :=
  {| fs := {[ path := RegularFile data ]}; os_closed := []; log := [];
     warned_already := false |}.

Definition pipe_world (fd : Z) (chunks : list (list byte)) : World :=
  {| fs := {[ path := NamedPipe fd chunks ]}; os_closed := []; log := [];
     warned_already := false |}.

(** The concrete scenario of spec section 8: a header with
    [time_us = 1000000], one source of fixed size 16, three frames. *)
Definition three_frames : list byte :=
  header 1000000 ++ source 0 16
    ++ frame 0 10 (payload x01 16)
    ++ frame 0 20 (payload x02 16)
    ++ frame 0 30 (payload x03 16)
    ++ Tag.bytes Tag.TAG_END.

(** Two sources, interleaved, the second of variable size. *)
Definition interleaved : list byte :=
  header 5 ++ source 0 4 ++ source 1 0
    ++ frame 0 10 (payload x0a 4)
    ++ frame_var 1 11 (payload x1a 2)
    ++ frame_var 1 12 (payload x1b 3)
    ++ frame 0 13 (payload x0b 4)
    ++ frame_var 1 14 (payload x1c 1)
    ++ Tag.bytes Tag.TAG_END.

(** A source registered once more in mid-stream, under the id it has. *)
Definition reregistered : list byte :=
  header 5 ++ source 0 4
    ++ frame 0 10 (payload x0a 4)
    ++ source 0 4
    ++ frame 0 13 (payload x0b 4)
    ++ Tag.bytes Tag.TAG_END.

(** A sync marker between two frames. *)
Definition synced : list byte :=
  header 5 ++ source 0 4
    ++ frame 0 10 (payload x0a 4)
    ++ sync
    ++ frame 0 13 (payload x0b 4)
    ++ Tag.bytes Tag.TAG_END.

(** What a producer that is still writing has written so far. *)
Definition live : list byte :=
  header 5 ++ source 0 4 ++ frame 0 10 (payload x0a 4).

(** A frame with a metadata marker, then one without. *)
Definition with_metadata : list byte :=
  header 5 ++ source 0 4
    ++ metadata 0 (JObj [("gain"%string, JInt 3)]) ++ frame 0 10 (payload x0a 4)
    ++ frame 0 13 (payload x0b 4)
    ++ Tag.bytes Tag.TAG_END.

(** The state a call leaves behind. *)
Definition after {A} (o : outcome A) : PacketStreamReader :=
  match o with
  | Ret _ s | Throw _ s => s
  | _ => new_reader (file_world [])
  end.

(** A fresh reader opened on a file of the given bytes. *)
Definition opened (data : list byte) : PacketStreamReader :=
  after (Open Json.parse 10 path (new_reader (file_world data))).

(** The three-frame stream, its first frame found and not yet read. *)
Definition at_first_payload : PacketStreamReader :=
  after (NextFrame Json.parse 10 0 (opened three_frames)).

(** The same, its first frame read. *)
Definition past_first_frame : PacketStreamReader :=
  after (ReadRaw 16 at_first_payload).

(** A reader that follows a pipe whose producer has paused: the end of the
    data was met, and a poll found nothing new. *)
Definition polling_pipe : PacketStreamReader :=
  after ((Open Json.parse 10 path;;
          NextFrame Json.parse 10 0;; ReadRaw 4;;
          NextFrame Json.parse 10 0;;
          NextFrame Json.parse 10 0) (new_reader (pipe_world 7 [live]))).

(** The three-frame stream with its three frames read. *)
Definition read_to_end : PacketStreamReader :=
  after ((NextFrame Json.parse 10 0;; ReadRaw 16;;
          NextFrame Json.parse 10 0;; ReadRaw 16;;
          NextFrame Json.parse 10 0;; ReadRaw 16) (opened three_frames)).

(** What a call returned, or [d] when it did not return. *)
Definition returned {A} (d : A) (o : outcome A) : A :=
  match o with
  | Ret a _ => a
  | _ => d
  end.

(** A client that wants every frame: dispatch, skip the payload, again. *)
Fixpoint read_all (n : nat) (s : PacketStreamReader)
  : list FrameInfo.t * PacketStreamReader :=
  match n with
  | O => ([], s)
  | S n' =>
      match NextFrame_dispatch Json.parse 10 s with
      | Ret fi s1 =>
          if FrameInfo.to_bool fi then
            match on_stream (PacketStream.skip (FrameInfo.size fi)) s1 with
            | Ret _ s2 => let '(fis, s3) := read_all n' s2 in (fi :: fis, s3)
            | _ => ([fi], s1)
            end
          else ([], s1)
      | _ => ([], s)
      end
  end.

End Sample.

(** ** Vocabulary of the statements *)

(** What holds of the state a call leaves behind, whether it returns or
    throws. *)
Definition post {A} (o : outcome A)
    (Q : A → PacketStreamReader → Prop) (E : exn → PacketStreamReader → Prop) : Prop :=
  match o with
  | Ret a s => Q a s
  | Throw e s => E e s
  | _ => True
  end.

Definition exception_of {A} (o : outcome A) : option exn :=
  match o with Throw e _ => Some e | _ => None end.

Definition value_of {A} (o : outcome A) : option A :=
  match o with Ret a _ => Some a | _ => None end.

Definition state_of {A} (o : outcome A) : option PacketStreamReader :=
  match o with Ret _ s | Throw _ s => Some s | _ => None end.

(** The descriptor that a source-registration blob spells, when each of
    its fields has the type [ParseNewSource] extracts. *)
Definition source_of_json (j : json) : option PacketStreamSource.t :=
  j_driver ← Json.field j pss_src_driver;
  driver ← Json.get_string j_driver;
  j_id ← Json.field j pss_src_id;
  id64 ← Json.get_int64 j_id;
  j_uri ← Json.field j pss_src_uri;
  uri ← Json.get_string j_uri;
  info ← Json.field j pss_src_info;
  j_version ← Json.field j pss_src_version;
  version ← Json.get_int64 j_version;
  j_packet ← Json.field j pss_src_packet;
  j_align ← Json.field j_packet pss_pkt_alignment_bytes;
  align ← Json.get_int64 j_align;
  j_defs ← Json.field j_packet pss_pkt_definitions;
  defs ← Json.get_string j_defs;
  j_size ← Json.field j_packet pss_pkt_size_bytes;
  size_bytes ← Json.get_int64 j_size;
  Some (PacketStreamSource.mk driver (wrap64 id64) uri info version align defs
          (wrap64 size_bytes)).

(** [P] survives [m], on return and on throw. *)
Definition stable {A} (P : PacketStreamReader → Prop) (m : M A) : Prop :=
  ∀ s, P s → post (m s) (λ _, P) (λ _, P).

(** [m] releases every hold of the mutex it takes. *)
Definition mutex_neutral {A} (m : M A) : Prop :=
  ∀ n, stable (λ s, _mutex s = n) m.

(** [GoodToRead] re-opens the path only for a pipe that has data pending. *)
Definition no_reopen (s : PacketStreamReader) : Prop :=
  _is_pipe s = false ∨ PipeHasDataToRead (world s) (_filename s) = false.

(** A state predicate that looks at the stream only through its medium, and
    not at the log, the index, the start time, the pipe descriptor or the
    mutex. *)
Record frameable (P : PacketStreamReader → Prop) : Prop := {
  fr_stream : ∀ s st,
    P s → PacketStream.medium st = PacketStream.medium (_stream s) → P (set_stream st s);
  fr_log : ∀ s l, P s → P (set_world (set_log l (world s)) s);
  fr_warned : ∀ s b, P s → P (set_world (set_warned_already b (world s)) s);
  fr_index : ∀ s i, P s → P (set_index i s);
  fr_start : ∀ s v, P s → P (set_packet_stream_start v s);
  fr_pipe_fd : ∀ s v, P s → P (set_pipe_fd v s);
  fr_mutex : ∀ s n, P s → P (set_mutex n s)
}.

(** The stream is open on a medium that is not a pipe, and the reader knows. *)
Definition on_file (s : PacketStreamReader) : Prop :=
  PacketStream.seekable (_stream s) = true ∧ _is_pipe s = false.

(** [m], run where [P] holds, returns only with [Q]. *)
Definition hoare {A} (P : PacketStreamReader → Prop) (m : M A)
    (Q : A → PacketStreamReader → Prop) : Prop :=
  ∀ s, P s → post (m s) Q (λ _ _, True).

(** What a session does between two dispatches: payload is read or skipped,
    the mutex taken or released. *)
Inductive payload_step : PacketStreamReader → PacketStreamReader → Prop :=
| step_stream_skip len s n s' :
    on_stream (PacketStream.skip len) s = Ret n s' → payload_step s s'
| step_ReadRaw len s bs s' : ReadRaw len s = Ret bs s' → payload_step s s'
| step_Skip len s n s' : Skip len s = Ret n s' → payload_step s s'
| step_Lock s s' : Lock s = Ret tt s' → payload_step s s'
| step_Unlock s s' : Unlock s = Ret tt s' → payload_step s s'.

(** The frames a session dispatches, in order, on its way from one state to
    another: every frame [NextFrame] finds, returned to the caller or skipped
    for being of another source. *)
Inductive reads (picojson_parse : list byte → option (json * nat))
  : PacketStreamReader → list FrameInfo.t → PacketStreamReader → Prop :=
| reads_nil s : reads picojson_parse s [] s
| reads_frame fuel s fi s1 fis s2 :
    NextFrame_dispatch picojson_parse fuel s = Ret fi s1 →
    FrameInfo.to_bool fi = true →
    reads picojson_parse s1 fis s2 →
    reads picojson_parse s (fi :: fis) s2
| reads_none fuel s fi s1 fis s2 :
    NextFrame_dispatch picojson_parse fuel s = Ret fi s1 →
    FrameInfo.to_bool fi = false →
    reads picojson_parse s1 fis s2 →
    reads picojson_parse s fis s2
| reads_payload s s1 fis s2 :
    payload_step s s1 →
    reads picojson_parse s1 fis s2 →
    reads picojson_parse s fis s2.

(** The frames of one source among those dispatched. *)
Definition frames_of (x : Z) (fis : list FrameInfo.t) : list FrameInfo.t :=
  filter (λ fi, FrameInfo.src fi = x) fis.

(** The counters agree with a count [c] of the frames dispatched per source:
    a registered source's counter is its count, as a 64-bit word, and a
    source not registered yet has had no frame. *)
Definition counters_agree (c : Z → nat) (s : PacketStreamReader) : Prop :=
  (∀ x, 0 ≤ x < Z.of_nat (length (_sources s)) →
        vec_at (_next_packet_framenum s) x = Some (wrap64 (Z.of_nat (c x)))) ∧
  (∀ x, ¬ 0 ≤ x < Z.of_nat (length (_sources s)) → c x = 0%nat).

(** The same, in a session that will not be re-opened. *)
Definition counted (c : Z → nat) (s : PacketStreamReader) : Prop :=
  no_reopen s ∧ counters_agree c s.

(** The count after one more frame of source [x]. *)
Definition one_more (x : Z) (c : Z → nat) : Z → nat :=
  λ y, if decide (y = x) then S (c y) else c y.

(** [m] does not stop for want of fuel. *)
Definition fuel_free {A} (m : M A) : Prop := ∀ s, m s ≠ OutOfFuel.

(** The tag [x] is spelled by the three bytes before the get position. *)
Definition spelled (st : PacketStream.t) (x : Z) : Prop :=
  3 ≤ PacketStream.gpos st ≤ PacketStream.size st ∧
  x = le_value (take 3 (drop (Z.to_nat (PacketStream.gpos st - 3))
                          (PacketStream.content st))).

(** A stream between two records: no data window is declared, and the
    look-ahead of a good stream, when there is one, is the tag spelled just
    before the get position. *)
Definition tidy (st : PacketStream.t) : Prop :=
  PacketStream._data_len st = 0 ∧
  (PacketStream.good st = true → PacketStream._tag st ≠ 0 →
   spelled st (PacketStream._tag st)).

(** A file session between two records. *)
Definition between_records (s : PacketStreamReader) : Prop :=
  on_file s ∧ tidy (_stream s).

(** A stream with neither a look-ahead nor a data window, as a read of
    anything but a payload leaves it. *)
Definition clean (st : PacketStream.t) : Prop :=
  PacketStream._tag st = 0 ∧ PacketStream._data_len st = 0.

(** Where a dispatch leaves the session on a frame [fi]: the header was
    parsed from between two records, and the data window is declared on the
    payload behind it. *)
Definition lands_on (picojson_parse : list byte → option (json * nat))
    (fi : FrameInfo.t) (s1 : PacketStreamReader) : Prop :=
  ∃ sA sh,
    between_records sA ∧
    readFrameHeader picojson_parse sA = Ret fi sh ∧
    _stream s1 = PacketStream.set_data_len (FrameInfo.size fi) (_stream sh) ∧
    _sources s1 = _sources sh.

(** The frame descriptor that [Seek] gives for a frame: the position of
    the packet marker for both positions, and no metadata. *)
Definition sought (fi : FrameInfo.t) : FrameInfo.t :=
  FrameInfo.mk (FrameInfo.src fi) (FrameInfo.time fi) (FrameInfo.size fi)
    (FrameInfo.sequence_num fi) JNull
    (FrameInfo.packet_streampos fi) (FrameInfo.packet_streampos fi).

(** ** Further vocabulary *)

(** [PacketStreamReader(const std::string& filename)]: the constructor that
    opens the path at once. *)
Definition new_reader_open (picojson_parse : list byte → option (json * nat))
    (fuel : nat) (filename : string) (w : World) : outcome unit :=
  Open picojson_parse fuel filename (new_reader w).

(** The registry in order: each source is stored at the position that is
    its id, and each has a counter. *)
Definition well_registered (s : PacketStreamReader) : Prop :=
  (∀ i pss, _sources s !! i = Some pss → PacketStreamSource.id pss = Z.of_nat i) ∧
  (length (_sources s) ≤ length (_next_packet_framenum s))%nat.

(** What [SetupIndex] looks for: the footer marker, eight bytes and a tag
    before the end of the medium. *)
Definition ends_with_footer (data : list byte) : bool :=
  (8 + Tag.TAG_LENGTH <=? Z.of_nat (length data)) &&
  (le_value (take 3 (drop (length data - 11) data)) =? Tag.TAG_PANGO_FOOTER).

(** The index is [I0] and the medium under the stream is [M0]. *)
Abbreviation index_and_medium I0 M0 :=
  (λ s, _index s = I0 ∧ PacketStream.medium (_stream s) = M0).

(** Nothing has been passed to [close(2)] beyond [L], and the reader holds
    no descriptor. *)
Abbreviation closed_only L :=
  (λ s, os_closed (world s) = L ∧ _pipe_fd s = -1).

Module Edge.

(** A source of variable payload size whose first frame has no payload. *)
Definition empty_frame : list byte :=
  Sample.header 5 ++ Sample.source 0 0
    ++ Sample.frame_var 0 10 []
    ++ Sample.frame_var 0 11 (Sample.payload x0a 2)
    ++ Tag.bytes Tag.TAG_END.

End Edge.

(** ** Vocabulary of seeking to a frame again *)

(** The session [s] with the mutex held [k] times more and with another
    log. *)
Definition relog (k : nat) (l : list warning) (s : PacketStreamReader)
  : PacketStreamReader :=
  set_mutex (_mutex s + k) (set_world (set_log l (world s)) s).

(** [m] looks neither at the log nor at how often the mutex is held, beyond
    its being held often enough: a run that returns or throws does the same
    with more holds and another log. *)
Definition blind {A} (m : M A) : Prop :=
  ∀ s k l,
    match m s with
    | Ret a s' => ∃ l', m (relog k l s) = Ret a (relog k l' s')
    | Throw e s' => ∃ l', m (relog k l s) = Throw e (relog k l' s')
    | _ => True
    end.

(** A call that did not stop for want of fuel does the same with more. *)
Definition fuel_mono {A} (F : nat → M A) : Prop :=
  ∀ f f' s, (f ≤ f')%nat → F f s ≠ OutOfFuel → F f' s = F f s.

(** The payload of the frame [fi] consumed whole, by [Skip] or by
    [ReadRaw]. *)
Inductive payload_consumed (fi : FrameInfo.t)
  : PacketStreamReader → PacketStreamReader → Prop :=
| consumed_by_Skip s c s' :
    Skip (FrameInfo.size fi) s = Ret c s' → payload_consumed fi s s'
| consumed_by_ReadRaw s bs s' :
    ReadRaw (FrameInfo.size fi) s = Ret bs s' →
    Z.of_nat (length bs) = FrameInfo.size fi →
    payload_consumed fi s s'.

(** Reading forward towards frame [n] of source [src]: [NextFrame] returns
    a frame of [src], after which the Packet Index does not hold [(src, n)]
    yet, and the payload of the frame is consumed whole; and so on. *)
Inductive reads_on (picojson_parse : list byte → option (json * nat)) (src n : Z)
  : PacketStreamReader → PacketStreamReader → Prop :=
| reads_on_here s : reads_on picojson_parse src n s s
| reads_on_frame fuel s fi s1 s2 t :
    NextFrame picojson_parse fuel src s = Ret fi s1 →
    FrameInfo.to_bool fi = true →
    PacketIndex.has (_index s1) src n = false →
    payload_consumed fi s1 s2 →
    reads_on picojson_parse src n s2 t →
    reads_on picojson_parse src n s t.

(** What the read-ahead of [Seek] does to a pending data window before it
    calls [NextFrame]: it passes the window by a skip of the stream. *)
Definition window_passed (s : PacketStreamReader) : PacketStreamReader :=
  if PacketStream.data_len (_stream s) =? 0 then s
  else set_stream
         (PacketStream.skip (PacketStream.data_len (_stream s)) (_stream s)).2 s.

(** The Packet Index of the session [s3] holds the frame [fi] of source
    [src], which a session on the same medium has read into [s1], at the
    position of its packet marker; no data window is pending in [s3], and
    its registry has the entry for [src] that [s1] has, and a counter. *)
Definition frame_indexed (src : Z) (fi : FrameInfo.t) (s1 s3 : PacketStreamReader)
  : Prop :=
  on_file s3 ∧
  PacketStream.good (_stream s3) = true ∧
  PacketStream.data_len (_stream s3) = 0 ∧
  PacketStream.medium (_stream s3) = PacketStream.medium (_stream s1) ∧
  vec_at (_sources s3) src = vec_at (_sources s1) src ∧
  is_Some (vec_at (_next_packet_framenum s3) src) ∧
  PacketIndex.position (_index s3) src (FrameInfo.sequence_num fi)
  = Some (FrameInfo.packet_streampos fi).

(** The session [s3], between two records and with [src] registered, does
    not hold the frame [fi] in its index yet, and reads forward to the state
    [s] from which [NextFrame] returns [fi] into [s1], where the index holds
    it at the position of its packet marker. *)
Definition frame_ahead (picojson_parse : list byte → option (json * nat))
    (src : Z) (fi : FrameInfo.t) (s s1 s3 : PacketStreamReader) : Prop :=
  between_records s3 ∧
  is_Some (vec_at (_sources s3) src) ∧
  PacketIndex.has (_index s3) src (FrameInfo.sequence_num fi) = false ∧
  reads_on picojson_parse src (FrameInfo.sequence_num fi) s3 s ∧
  PacketIndex.position (_index s1) src (FrameInfo.sequence_num fi)
  = Some (FrameInfo.packet_streampos fi).

(** * Properties *)

(** ** Reasoning about outcomes *)

Lemma post_mono {A} (o : outcome A) (Q Q' : A → PacketStreamReader → Prop)
    (E E' : exn → PacketStreamReader → Prop) :
  post o Q E → (∀ a s, Q a s → Q' a s) → (∀ e s, E e s → E' e s) → post o Q' E'.
Proof. destruct o; simpl; auto. Qed.

Lemma post_bind {A B} (m : M A) (f : A → M B) s
    (Q : B → PacketStreamReader → Prop) (E : exn → PacketStreamReader → Prop) :
  post (m s) (λ a s', post (f a s') Q E) E → post ((m ≫= f) s) Q E.
Proof. unfold mbind, M_bind. destruct (m s); simpl; auto. Qed.

Section Stable.

Context {P : PacketStreamReader → Prop}.

Lemma stable_bind {A B} (m : M A) (f : A → M B) :
  stable P m → (∀ a, stable P (f a)) → stable P (m ≫= f).
Proof.
  intros Hm Hf s Hs. apply post_bind.
  eapply post_mono; [apply Hm, Hs | | auto].
  intros a s' Hs'. apply Hf, Hs'.
Qed.

Lemma stable_ret {A} (a : A) : stable P (mret a).
Proof. intros s Hs. exact Hs. Qed.

Lemma stable_gets {A} (f : PacketStreamReader → A) : stable P (gets f).
Proof. intros s Hs. exact Hs. Qed.

Lemma stable_ask {A} (f : PacketStream.t → A) : stable P (ask_stream f).
Proof. intros s Hs. exact Hs. Qed.

Lemma stable_throw {A} (e : exn) : stable P (@throw A e).
Proof. intros s Hs. exact Hs. Qed.

Lemma stable_undefined {A} : stable P (@undefined A).
Proof. intros s Hs. exact I. Qed.

Lemma stable_abort {A} : stable P (@abort A).
Proof. intros s Hs. exact I. Qed.

Lemma stable_out_of_fuel {A} : stable P (@out_of_fuel A).
Proof. intros s Hs. exact I. Qed.

Lemma stable_modify (f : PacketStreamReader → PacketStreamReader) :
  (∀ s, P s → P (f s)) → stable P (modify f).
Proof. intros Hf s Hs. apply Hf, Hs. Qed.

Lemma stable_on_stream {A} (f : PacketStream.t → A * PacketStream.t) :
  (∀ s, P s → P (set_stream (f (_stream s)).2 s)) → stable P (on_stream f).
Proof.
  intros Hf s Hs. unfold on_stream. specialize (Hf s Hs).
  destruct (f (_stream s)); exact Hf.
Qed.

Lemma stable_upd_stream (f : PacketStream.t → PacketStream.t) :
  (∀ s, P s → P (set_stream (f (_stream s)) s)) → stable P (upd_stream f).
Proof. intros Hf s Hs. apply Hf, Hs. Qed.

Lemma stable_try_catch {A} (m : M A) (h : exn → M A) :
  stable P m → (∀ e, stable P (h e)) → stable P (try_catch m h).
Proof.
  intros Hm Hh s Hs. unfold try_catch. specialize (Hm s Hs).
  destruct (m s); simpl in *; auto. apply Hh, Hm.
Qed.

End Stable.

(** One structural step of a stability proof. *)
Ltac stable_step :=
  lazymatch goal with
  | |- stable _ (mbind _ _) => apply stable_bind; [| intros ?]
  | |- stable _ (mret _) => apply stable_ret
  | |- stable _ (gets _) => apply stable_gets
  | |- stable _ (ask_stream _) => apply stable_ask
  | |- stable _ (throw _) => apply stable_throw
  | |- stable _ undefined => apply stable_undefined
  | |- stable _ abort => apply stable_abort
  | |- stable _ out_of_fuel => apply stable_out_of_fuel
  | |- stable _ (try_catch _ _) => apply stable_try_catch; [| intros ?]
  | |- stable _ (if ?b then _ else _) => destruct b
  | |- stable _ (match ?x with _ => _ end) => destruct x
  end.

(** ** The lock is left as it was found *)

Create HintDb neutral discriminated.

Ltac neutral_leaf :=
  first
    [ solve [auto with neutral]
    | apply stable_modify; intros ? ?; assumption
    | apply stable_on_stream; intros ? ?; assumption
    | apply stable_upd_stream; intros ? ?; assumption ].

Ltac neutral := intros ?; repeat first [stable_step | neutral_leaf].

Lemma lock_guard_neutral {A} (m : M A) : mutex_neutral m → mutex_neutral (lock_guard m).
Proof.
  intros Hm n s Hs. unfold lock_guard.
  specialize (Hm (S n) (set_mutex (S (_mutex s)) s)). simpl in Hm.
  rewrite Hs in *. specialize (Hm eq_refl).
  destruct (m _) as [a s'|e s'| | |]; simpl in *; auto; rewrite Hm; reflexivity.
Qed.

Section ReaderNeutral.

Variable picojson_parse : list byte → option (json * nat).

Abbreviation stable_at n := (stable (λ s, _mutex s = n)).

Lemma pango_print_warn_neutral w n : stable_at n (pango_print_warn w).
Proof. apply stable_modify; intros ? ?; assumption. Qed.

Lemma os_close_neutral fd n : stable_at n (os_close fd).
Proof. apply stable_modify; intros ? ?; assumption. Qed.

Lemma json_checked_neutral {A} (o : option A) n : stable_at n (json_checked o).
Proof. destruct o; intros s Hs; exact Hs. Qed.

Lemma parse_value_neutral n : stable_at n (parse_value_from_stream picojson_parse).
Proof.
  intros s Hs. unfold parse_value_from_stream.
  repeat case_match; simpl; assumption.
Qed.

Lemma stream_open_neutral filename n : stable_at n (stream_open filename).
Proof.
  intros s Hs. unfold stream_open. repeat case_match; simpl; assumption.
Qed.

Hint Resolve pango_print_warn_neutral os_close_neutral json_checked_neutral
  parse_value_neutral stream_open_neutral : neutral.

Lemma json_field_neutral j key n : stable_at n (json_field j key).
Proof. apply json_checked_neutral. Qed.

Lemma readTag_expect_neutral x n : stable_at n (readTag_expect x).
Proof. revert n. unfold readTag_expect. neutral. Qed.

Hint Resolve json_field_neutral readTag_expect_neutral : neutral.

Lemma Close_neutral n :
  stable_at n Close.
Proof. revert n. apply lock_guard_neutral. neutral. Qed.

Lemma ParseHeader_neutral n :
  stable_at n (ParseHeader picojson_parse).
Proof. revert n. unfold ParseHeader. neutral. Qed.

Lemma ParseNewSource_neutral n :
  stable_at n (ParseNewSource picojson_parse).
Proof. revert n. unfold ParseNewSource, register_source. neutral. Qed.

Lemma ParseFooter_neutral n :
  stable_at n ParseFooter.
Proof. revert n. unfold ParseFooter. neutral. Qed.

Lemma ParseIndex_neutral n :
  stable_at n (ParseIndex picojson_parse).
Proof. revert n. unfold ParseIndex. neutral. Qed.

Hint Resolve Close_neutral ParseHeader_neutral ParseNewSource_neutral
  ParseFooter_neutral ParseIndex_neutral : neutral.

Lemma SetupIndex_neutral n :
  stable_at n (SetupIndex picojson_parse).
Proof. revert n. unfold SetupIndex. neutral. Qed.

Lemma check_magic_neutral magic n :
  stable_at n (check_magic magic).
Proof. revert n. induction magic as [|i rest IH]; simpl; neutral. Qed.

Lemma parse_leading_sources_neutral fuel n :
  stable_at n (parse_leading_sources picojson_parse fuel).
Proof. revert n. induction fuel as [|f IH]; simpl; neutral. Qed.

Hint Resolve SetupIndex_neutral check_magic_neutral
  parse_leading_sources_neutral : neutral.

Lemma Open_neutral fuel filename n :
  stable_at n (Open picojson_parse fuel filename).
Proof. revert n. apply lock_guard_neutral. neutral. Qed.

Hint Resolve Open_neutral : neutral.

Lemma GoodToRead_neutral fuel n :
  stable_at n (GoodToRead picojson_parse fuel).
Proof. revert n. unfold GoodToRead. neutral. Qed.

Lemma skip_to_packet_neutral fuel n :
  stable_at n (skip_to_packet fuel).
Proof. revert n. induction fuel as [|f IH]; simpl; neutral. Qed.

Hint Resolve GoodToRead_neutral skip_to_packet_neutral : neutral.

Lemma SkipSync_neutral fuel n :
  stable_at n (SkipSync fuel).
Proof. revert n. unfold SkipSync. neutral. Qed.

Lemma GetPacketIndex_neutral src_id n :
  stable_at n (GetPacketIndex src_id).
Proof. revert n. unfold GetPacketIndex. neutral. Qed.

Hint Resolve SkipSync_neutral GetPacketIndex_neutral : neutral.

Lemma readFrameHeader_neutral n :
  stable_at n (readFrameHeader picojson_parse).
Proof. revert n. unfold readFrameHeader, read_packet_header. neutral. Qed.

Lemma ReSync_neutral n :
  stable_at n ReSync.
Proof. revert n. unfold ReSync. neutral. Qed.

Hint Resolve readFrameHeader_neutral ReSync_neutral : neutral.

Lemma _nextFrame_neutral fuel n :
  stable_at n (_nextFrame picojson_parse fuel).
Proof. revert n. induction fuel as [|f IH]; simpl; neutral. Qed.

Lemma index_position_neutral source packet n :
  stable_at n (index_position source packet).
Proof. revert n. unfold index_position. neutral. Qed.

Lemma PANGO_ENSURE_neutral c n :
  stable_at n (PANGO_ENSURE c).
Proof. revert n. unfold PANGO_ENSURE. neutral. Qed.

Hint Resolve _nextFrame_neutral index_position_neutral PANGO_ENSURE_neutral : neutral.

Lemma NextFrame_dispatch_neutral fuel n :
  stable_at n (NextFrame_dispatch picojson_parse fuel).
Proof. revert n. unfold NextFrame_dispatch. neutral. Qed.

End ReaderNeutral.

Section LockLifetime.

Variable picojson_parse : list byte → option (json * nat).

(** Inside the loop the one hold taken by [NextFrame] is kept, except where
    the loop itself lets go of it on finding nothing. *)
Lemma NextFrame_loop_lock fuel src s n :
  _mutex s = S n →
  match NextFrame_loop picojson_parse fuel src s with
  | Ret fi s' =>
      if FrameInfo.to_bool fi
      then FrameInfo.src fi = src ∧ _mutex s' = S n
      else _mutex s' = n
  | Throw e s' => _mutex s' = S n
  | _ => True
  end.
Proof.
  revert s. induction fuel as [|f IH]; intros s Hs; [exact I|].
  simpl. unfold mbind at 1, M_bind.
  pose proof (NextFrame_dispatch_neutral picojson_parse f (S n) s Hs) as Hd.
  destruct (NextFrame_dispatch picojson_parse f s) as [fi s1|e s1| | |];
    simpl in Hd; try exact I; [|exact Hd].
  destruct (FrameInfo.to_bool fi) eqn:Hfi; simpl.
  - destruct (FrameInfo.src fi =? src) eqn:Hsrc.
    + simpl. rewrite Hfi. split; [lia | exact Hd].
    + unfold mbind, M_bind, on_stream.
      destruct (PacketStream.skip _ _) as [r st]. apply IH. exact Hd.
  - unfold mbind, M_bind, Unlock. rewrite Hd. simpl. rewrite Hfi. reflexivity.
Qed.

(** C6: whenever [NextFrame] throws, the hold of the session-wide mutex it
    took on entry has been released; it also has been when it returns the
    "no frame" sentinel.  Only when it returns a frame, which then is one of
    the requested source, is the mutex held once more than on entry. *)
Theorem NextFrame_releases_lock_unless_frame fuel src s :
  match NextFrame picojson_parse fuel src s with
  | Ret fi s' =>
      if FrameInfo.to_bool fi
      then FrameInfo.src fi = src ∧ _mutex s' = S (_mutex s)
      else _mutex s' = _mutex s
  | Throw e s' => _mutex s' = _mutex s
  | _ => True
  end.
Proof.
  unfold NextFrame, mbind, M_bind, Lock, modify, try_catch.
  pose proof (NextFrame_loop_lock fuel src (set_mutex (S (_mutex s)) s) (_mutex s) eq_refl)
    as Hl.
  destruct (NextFrame_loop picojson_parse fuel src _) as [fi s'|e s'| | |];
    try exact I; [exact Hl|].
  unfold Unlock. rewrite Hl. reflexivity.
Qed.

End LockLifetime.

Section PayloadWindow.

Lemma base_read_spec n st :
  let '(bs, st') := PacketStream.base_read n st in
  bs `prefix_of` PacketStream.remaining st ∧
  (0 ≤ n → Z.of_nat (length bs) ≤ n) ∧
  PacketStream.gpos st' = PacketStream.gpos st + Z.of_nat (length bs) ∧
  PacketStream._data_len st' = PacketStream._data_len st ∧
  PacketStream._tag st' = PacketStream._tag st.
Proof.
  unfold PacketStream.base_read.
  destruct (PacketStream.is_open st && PacketStream.good st).
  - set (avail := PacketStream.remaining st).
    set (bs := take _ avail).
    assert (Hlen : 0 ≤ n → Z.of_nat (length bs) ≤ n).
    { intros Hn. subst bs. rewrite length_take. lia. }
    assert (Hpre : bs `prefix_of` avail) by apply prefix_take.
    destruct (Z.of_nat (length bs) <? n); simpl; repeat split; auto.
  - simpl. repeat split; auto; try lia. apply prefix_nil.
Qed.

(** What [ReadRaw] and [Skip] make of the requested length. *)
Lemma clamp_spec {A} (w : Z → Z → warning) (k : Z → M A) len s :
  PacketStream.data_len (_stream s) ≠ 0 →
  ((remain ← ask_stream PacketStream.data_len;
    len' ← (if remain =? 0 then throw InvalidState
            else if remain <? len then pango_print_warn (w len remain);; mret remain
            else mret len);
    k len') s)
  = k (Z.min len (PacketStream.data_len (_stream s)))
      (if PacketStream.data_len (_stream s) <? len
       then set_world (set_log (w len (PacketStream.data_len (_stream s))
                                  :: log (world s)) (world s)) s
       else s).
Proof.
  intros Hr. unfold mbind, M_bind, ask_stream. simpl.
  destruct (Z.eqb_spec (PacketStream.data_len (_stream s)) 0) as [|_]; [done|].
  destruct (Z.ltb_spec (PacketStream.data_len (_stream s)) len); simpl.
  - rewrite Z.min_r by lia. reflexivity.
  - rewrite Z.min_l by lia. reflexivity.
Qed.

(** C7: with a payload window of [r > 0] bytes active (and the mutex
    held, as [NextFrame] leaves it), a [ReadRaw] or [Skip] of any length
    returns rather than throws; a request beyond [r] is trimmed to [r] with
    a warning; the bytes read are a run of at most [min len r] bytes at the
    stream position, which moves on by no more than that; and the window
    shrinks by exactly the count consumed. *)
Theorem payload_request_is_clamped_to_window s len r :
  PacketStream.data_len (_stream s) = r → 0 < r → 0 ≤ len → (0 < _mutex s)%nat →
  (∃ bs s',
      ReadRaw len s = Ret bs s' ∧
      bs `prefix_of` PacketStream.remaining (_stream s) ∧
      Z.of_nat (length bs) ≤ Z.min len r ∧
      PacketStream.gpos (_stream s')
        = PacketStream.gpos (_stream s) + Z.of_nat (length bs) ∧
      PacketStream.data_len (_stream s') = r - Z.of_nat (length bs) ∧
      log (world s')
        = (if r <? len then [WarnReadTrim len r] else []) ++ log (world s))
  ∧
  (∃ n s',
      Skip len s = Ret n s' ∧
      n = Z.min len r ∧
      PacketStream.gpos (_stream s) ≤ PacketStream.gpos (_stream s')
        ≤ PacketStream.gpos (_stream s) + n ∧
      PacketStream.data_len (_stream s') = r - n ∧
      log (world s')
        = (if r <? len then [WarnSkipTrim len r] else []) ++ log (world s)).
Proof.
  intros Hr Hpos Hlen Hmutex. split.
  - unfold ReadRaw. rewrite clamp_spec by lia. rewrite Hr.
    set (s1 := if r <? len then _ else s).
    assert (Hs1 : _stream s1 = _stream s ∧ _mutex s1 = _mutex s ∧
              log (world s1) = (if r <? len then [WarnReadTrim len r] else [])
                                 ++ log (world s)).
    { subst s1. destruct (r <? len); simpl; auto. }
    destruct Hs1 as (Hst & Hmu & Hlog). clearbody s1.
    unfold mbind, M_bind, on_stream, PacketStream.read. rewrite Hst.
    pose proof (base_read_spec (Z.min len r) (PacketStream.set_tag 0 (_stream s)))
      as Hread.
    destruct (PacketStream.base_read _ _) as [bs st'].
    destruct Hread as (Hpre & Hle & Hgpos & Hdl & _).
    specialize (Hle ltac:(lia)). simpl in Hdl, Hgpos.
    unfold PacketStream.data_len in Hr. rewrite Hr in Hdl.
    unfold ask_stream. simpl. unfold PacketStream.data_len. simpl.
    rewrite Hdl. rewrite Z.max_r by lia.
    destruct (r - Z.of_nat (length bs) =? 0).
    + unfold Unlock. simpl. rewrite Hmu.
      destruct (_mutex s) as [|m]; [lia|].
      eexists _, _. split; [reflexivity|]. simpl. repeat split; auto.
    + eexists _, _. split; [reflexivity|]. simpl. repeat split; auto.
  - unfold Skip. rewrite clamp_spec by lia. rewrite Hr.
    set (s1 := if r <? len then _ else s).
    assert (Hs1 : _stream s1 = _stream s ∧ _mutex s1 = _mutex s ∧
              log (world s1) = (if r <? len then [WarnSkipTrim len r] else [])
                                 ++ log (world s)).
    { subst s1. destruct (r <? len); simpl; auto. }
    destruct Hs1 as (Hst & Hmu & Hlog). clearbody s1.
    unfold mbind, M_bind, on_stream, PacketStream.skip. rewrite Hst.
    set (n := Z.min len r). set (st0 := PacketStream.set_tag 0 (_stream s)).
    set (st1 := if PacketStream.seekable st0 then _ else _).
    assert (Hst1 : PacketStream.gpos (_stream s) ≤ PacketStream.gpos st1
                     ≤ PacketStream.gpos (_stream s) + n ∧
                   PacketStream._data_len st1 = r).
    { subst st1. unfold PacketStream.base_seekg, PacketStream.base_ignore.
      unfold PacketStream.data_len in Hr.
      assert (0 ≤ n) by (subst n; lia).
      destruct (PacketStream.seekable st0);
        destruct (PacketStream.is_open st0 && PacketStream.good st0); simpl;
        try (split; [lia | exact Hr]).
      - destruct (Z.ltb_spec (PacketStream.gpos (_stream s) + n) 0); simpl;
          (split; [lia | exact Hr]).
      - destruct (Z.leb_spec (PacketStream.gpos (_stream s) + n)
                    (PacketStream.size st0)); simpl; (split; [lia | exact Hr]). }
    destruct Hst1 as (Hg & Hdl). clearbody st1.
    unfold ask_stream. simpl. unfold PacketStream.data_len. simpl.
    rewrite Hdl. rewrite Z.max_r by lia.
    destruct (r - n =? 0).
    + unfold Unlock. simpl. rewrite Hmu.
      destruct (_mutex s) as [|m]; [lia|].
      eexists _, _. split; [reflexivity|]. simpl. repeat split; auto; lia.
    + eexists _, _. split; [reflexivity|]. simpl. repeat split; auto; lia.
Qed.

End PayloadWindow.

(** ** What the stream operations leave alone *)

Module StreamFacts.

Import PacketStream.

Lemma base_read_medium n st : medium (base_read n st).2 = medium st.
Proof. unfold base_read. repeat case_match; reflexivity. Qed.

Lemma base_seekg_medium x st : medium (base_seekg x st) = medium st.
Proof. unfold base_seekg. repeat case_match; reflexivity. Qed.

Lemma base_ignore_medium n st : medium (base_ignore n st) = medium st.
Proof. unfold base_ignore. repeat case_match; reflexivity. Qed.

Lemma get_medium st : medium (get st).2 = medium st.
Proof.
  unfold get, base_get.
  pose proof (base_read_medium 1 (set_tag 0 st)) as Hm.
  destruct (base_read 1 _) as [[|b bs] st']; exact Hm.
Qed.

Lemma read_medium len st : medium (read len st).2 = medium st.
Proof.
  unfold read. pose proof (base_read_medium len (set_tag 0 st)) as Hm.
  destruct (base_read len _) as [bs st']; exact Hm.
Qed.

Lemma skip_medium len st : medium (skip len st).2 = medium st.
Proof.
  unfold skip. simpl. case_match.
  - apply (base_seekg_medium _ (set_tag 0 st)).
  - apply (base_ignore_medium _ (set_tag 0 st)).
Qed.

Lemma readUINT_medium st : medium (readUINT st).2 = medium st.
Proof. unfold readUINT. repeat case_match; reflexivity. Qed.

Lemma readTimestamp_medium st : medium (readTimestamp st).2 = medium st.
Proof.
  unfold readTimestamp. pose proof (base_read_medium 8 (set_tag 0 st)) as Hm.
  destruct (base_read 8 _) as [bs st']; exact Hm.
Qed.

Lemma peekTag_medium st : medium (peekTag st).2 = medium st.
Proof.
  unfold peekTag. case_match; [|reflexivity].
  pose proof (base_read_medium Tag.TAG_LENGTH st) as Hm.
  destruct (base_read _ _) as [bs st']; exact Hm.
Qed.

Lemma readTag_medium st : medium (readTag st).2 = medium st.
Proof.
  unfold readTag. pose proof (peekTag_medium st) as Hm.
  destruct (peekTag st) as [r st']; exact Hm.
Qed.

Lemma readTag_expect_medium x st : medium (readTag_expect x st).2 = medium st.
Proof.
  unfold readTag_expect. pose proof (readTag_medium st) as Hm.
  destruct (readTag st) as [r st']. case_match; exact Hm.
Qed.

Lemma syncToTag_medium st : medium (syncToTag st).2 = medium st.
Proof.
  unfold syncToTag. pose proof (peekTag_medium st) as Hm.
  destruct (peekTag st) as [r st']. repeat case_match; exact Hm.
Qed.

Lemma seekg_medium x st : medium (seekg x st) = medium st.
Proof.
  unfold seekg. case_match; [|reflexivity]. apply (base_seekg_medium _ (cclear st)).
Qed.

Lemma seekg_end_medium x st : medium (seekg_end x st) = medium st.
Proof.
  unfold seekg_end. case_match; [|reflexivity].
  apply (base_seekg_medium _ (cclear st)).
Qed.

Lemma seekable_medium st st' : medium st' = medium st → seekable st' = seekable st.
Proof. unfold medium, seekable. intros [= _ -> ->]. reflexivity. Qed.

(** A seek on a seekable medium leaves no data window. *)
Lemma seekg_data_len x st : seekable st = true → data_len (seekg x st) = 0.
Proof.
  intros Hs. unfold seekg, base_seekg, data_len. rewrite Hs.
  repeat case_match; reflexivity.
Qed.

End StreamFacts.

Create HintDb medium.

#[global] Hint Resolve StreamFacts.get_medium StreamFacts.read_medium
  StreamFacts.skip_medium StreamFacts.readUINT_medium
  StreamFacts.readTimestamp_medium StreamFacts.peekTag_medium
  StreamFacts.readTag_medium StreamFacts.readTag_expect_medium
  StreamFacts.syncToTag_medium StreamFacts.seekg_medium
  StreamFacts.seekg_end_medium : medium.

(** ** Invariants of a session that is not re-opened *)

Create HintDb framed discriminated.

Ltac framed_leaf HP :=
  first
    [ solve [auto with framed]
    | apply stable_on_stream; intros ? ?; apply (fr_stream _ HP);
        [assumption | solve [auto with medium]]
    | apply stable_upd_stream; intros ? ?; apply (fr_stream _ HP);
        [assumption | solve [auto with medium]]
    | apply stable_modify; intros ? ?;
        first [ apply (fr_index _ HP) | apply (fr_start _ HP)
              | apply (fr_pipe_fd _ HP) | apply (fr_log _ HP)
              | apply (fr_warned _ HP) | apply (fr_mutex _ HP) ];
        assumption ].

Ltac framed_with HP := repeat first [stable_step | framed_leaf HP].


Section Framed.

Variable picojson_parse : list byte → option (json * nat).
Context {P : PacketStreamReader → Prop} (HP : frameable P).
Hypothesis P_no_reopen : ∀ s, P s → no_reopen s.
Hypothesis ParseNewSource_framed : stable P (ParseNewSource picojson_parse).

Ltac framed := framed_with HP.

Lemma pango_print_warn_framed w : stable P (pango_print_warn w).
Proof. apply stable_modify. intros s Hs. apply (fr_log _ HP), Hs. Qed.

Lemma json_checked_framed {A} (o : option A) : stable P (json_checked o).
Proof. destruct o; intros s Hs; exact Hs. Qed.

Lemma parse_value_framed : stable P (parse_value_from_stream picojson_parse).
Proof.
  intros s Hs. unfold parse_value_from_stream.
  repeat case_match; simpl; apply (fr_stream _ HP); auto.
Qed.

Lemma Unlock_framed : stable P Unlock.
Proof.
  intros s Hs. unfold Unlock. destruct (_mutex s); simpl; [exact I|].
  apply (fr_mutex _ HP), Hs.
Qed.

Lemma Lock_framed : stable P Lock.
Proof. apply stable_modify. intros s Hs. apply (fr_mutex _ HP), Hs. Qed.

Hint Resolve pango_print_warn_framed json_checked_framed parse_value_framed
  Unlock_framed Lock_framed ParseNewSource_framed : framed.

Lemma json_field_framed j key : stable P (json_field j key).
Proof. apply json_checked_framed. Qed.

Lemma readTag_expect_framed x : stable P (readTag_expect x).
Proof. unfold readTag_expect. framed. Qed.

Hint Resolve json_field_framed readTag_expect_framed : framed.

Lemma ParseHeader_framed : stable P (ParseHeader picojson_parse).
Proof. unfold ParseHeader. framed. Qed.

Lemma ParseIndex_framed : stable P (ParseIndex picojson_parse).
Proof. unfold ParseIndex. framed. Qed.

Lemma skip_to_packet_framed fuel : stable P (skip_to_packet fuel).
Proof. induction fuel as [|f IH]; simpl; framed. Qed.

Hint Resolve ParseHeader_framed ParseIndex_framed skip_to_packet_framed : framed.

Lemma SkipSync_framed fuel : stable P (SkipSync fuel).
Proof. unfold SkipSync. framed. Qed.

Lemma GetPacketIndex_framed src_id : stable P (GetPacketIndex src_id).
Proof. unfold GetPacketIndex. framed. Qed.

Lemma ReSync_framed : stable P ReSync.
Proof. unfold ReSync. framed. Qed.

Hint Resolve SkipSync_framed GetPacketIndex_framed ReSync_framed : framed.

Lemma readFrameHeader_framed : stable P (readFrameHeader picojson_parse).
Proof. unfold readFrameHeader, read_packet_header. framed. Qed.

(** Without a re-open, [GoodToRead] at most notes the pipe's descriptor. *)
Lemma GoodToRead_framed fuel : stable P (GoodToRead picojson_parse fuel).
Proof.
  intros s Hs. pose proof (P_no_reopen s Hs) as Hno.
  unfold GoodToRead, mbind, M_bind, ask_stream, gets, modify. simpl.
  destruct (PacketStream.good (_stream s)); simpl; [exact Hs|].
  destruct (_is_pipe s) eqn:Hpipe; simpl; [|exact Hs].
  destruct Hno as [Hno|Hno]; [congruence|].
  destruct (_pipe_fd s =? -1); simpl.
  - destruct (ReadablePipeFileDescriptor _ _ =? -1); simpl.
    + apply (fr_pipe_fd _ HP), Hs.
    + rewrite Hno. simpl. apply (fr_pipe_fd _ HP), Hs.
  - destruct (_pipe_fd s =? -1); simpl; [exact Hs|].
    rewrite Hno. exact Hs.
Qed.

Hint Resolve readFrameHeader_framed GoodToRead_framed : framed.

Lemma _nextFrame_framed fuel : stable P (_nextFrame picojson_parse fuel).
Proof. induction fuel as [|f IH]; simpl; framed. Qed.

Lemma index_position_framed source packet : stable P (index_position source packet).
Proof. unfold index_position. framed. Qed.

Lemma PANGO_ENSURE_framed c : stable P (PANGO_ENSURE c).
Proof. unfold PANGO_ENSURE. framed. Qed.

End Framed.

#[global] Hint Resolve pango_print_warn_framed json_checked_framed
  parse_value_framed Unlock_framed Lock_framed json_field_framed
  readTag_expect_framed ParseHeader_framed ParseIndex_framed
  skip_to_packet_framed SkipSync_framed GetPacketIndex_framed ReSync_framed
  readFrameHeader_framed GoodToRead_framed _nextFrame_framed
  index_position_framed PANGO_ENSURE_framed : framed.

(** ** Taking a run apart *)

Lemma bind_Ret_inv {A B} (m : M A) (f : A → M B) s b s' :
  (m ≫= f) s = Ret b s' → ∃ a s1, m s = Ret a s1 ∧ f a s1 = Ret b s'.
Proof.
  unfold mbind, M_bind. destruct (m s) as [a s1|e s1| | |]; try discriminate.
  intros H. exists a, s1. auto.
Qed.

Lemma stable_Ret {A} (P : PacketStreamReader → Prop) (m : M A) s a s' :
  stable P m → P s → m s = Ret a s' → P s'.
Proof. intros Hm Hs Hr. specialize (Hm s Hs). rewrite Hr in Hm. exact Hm. Qed.

Lemma stable_Throw {A} (P : PacketStreamReader → Prop) (m : M A) s e s' :
  stable P m → P s → m s = Throw e s' → P s'.
Proof. intros Hm Hs Hr. specialize (Hm s Hs). rewrite Hr in Hm. exact Hm. Qed.

Lemma lock_guard_Ret_inv {A} (m : M A) s a s' :
  lock_guard m s = Ret a s' →
  ∃ s1 n, m (set_mutex (S (_mutex s)) s) = Ret a s1 ∧ _mutex s1 = S n ∧ s' = set_mutex n s1.
Proof.
  unfold lock_guard. destruct (m _) as [a1 s1|e s1| | |]; try discriminate.
  - destruct (_mutex s1) as [|n] eqn:Hn; [discriminate|].
    intros [= <- <-]. eauto.
  - destruct (_mutex s1); discriminate.
Qed.

(** Run the calls whose outcome is known. *)
Ltac mrun :=
  repeat (unfold mbind, M_bind, mret, M_ret, gets, ask_stream, modify, upd_stream,
            throw, pango_print_warn;
          simpl).

(** Split the next bind of a run that returned. *)
Ltac bind_inv H :=
  let a := fresh "a" in
  let s1 := fresh "s" in
  let H1 := fresh "Hrun" in
  apply bind_Ret_inv in H as (a & s1 & H1 & H).

(** ** A session on an ordinary file *)

Lemma on_file_frameable : frameable on_file.
Proof.
  split; try (intros s ? Hs; exact Hs).
  intros s st [Hs Hp] Hm. split; [|exact Hp]. simpl.
  rewrite (StreamFacts.seekable_medium _ _ Hm). exact Hs.
Qed.

Lemma on_file_no_reopen s : on_file s → no_reopen s.
Proof. intros [_ Hp]. left. exact Hp. Qed.

Section OnFile.

Variable picojson_parse : list byte → option (json * nat).

Ltac on_file_leaf :=
  first
    [ solve [auto with framed]
    | apply stable_modify; intros ? Hs; exact Hs
    | apply stable_on_stream; intros ? ?; apply (fr_stream _ on_file_frameable);
        [assumption | solve [auto with medium]]
    | apply stable_upd_stream; intros ? ?; apply (fr_stream _ on_file_frameable);
        [assumption | solve [auto with medium]] ].

Ltac on_file_tac := repeat first [stable_step | on_file_leaf].

Let HP := on_file_frameable.

Lemma json_checked_on_file {A} (o : option A) : stable on_file (json_checked o).
Proof. apply json_checked_framed; first [exact HP | exact on_file_no_reopen | exact ParseNewSource_on_file]. Qed.

Lemma parse_value_on_file : stable on_file (parse_value_from_stream picojson_parse).
Proof. apply parse_value_framed; first [exact HP | exact on_file_no_reopen | exact ParseNewSource_on_file]. Qed.

Lemma json_field_on_file j key : stable on_file (json_field j key).
Proof. apply json_field_framed; first [exact HP | exact on_file_no_reopen | exact ParseNewSource_on_file]. Qed.

Lemma readTag_expect_on_file x : stable on_file (readTag_expect x).
Proof. apply readTag_expect_framed; first [exact HP | exact on_file_no_reopen | exact ParseNewSource_on_file]. Qed.

Lemma pango_print_warn_on_file w : stable on_file (pango_print_warn w).
Proof. apply pango_print_warn_framed; first [exact HP | exact on_file_no_reopen | exact ParseNewSource_on_file]. Qed.

Lemma Unlock_on_file : stable on_file Unlock.
Proof. apply Unlock_framed; first [exact HP | exact on_file_no_reopen | exact ParseNewSource_on_file]. Qed.

Lemma Lock_on_file : stable on_file Lock.
Proof. apply Lock_framed; first [exact HP | exact on_file_no_reopen | exact ParseNewSource_on_file]. Qed.

Lemma index_position_on_file source packet :
  stable on_file (index_position source packet).
Proof. apply index_position_framed; first [exact HP | exact on_file_no_reopen | exact ParseNewSource_on_file]. Qed.

Lemma PANGO_ENSURE_on_file c : stable on_file (PANGO_ENSURE c).
Proof. apply PANGO_ENSURE_framed; first [exact HP | exact on_file_no_reopen | exact ParseNewSource_on_file]. Qed.

Hint Resolve json_checked_on_file parse_value_on_file json_field_on_file
  readTag_expect_on_file pango_print_warn_on_file Unlock_on_file Lock_on_file
  index_position_on_file PANGO_ENSURE_on_file : framed.

Lemma ParseNewSource_on_file : stable on_file (ParseNewSource picojson_parse).
Proof. unfold ParseNewSource, register_source. on_file_tac. Qed.

Lemma _nextFrame_on_file fuel : stable on_file (_nextFrame picojson_parse fuel).
Proof. apply _nextFrame_framed; first [exact HP | exact on_file_no_reopen | exact ParseNewSource_on_file]. Qed.

Lemma readFrameHeader_on_file : stable on_file (readFrameHeader picojson_parse).
Proof. apply readFrameHeader_framed; first [exact HP | exact on_file_no_reopen | exact ParseNewSource_on_file]. Qed.

Hint Resolve _nextFrame_on_file readFrameHeader_on_file : framed.

Lemma NextFrame_dispatch_on_file fuel :
  stable on_file (NextFrame_dispatch picojson_parse fuel).
Proof. unfold NextFrame_dispatch. on_file_tac. Qed.

Hint Resolve NextFrame_dispatch_on_file : framed.

Lemma NextFrame_loop_on_file fuel src :
  stable on_file (NextFrame_loop picojson_parse fuel src).
Proof. induction fuel as [|f IH]; simpl; on_file_tac. Qed.

Hint Resolve NextFrame_loop_on_file : framed.

Lemma NextFrame_on_file fuel src : stable on_file (NextFrame picojson_parse fuel src).
Proof. unfold NextFrame. on_file_tac. Qed.

Lemma Skip_on_file len : stable on_file (Skip len).
Proof. unfold Skip. on_file_tac. Qed.

Lemma ReadRaw_on_file len : stable on_file (ReadRaw len).
Proof. unfold ReadRaw. on_file_tac. Qed.

Hint Resolve NextFrame_on_file Skip_on_file ReadRaw_on_file : framed.

Lemma seek_read_ahead_on_file fuel src framenum :
  stable on_file (seek_read_ahead picojson_parse fuel src framenum).
Proof. induction fuel as [|f IH]; simpl; on_file_tac. Qed.

Lemma on_file_of_seekable s :
  _is_pipe s = PacketStream._is_pipe (_stream s) →
  PacketStream.seekable (_stream s) = true → on_file s.
Proof.
  intros Hco Hs. split; [exact Hs|]. rewrite Hco.
  unfold PacketStream.seekable in Hs.
  destruct (PacketStream._is_pipe (_stream s)); [|reflexivity].
  rewrite andb_false_r in Hs. discriminate.
Qed.

Lemma Seek_unfold fuel src framenum :
  Seek picojson_parse fuel src framenum
  = lock_guard (
      seekable ← ask_stream PacketStream.seekable;
      if negb seekable then throw UnsupportedOperation
      else
        sources ← gets _sources;
        if Z.of_nat (length sources) <? src then throw InvalidArgument
        else Seek_body picojson_parse fuel src framenum).
Proof. reflexivity. Qed.

Lemma Seek_body_window fuel src framenum s r s' :
  on_file s →
  Seek_body picojson_parse fuel src framenum s = Ret r s' →
  on_file s' ∧ PacketStream.data_len (_stream s') = 0.
Proof.
  intros Hs H. unfold Seek_body in H.
  bind_inv H. injection Hrun as <- <-.
  bind_inv H.
  assert (Hs0 : on_file s0).
  { eapply stable_Ret; [|exact Hs|exact Hrun]. on_file_tac. }
  bind_inv H.
  apply (stable_Ret _ _ _ _ _ (seek_read_ahead_on_file _ _ _) Hs0) in Hrun0.
  bind_inv H.
  apply (stable_Ret _ _ _ _ _ (index_position_on_file _ _) Hrun0) in Hrun1.
  bind_inv H.
  assert (Hs3 : on_file s3).
  { eapply stable_Ret; [|exact Hrun1|exact Hrun2]. on_file_tac. }
  bind_inv H. injection Hrun3 as <- <-.
  bind_inv H.
  assert (Hs4 : on_file s4).
  { eapply stable_Ret; [|exact Hs3|exact Hrun3]. on_file_tac. }
  bind_inv H.
  apply (stable_Ret _ _ _ _ _ readFrameHeader_on_file Hs4) in Hrun4.
  bind_inv H. injection H as <- <-. injection Hrun5 as _ <-.
  split.
  - apply (fr_stream _ on_file_frameable); auto with medium.
  - simpl. apply StreamFacts.seekg_data_len. apply Hrun4.
Qed.

(** C10: once [Seek] has returned a frame descriptor, no payload window is
    declared on the stream, so that a [ReadRaw] or a [Skip] made then, of any
    length, throws the error of an inactive window.  (The session's pipe
    flag is the stream's: both are set from the path at [Open].) *)
Theorem no_payload_window_after_Seek fuel src framenum s r s' :
  _is_pipe s = PacketStream._is_pipe (_stream s) →
  Seek picojson_parse fuel src framenum s = Ret r s' →
  PacketStream.data_len (_stream s') = 0 ∧
  (∀ len, ReadRaw len s' = Throw InvalidState s') ∧
  (∀ len, Skip len s' = Throw InvalidState s').
Proof.
  intros Hco H. rewrite Seek_unfold in H.
  apply lock_guard_Ret_inv in H as (s1 & n & H & Hn & ->).
  bind_inv H. injection Hrun as <- <-.
  destruct (PacketStream.seekable _) eqn:Hseek; [|discriminate]. simpl in H.
  bind_inv H. injection Hrun as <- <-.
  destruct (_ <? src); [discriminate|].
  apply Seek_body_window in H as [_ Hd].
  2:{ apply on_file_of_seekable; [exact Hco | exact Hseek]. }
  split; [exact Hd|].
  split; intros len.
  - unfold ReadRaw, mbind, M_bind, ask_stream. simpl. rewrite Hd. reflexivity.
  - unfold Skip, mbind, M_bind, ask_stream. simpl. rewrite Hd. reflexivity.
Qed.

End OnFile.

(** ** Vectors indexed by a machine word *)

Lemma vec_at_Some {A} (v : list A) i x :
  vec_at v i = Some x → 0 ≤ i < Z.of_nat (length v) ∧ v !! Z.to_nat i = Some x.
Proof.
  unfold vec_at. destruct (Z.leb_spec 0 i), (Z.ltb_spec i (Z.of_nat (length v)));
    simpl; try discriminate. auto.
Qed.

Lemma vec_at_in_range {A} (v : list A) i :
  0 ≤ i < Z.of_nat (length v) → vec_at v i = v !! Z.to_nat i.
Proof.
  intros Hi. unfold vec_at.
  destruct (Z.leb_spec 0 i), (Z.ltb_spec i (Z.of_nat (length v))); simpl; auto; lia.
Qed.

Lemma vec_set_length {A} (v : list A) i x : length (vec_set v i x) = length v.
Proof. unfold vec_set. case_match; [apply length_insert | reflexivity]. Qed.

Lemma vec_at_set_eq {A} (v : list A) i x :
  0 ≤ i < Z.of_nat (length v) → vec_at (vec_set v i x) i = Some x.
Proof.
  intros Hi. rewrite vec_at_in_range by (rewrite vec_set_length; exact Hi).
  unfold vec_set.
  destruct (Z.leb_spec 0 i), (Z.ltb_spec i (Z.of_nat (length v))); simpl; try lia.
  apply list_lookup_insert_eq. lia.
Qed.

Lemma vec_at_set_ne {A} (v : list A) i j x :
  i ≠ j → vec_at (vec_set v i x) j = vec_at v j.
Proof.
  intros Hij. unfold vec_at. rewrite vec_set_length.
  destruct (Z.leb_spec 0 j), (Z.ltb_spec j (Z.of_nat (length v))); simpl; auto.
  unfold vec_set.
  destruct (Z.leb_spec 0 i), (Z.ltb_spec i (Z.of_nat (length v))); simpl; auto.
  apply list_lookup_insert_ne. lia.
Qed.

(** ** Calls that need no fuel *)

Lemma fuel_free_bind {A B} (m : M A) (f : A → M B) :
  fuel_free m → (∀ a, fuel_free (f a)) → fuel_free (m ≫= f).
Proof.
  intros Hm Hf s. unfold mbind, M_bind. specialize (Hm s).
  destruct (m s) as [a s1|e s1| | |]; try discriminate; [apply Hf | contradiction].
Qed.

Lemma fuel_free_ret {A} (a : A) : fuel_free (mret a).
Proof. intros s. discriminate. Qed.

Lemma fuel_free_gets {A} (f : PacketStreamReader → A) : fuel_free (gets f).
Proof. intros s. discriminate. Qed.

Lemma fuel_free_ask {A} (f : PacketStream.t → A) : fuel_free (ask_stream f).
Proof. intros s. discriminate. Qed.

Lemma fuel_free_throw {A} (e : exn) : fuel_free (@throw A e).
Proof. intros s. discriminate. Qed.

Lemma fuel_free_undefined {A} : fuel_free (@undefined A).
Proof. intros s. discriminate. Qed.

Lemma fuel_free_modify f : fuel_free (modify f).
Proof. intros s. discriminate. Qed.

Lemma fuel_free_upd_stream f : fuel_free (upd_stream f).
Proof. intros s. discriminate. Qed.

Lemma fuel_free_on_stream {A} (f : PacketStream.t → A * PacketStream.t) :
  fuel_free (on_stream f).
Proof. intros s. unfold on_stream. destruct (f (_stream s)). discriminate. Qed.

Lemma fuel_free_parse_value picojson_parse :
  fuel_free (parse_value_from_stream picojson_parse).
Proof. intros s. unfold parse_value_from_stream. repeat case_match; discriminate. Qed.

Ltac fuel_free_tac :=
  repeat first
    [ apply fuel_free_bind; [| intros ?]
    | apply fuel_free_ret | apply fuel_free_gets | apply fuel_free_ask
    | apply fuel_free_throw | apply fuel_free_undefined | apply fuel_free_modify
    | apply fuel_free_upd_stream | apply fuel_free_on_stream
    | apply fuel_free_parse_value
    | lazymatch goal with
      | |- fuel_free (if ?b then _ else _) => destruct b
      | |- fuel_free (match ?x with _ => _ end) => destruct x
      end ].

Lemma readFrameHeader_fuel_free picojson_parse :
  fuel_free (readFrameHeader picojson_parse).
Proof.
  unfold readFrameHeader, read_packet_header, readTag_expect, GetPacketIndex.
  fuel_free_tac.
Qed.

(** ** The counter that a seek resets *)

Section SeekCounters.

Variable picojson_parse : list byte → option (json * nat).

Lemma framenum_frameable c : frameable (λ s, _next_packet_framenum s = c).
Proof. split; intros; assumption. Qed.

Lemma index_has_position idx source packet :
  PacketIndex.has idx source packet = true →
  ∃ pos, PacketIndex.position idx source packet = Some pos.
Proof.
  unfold PacketIndex.has, PacketIndex.position.
  destruct (idx !! source) as [per_source|]; [|discriminate].
  intros H. apply bool_decide_eq_true in H as [pos Hpos]. eauto.
Qed.

(** C8: a [Seek] to a pair the Packet Index already holds, with no payload
    window pending, on a seekable medium and for a registered source (each
    registered source having its counter), leaves the counter of that source
    at the target sequence number and every other counter as it was, whether
    it then returns the frame or throws on reading its header; and the call
    takes no turn of a loop, so that it does not stop for want of fuel. *)
Theorem Seek_hit_resets_only_that_counter fuel src framenum s :
  PacketStream.seekable (_stream s) = true →
  0 ≤ src < Z.of_nat (length (_sources s)) →
  (length (_sources s) ≤ length (_next_packet_framenum s))%nat →
  PacketIndex.has (_index s) src framenum = true →
  PacketStream.data_len (_stream s) = 0 →
  let unchanged_but_src s' :=
    vec_at (_next_packet_framenum s') src = Some framenum ∧
    ∀ other, other ≠ src →
      vec_at (_next_packet_framenum s') other = vec_at (_next_packet_framenum s) other in
  post (Seek picojson_parse fuel src framenum s)
    (λ _, unchanged_but_src) (λ _, unchanged_but_src) ∧
  (fuel ≠ 0%nat → Seek picojson_parse fuel src framenum s ≠ OutOfFuel).
Proof.
  intros Hseek Hsrc Hlen Hhas Hwin Q.
  assert (HQ : ∀ s', _next_packet_framenum s'
                     = vec_set (_next_packet_framenum s) src framenum → Q s').
  { intros s' Heq. subst Q. simpl. rewrite Heq. split.
    - apply vec_at_set_eq. lia.
    - intros other Hne. apply vec_at_set_ne. congruence. }
  destruct (index_has_position _ _ _ Hhas) as [pos Hpos].
  assert (Htail : ∀ c, stable (λ s, _next_packet_framenum s = c)
            (r ← readFrameHeader picojson_parse;
             upd_stream (PacketStream.seekg (FrameInfo.packet_streampos r));; mret r)).
  { intros c. apply stable_bind; [apply readFrameHeader_framed, framenum_frameable|].
    intros r. apply stable_bind; [|intros ?; apply stable_ret].
    apply stable_upd_stream. intros ? Hc. exact Hc. }
  destruct fuel as [|f].
  { split; [|intros Hf; contradiction].
    unfold Seek, lock_guard, Seek_body. mrun. rewrite Hseek. mrun.
    destruct (Z.ltb_spec (Z.of_nat (length (_sources s))) src); [lia|].
    mrun. rewrite Hwin. exact I. }
  unfold Seek, lock_guard, Seek_body. mrun. rewrite Hseek. mrun.
  destruct (Z.ltb_spec (Z.of_nat (length (_sources s))) src); [lia|].
  mrun. rewrite Hwin. mrun. rewrite Hhas. mrun.
  unfold index_position. mrun. rewrite Hpos. mrun.
  destruct (Z.leb_spec 0 src); [|lia].
  destruct (Z.ltb_spec src (Z.of_nat (length (_next_packet_framenum s)))); [|lia].
  mrun.
  set (s2 := set_next_packet_framenum _ _).
  specialize (Htail (vec_set (_next_packet_framenum s) src framenum) s2 eq_refl).
  pose proof (readFrameHeader_fuel_free picojson_parse s2) as Hff.
  clearbody s2. unfold mbind, M_bind in Htail.
  destruct (readFrameHeader picojson_parse s2) as [r s3|e s3| | |];
    simpl in Htail |- *; (split; [|intros _]);
    try exact I; try discriminate; try contradiction;
    destruct (_mutex s3); simpl; try exact I; try discriminate; apply HQ; exact Htail.
Qed.

End SeekCounters.

(** ** The guards of Seek *)

Section SeekGuards.

Variable picojson_parse : list byte → option (json * nat).

Lemma Seek_not_seekable fuel src framenum s :
  PacketStream.seekable (_stream s) = false →
  exception_of (Seek picojson_parse fuel src framenum s) = Some UnsupportedOperation.
Proof.
  intros Hs. unfold Seek, lock_guard. mrun. rewrite Hs. reflexivity.
Qed.

Lemma Seek_source_beyond_count fuel src framenum s :
  PacketStream.seekable (_stream s) = true →
  Z.of_nat (length (_sources s)) < src →
  exception_of (Seek picojson_parse fuel src framenum s) = Some InvalidArgument.
Proof.
  intros Hs Hsrc. unfold Seek, lock_guard. mrun. rewrite Hs. mrun.
  destruct (Z.ltb_spec (Z.of_nat (length (_sources s))) src); [reflexivity | lia].
Qed.

End SeekGuards.

(** C4: on the three-frame stream, whose one source has id 0, a [Seek] for
    source id 1, which no source has, is not turned down as an invalid
    argument: the guard lets an id equal to the number of sources through, the
    stream is read ahead to its end, and what is thrown is the out-of-range
    error of a frame not found. *)
Theorem Seek_lets_source_id_equal_to_count_through :
  length (_sources (Sample.opened Sample.three_frames)) = 1%nat ∧
  PacketStream.seekable (_stream (Sample.opened Sample.three_frames)) = true ∧
  exception_of (Seek Json.parse 10 1 0 (Sample.opened Sample.three_frames))
    = Some OutOfRange.
Proof. vm_compute. auto. Qed.

(** ** The sync marker *)

(** When the byte after the peeked marker is the G, the test of [SkipSync]
    is settled by it and the O is not read: the scan for the next packet
    starts one byte into the continuation. *)
Lemma SkipSync_after_G fuel s st1 :
  PacketStream.get (_stream s) = ("G"%byte, st1) →
  SkipSync fuel s = skip_to_packet fuel (set_stream st1 s).
Proof.
  intros Hg. unfold SkipSync, on_stream. mrun. rewrite Hg. reflexivity.
Qed.

(** C5: a stream in which the well-formed sync marker SYN GO stands between
    two frames of source 0.  With the first frame read and the SYN peeked,
    the bytes ahead are G, O and the second frame.  [SkipSync] reads the G
    only, so the tags it then discards are cut one byte early, the packet
    marker of the second frame is never the pending tag, and [NextFrame]
    reports the end of the stream instead of the second frame. *)
Theorem SkipSync_stops_inside_the_continuation :
  let s := Sample.after
             ((NextFrame Json.parse 10 0;; ReadRaw 4;; on_stream PacketStream.peekTag)
                (Sample.opened Sample.synced)) in
  let st1 := (PacketStream.get (_stream s)).2 in
  PacketStream._tag (_stream s) = Tag.TAG_PANGO_SYNC ∧
  PacketStream.remaining (_stream s)
    = list_byte_of_string "GO" ++ Sample.frame 0 13 (Sample.payload x0b 4)
        ++ Tag.bytes Tag.TAG_END ∧
  PacketStream.gpos st1 = PacketStream.gpos (_stream s) + 1 ∧
  SkipSync 10 s = skip_to_packet 10 (set_stream st1 s) ∧
  (PacketStream._tag ∘ _stream) <$> state_of (SkipSync 10 s) = Some Tag.TAG_END ∧
  (PacketStream.good ∘ _stream) <$> state_of (SkipSync 10 s) = Some false ∧
  value_of (NextFrame Json.parse 10 0 s) = Some FrameInfo.none.
Proof.
  intros s st1.
  assert (Hg : PacketStream.get (_stream s) = ("G"%byte, st1))
    by (vm_compute; reflexivity).
  repeat lazymatch goal with
         | |- SkipSync _ _ = skip_to_packet _ _ ∧ _ =>
             split; [apply SkipSync_after_G, Hg|]
         | |- _ ∧ _ => split; [vm_compute; reflexivity|]
         end.
  vm_compute; reflexivity.
Qed.

(** ** Closing twice *)

Lemma Close_spec s :
  Close s
  = Ret tt
      (set_mutex (_mutex s)
         ((if negb (_pipe_fd s =? -1)
           then λ s1, set_world (set_os_closed (_pipe_fd s :: os_closed (world s))
                                   (world s)) s1
           else λ s1, s1)
            (set_sources [] (set_stream (PacketStream.close (_stream s))
                               (set_mutex (S (_mutex s)) s))))).
Proof.
  unfold Close, lock_guard, os_close. mrun.
  destruct (negb (_pipe_fd s =? -1)); reflexivity.
Qed.

(** Without a pipe descriptor, a second [Close] changes nothing. *)
Lemma Close_twice_without_descriptor s s1 :
  _pipe_fd s = -1 → Close s = Ret tt s1 → Close s1 = Ret tt s1.
Proof.
  intros Hfd H1. rewrite Close_spec, Hfd in H1. simpl in H1. injection H1 as <-.
  rewrite Close_spec. simpl. rewrite Hfd. simpl.
  destruct s as [? ? ? st ? ? ? ? ? ?]. destruct st. reflexivity.
Qed.

(** With one, [Close] keeps it, and each [Close] closes it again. *)
Lemma Close_twice_with_descriptor s s1 s2 :
  _pipe_fd s ≠ -1 → Close s = Ret tt s1 → Close s1 = Ret tt s2 →
  _pipe_fd s2 = _pipe_fd s ∧
  os_closed (world s2) = _pipe_fd s :: _pipe_fd s :: os_closed (world s).
Proof.
  intros Hfd H1 H2. rewrite Close_spec in H1.
  destruct (Z.eqb_spec (_pipe_fd s) (-1)) as [|_]; [contradiction|].
  simpl in H1. injection H1 as <-.
  rewrite Close_spec in H2. simpl in H2.
  destruct (Z.eqb_spec (_pipe_fd s) (-1)) as [|_]; [contradiction|].
  simpl in H2. injection H2 as <-. auto.
Qed.

(** C9: a reader following a pipe whose producer has paused holds the
    pipe's descriptor 7.  The first [Close] passes it to [close(2)] and keeps
    it as the reader's descriptor; the second [Close] passes it to [close(2)]
    once more, so the state after the second differs from the state after the
    first. *)
Theorem Close_again_closes_the_descriptor_again :
  let s1 := Sample.after (Close Sample.polling_pipe) in
  let s2 := Sample.after (Close s1) in
  _pipe_fd Sample.polling_pipe = 7 ∧
  os_closed (world Sample.polling_pipe) = [] ∧
  Close Sample.polling_pipe = Ret tt s1 ∧
  Close s1 = Ret tt s2 ∧
  _pipe_fd s1 = 7 ∧
  os_closed (world s1) = [7] ∧
  os_closed (world s2) = [7; 7] ∧
  s2 ≠ s1.
Proof.
  intros s1 s2.
  repeat lazymatch goal with |- _ ∧ _ => split; [vm_compute; reflexivity|] end.
  intros H. apply (f_equal (λ s, os_closed (world s))) in H.
  vm_compute in H. discriminate.
Qed.

(** ** Registering a source in mid-stream *)

Lemma peekTag_cached st x st1 :
  PacketStream.peekTag st = (x, st1) → PacketStream._tag st1 = x.
Proof.
  unfold PacketStream.peekTag.
  destruct (PacketStream._tag st =? 0) eqn:Ht.
  - destruct (PacketStream.base_read _ _) as [bs st']. intros [= <- <-]. reflexivity.
  - intros [= <- <-]. reflexivity.
Qed.

Lemma peekTag_good st x st1 :
  PacketStream.good st = true → PacketStream.peekTag st = (x, st1) →
  x ≠ Tag.TAG_END → PacketStream.good st1 = true.
Proof.
  unfold PacketStream.peekTag. intros Hg.
  destruct (PacketStream._tag st =? 0) eqn:Ht.
  - destruct (PacketStream.base_read _ _) as [bs st'].
    destruct (PacketStream.good st') eqn:Hg'; intros [= <- <-] Hx; [exact Hg'|].
    contradiction.
  - intros [= <- <-] _. exact Hg.
Qed.

Lemma peekTag_again st x st1 :
  PacketStream.peekTag st = (x, st1) → x ≠ 0 → PacketStream.peekTag st1 = (x, st1).
Proof.
  intros H Hx. pose proof (peekTag_cached _ _ _ H) as Hc.
  unfold PacketStream.peekTag. rewrite Hc.
  destruct (Z.eqb_spec x 0); [contradiction | reflexivity].
Qed.

Section Registration.

Variable picojson_parse : list byte → option (json * nat).

(** The outcomes of the typed extractions, given what the blob spells. *)
Lemma json_checked_Some {A B} (o : option A) (a : A) (k : A → M B) s :
  o = Some a → (json_checked o ≫= k) s = k a s.
Proof. intros ->. reflexivity. Qed.

Lemma readTag_expect_peeked {B} x st1 s (k : Z → M B) :
  PacketStream.peekTag st1 = (x, st1) →
  (readTag_expect x ≫= k) (set_stream st1 s)
  = k x (set_stream (PacketStream.set_tag 0 st1) s).
Proof.
  intros Hp. unfold readTag_expect, on_stream, PacketStream.readTag_expect,
    PacketStream.readTag, mbind, M_bind.
  change (_stream (set_stream st1 s)) with st1. rewrite Hp.
  rewrite Z.eqb_refl. reflexivity.
Qed.

Lemma ParseNewSource_at_record s st1 j n pss :
  PacketStream.good (_stream s) = true →
  PacketStream.is_open (_stream s) = true →
  PacketStream.peekTag (_stream s) = (Tag.TAG_ADD_SOURCE, st1) →
  picojson_parse (PacketStream.remaining st1) = Some (j, n) →
  source_of_json j = Some pss →
  ∃ s1,
    _sources s1 = _sources s ∧
    _next_packet_framenum s1 = _next_packet_framenum s ∧
    ParseNewSource picojson_parse (set_stream st1 s) = register_source pss s1.
Proof.
  intros Hgood Hopen Hpeek Hparse Hsrc.
  pose proof (peekTag_again _ _ _ Hpeek ltac:(discriminate)) as Hpeek1.
  pose proof (peekTag_good _ _ _ Hgood Hpeek ltac:(discriminate)) as Hgood1.
  pose proof (StreamFacts.peekTag_medium (_stream s)) as Hmed.
  rewrite Hpeek in Hmed. simpl in Hmed.
  assert (Hopen1 : PacketStream.is_open st1 = true).
  { unfold PacketStream.medium in Hmed. congruence. }
  unfold source_of_json in Hsrc.
  repeat match type of Hsrc with
         | (?o ≫= _) = Some _ =>
             let a := fresh "v" in
             let E := fresh "E" in
             destruct o as [a|] eqn:E; simpl in Hsrc; [|discriminate]
         end.
  injection Hsrc as <-.
  unfold ParseNewSource.
  rewrite (readTag_expect_peeked _ _ _ _ Hpeek1).
  unfold mbind at 1, M_bind at 1, parse_value_from_stream at 1.
  cbn [_stream set_stream PacketStream.is_open PacketStream.good
         PacketStream.set_tag].
  rewrite Hopen1, Hgood1. cbn [andb].
  change (PacketStream.remaining (PacketStream.set_tag 0 st1))
    with (PacketStream.remaining st1).
  rewrite Hparse.
  unfold mbind at 1, M_bind at 1, on_stream at 1.
  destruct (PacketStream.get _) as [nl st2].
  unfold json_field.
  repeat (erewrite json_checked_Some by eassumption).
  eexists. split; [|split]; [| |reflexivity]; reflexivity.
Qed.

Lemma _nextFrame_S fuel :
  _nextFrame picojson_parse (S fuel)
  = (ready ← GoodToRead picojson_parse fuel;
     if (ready : bool) then
       x ← on_stream PacketStream.peekTag;
       if x =? Tag.TAG_PANGO_SYNC then SkipSync fuel;; _nextFrame picojson_parse fuel
       else if x =? Tag.TAG_ADD_SOURCE
            then ParseNewSource picojson_parse;; _nextFrame picojson_parse fuel
       else if (x =? Tag.TAG_SRC_JSON) || (x =? Tag.TAG_SRC_PACKET)
            then readFrameHeader picojson_parse
       else if x =? Tag.TAG_PANGO_STATS
            then ParseIndex picojson_parse;; _nextFrame picojson_parse fuel
       else if (x =? Tag.TAG_PANGO_FOOTER) || (x =? Tag.TAG_END)
            then mret FrameInfo.none
       else if x =? Tag.TAG_PANGO_HDR
            then ParseHeader picojson_parse;; _nextFrame picojson_parse fuel
       else if x =? Tag.TAG_PANGO_MAGIC then SkipSync fuel;; _nextFrame picojson_parse fuel
       else
         pango_print_warn (WarnUnexpectedTag x);;
         ReSync;;
         _nextFrame picojson_parse fuel
     else mret FrameInfo.none).
Proof. reflexivity. Qed.

Lemma GoodToRead_good fuel s :
  PacketStream.good (_stream s) = true → GoodToRead picojson_parse fuel s = Ret true s.
Proof.
  intros Hg. unfold GoodToRead, mbind, M_bind, ask_stream. rewrite Hg. reflexivity.
Qed.

Lemma vec_resize_length v n :
  Z.of_nat (length v) ≤ n → Z.of_nat (length (vec_resize v n)) = n.
Proof.
  intros Hn. unfold vec_resize.
  destruct (Z.ltb_spec n (Z.of_nat (length v))); [lia|].
  rewrite length_app, length_replicate. lia.
Qed.

(** C3, as the code has it: in mid-stream, at a source-registration record
    whose blob spells a descriptor, the dispatcher fails with the id-mismatch
    format error when the id is not the number of sources registered so far
    -- so for every id that is already registered -- and only for the next
    free id does it register the source, with its counter at 0, and go on
    dispatching. *)
Theorem ADD_SOURCE_is_passed_only_with_the_next_free_id fuel s st1 j n pss :
  PacketStream.good (_stream s) = true →
  PacketStream.is_open (_stream s) = true →
  PacketStream.peekTag (_stream s) = (Tag.TAG_ADD_SOURCE, st1) →
  picojson_parse (PacketStream.remaining st1) = Some (j, n) →
  source_of_json j = Some pss →
  (PacketStreamSource.id pss ≠ Z.of_nat (length (_sources s)) →
   exception_of (_nextFrame picojson_parse (S fuel) s)
     = Some (FormatError SourceIdMismatch))
  ∧
  (PacketStreamSource.id pss = Z.of_nat (length (_sources s)) →
   PacketStreamSource.id pss + 1 < SIZE_WIDTH →
   ∃ s',
     _nextFrame picojson_parse (S fuel) s = _nextFrame picojson_parse fuel s' ∧
     _sources s' = _sources s ++ [pss] ∧
     vec_at (_next_packet_framenum s') (PacketStreamSource.id pss) = Some 0).
Proof.
  intros Hgood Hopen Hpeek Hparse Hsrc.
  destruct (ParseNewSource_at_record _ _ _ _ _ Hgood Hopen Hpeek Hparse Hsrc)
    as (s1 & Hsources & Hframenum & Hrun).
  assert (Hstep : _nextFrame picojson_parse (S fuel) s
                  = (ParseNewSource picojson_parse;; _nextFrame picojson_parse fuel)
                      (set_stream st1 s)).
  { rewrite _nextFrame_S. unfold mbind at 1, M_bind at 1.
    rewrite (GoodToRead_good _ _ Hgood).
    unfold mbind at 1, M_bind at 1, on_stream at 1. rewrite Hpeek.
    reflexivity. }
  split.
  - intros Hne. rewrite Hstep. unfold mbind at 1, M_bind at 1. rewrite Hrun.
    unfold register_source. mrun. rewrite Hsources.
    destruct (Z.eqb_spec (Z.of_nat (length (_sources s))) (PacketStreamSource.id pss));
      [congruence | reflexivity].
  - intros Heq Hmax. rewrite Hstep. unfold mbind at 1, M_bind at 1. rewrite Hrun.
    unfold register_source. mrun. rewrite Hsources.
    destruct (Z.eqb_spec (Z.of_nat (length (_sources s))) (PacketStreamSource.id pss));
      [|congruence].
    cbn [negb]. mrun. rewrite Hframenum.
    set (i := PacketStreamSource.id pss) in *.
    assert (Hwrap : wrap64 (i + 1) = i + 1).
    { unfold wrap64. apply Z.mod_small. lia. }
    rewrite Hwrap.
    destruct (Z.ltb_spec (Z.of_nat (length (_next_packet_framenum s))) (i + 1));
      mrun.
    + rewrite vec_resize_length by lia.
      destruct (Z.leb_spec 0 i); [|lia].
      destruct (Z.ltb_spec i (i + 1)); [|lia]. mrun.
      eexists. split; [reflexivity|]. simpl. split; [reflexivity|].
      apply vec_at_set_eq. rewrite vec_resize_length; lia.
    + rewrite Hframenum.
      destruct (Z.leb_spec 0 i); [|lia].
      destruct (Z.ltb_spec i (Z.of_nat (length (_next_packet_framenum s)))); [|lia].
      mrun.
      eexists. split; [reflexivity|]. simpl. split; [reflexivity|].
      apply vec_at_set_eq. lia.
Qed.

End Registration.

(** C3, as it is stated, fails: one source is registered, a frame of it is
    read, and the next record registers source 0 once more.  The dispatcher
    does not pass over that record; it throws the id-mismatch format error
    and returns no frame. *)
Lemma reregistered_source_stops_dispatch :
  let s := Sample.after ((NextFrame Json.parse 10 0;; ReadRaw 4)
                           (Sample.opened Sample.reregistered)) in
  length (_sources s) = 1%nat ∧
  (PacketStream.peekTag (_stream s)).1 = Tag.TAG_ADD_SOURCE ∧
  exception_of (_nextFrame Json.parse 10 s) = Some (FormatError SourceIdMismatch) ∧
  value_of (_nextFrame Json.parse 10 s) = None.
Proof.
  intros s.
  repeat lazymatch goal with |- _ ∧ _ => split; [vm_compute; reflexivity|] end.
  vm_compute; reflexivity.
Qed.

(** ** The theorems at work on the sample streams *)

(** The stream with the re-registered source, at that record: the
    dispatcher fails there. *)
Lemma reregistered_source_witness :
  let s := Sample.after ((NextFrame Json.parse 10 0;; ReadRaw 4)
                           (Sample.opened Sample.reregistered)) in
  exception_of (_nextFrame Json.parse 10 s) = Some (FormatError SourceIdMismatch).
Proof.
  intros s.
  eapply (proj1 (ADD_SOURCE_is_passed_only_with_the_next_free_id Json.parse 9 s _ _ _ _
                   _ _ _ _ _)).
  Unshelve.
  all: try (vm_compute; reflexivity).
  vm_compute. discriminate.
Defined.

(** A request for 100 bytes with the 16-byte window of the first frame
    open: the read is trimmed to the window. *)
Lemma payload_request_witness :
  PacketStream.data_len (_stream Sample.at_first_payload) = 16 ∧
  ∃ bs s',
    ReadRaw 100 Sample.at_first_payload = Ret bs s' ∧
    Z.of_nat (length bs) ≤ 16 ∧
    PacketStream.data_len (_stream s') = 16 - Z.of_nat (length bs) ∧
    log (world s') = WarnReadTrim 100 16 :: log (world Sample.at_first_payload).
Proof.
  assert (Hr : PacketStream.data_len (_stream Sample.at_first_payload) = 16)
    by (vm_compute; reflexivity).
  assert (Hm : (0 < _mutex Sample.at_first_payload)%nat) by (vm_compute; lia).
  split; [exact Hr|].
  destruct (payload_request_is_clamped_to_window Sample.at_first_payload 100 16
              Hr ltac:(lia) ltac:(lia) Hm)
    as [(bs & s' & Hrun & _ & Hlen & _ & Hwin & Hlog) _].
  exists bs, s'. repeat split; [exact Hrun | lia | exact Hwin | exact Hlog].
Defined.

(** Back to frame 0 of source 0 once it is in the index. *)
Lemma Seek_hit_witness :
  PacketIndex.has (_index Sample.past_first_frame) 0 0 = true ∧
  vec_at (_next_packet_framenum Sample.past_first_frame) 0 = Some 1 ∧
  value_of (Seek Json.parse 5 0 0 Sample.past_first_frame) ≠ None ∧
  post (Seek Json.parse 5 0 0 Sample.past_first_frame)
    (λ _ s', vec_at (_next_packet_framenum s') 0 = Some 0 ∧
             ∀ other, other ≠ 0 →
               vec_at (_next_packet_framenum s') other
               = vec_at (_next_packet_framenum Sample.past_first_frame) other)
    (λ _ s', vec_at (_next_packet_framenum s') 0 = Some 0 ∧
             ∀ other, other ≠ 0 →
               vec_at (_next_packet_framenum s') other
               = vec_at (_next_packet_framenum Sample.past_first_frame) other).
Proof.
  split; [vm_compute; reflexivity|].
  split; [vm_compute; reflexivity|].
  split; [vm_compute; discriminate|].
  refine (proj1 (Seek_hit_resets_only_that_counter Json.parse 5 0 0
                   Sample.past_first_frame _ _ _ _ _)).
  - vm_compute; reflexivity.
  - vm_compute. split; [discriminate | reflexivity].
  - vm_compute. lia.
  - vm_compute; reflexivity.
  - vm_compute; reflexivity.
Defined.

(** A seek to frame 1 of the freshly opened three-frame stream. *)
Lemma no_payload_window_witness :
  let s' := Sample.after (Seek Json.parse 10 0 1 (Sample.opened Sample.three_frames)) in
  value_of (Seek Json.parse 10 0 1 (Sample.opened Sample.three_frames)) ≠ None ∧
  PacketStream.data_len (_stream s') = 0 ∧
  ReadRaw 16 s' = Throw InvalidState s' ∧
  Skip 16 s' = Throw InvalidState s'.
Proof.
  intros s'.
  split; [vm_compute; discriminate|].
  destruct (no_payload_window_after_Seek Json.parse 10 0 1
              (Sample.opened Sample.three_frames)
              (default FrameInfo.none
                 (value_of (Seek Json.parse 10 0 1 (Sample.opened Sample.three_frames))))
              s')
    as (Hwin & Hread & Hskip).
  - vm_compute; reflexivity.
  - vm_compute; reflexivity.
  - split; [exact Hwin|]. split; [apply Hread | apply Hskip].
Defined.

(** ** Sequence numbers *)

Tactic Notation "bind_inv" hyp(H) "as"
    simple_intropattern(a) ident(s1) ident(Hr) :=
  apply bind_Ret_inv in H as (a & s1 & Hr & H).

Ltac mrun_in H :=
  repeat (unfold mbind, M_bind, mret, M_ret, gets, ask_stream, modify, upd_stream,
            throw, pango_print_warn in H;
          simpl in H).

Lemma hoare_bind {A B} (P : PacketStreamReader → Prop) (m : M A) (f : A → M B)
    (Q : A → PacketStreamReader → Prop) (R : B → PacketStreamReader → Prop) :
  hoare P m Q → (∀ a, hoare (Q a) (f a) R) → hoare P (m ≫= f) R.
Proof.
  intros Hm Hf s Hs. apply post_bind.
  eapply post_mono; [apply Hm, Hs | | auto].
  intros a s' Hq. apply Hf, Hq.
Qed.

Lemma hoare_stable {A} (P : PacketStreamReader → Prop) (m : M A) :
  stable P m → hoare P m (λ _, P).
Proof. intros Hm s Hs. eapply post_mono; [apply Hm, Hs | auto | auto]. Qed.

Lemma hoare_weaken {A} (P : PacketStreamReader → Prop) (m : M A)
    (Q Q' : A → PacketStreamReader → Prop) :
  hoare P m Q → (∀ a s, Q a s → Q' a s) → hoare P m Q'.
Proof. intros Hm HQ s Hs. eapply post_mono; [apply Hm, Hs | exact HQ | auto]. Qed.

Lemma hoare_Ret {A} (P : PacketStreamReader → Prop) (m : M A)
    (Q : A → PacketStreamReader → Prop) s a s' :
  hoare P m Q → P s → m s = Ret a s' → Q a s'.
Proof. intros Hm Hs Hr. specialize (Hm s Hs). rewrite Hr in Hm. exact Hm. Qed.

Lemma vec_at_resize_grow v n x :
  Z.of_nat (length v) ≤ n → 0 ≤ x < Z.of_nat (length v) →
  vec_at (vec_resize v n) x = vec_at v x.
Proof.
  intros Hn Hx. rewrite !vec_at_in_range.
  - unfold vec_resize. destruct (Z.ltb_spec n (Z.of_nat (length v))); [lia|].
    apply lookup_app_l. lia.
  - exact Hx.
  - rewrite vec_resize_length; lia.
Qed.

Lemma wrap64_succ n : wrap64 (wrap64 n + 1) = wrap64 (n + 1).
Proof. unfold wrap64, SIZE_WIDTH. rewrite Zplus_mod_idemp_l. reflexivity. Qed.

Lemma stable_and {A} (P Q : PacketStreamReader → Prop) (m : M A) :
  stable P m → stable Q m → stable (λ s, P s ∧ Q s) m.
Proof.
  intros HP HQ s [Hp Hq]. specialize (HP s Hp). specialize (HQ s Hq).
  destruct (m s); simpl in *; auto.
Qed.

Lemma counters_agree_frameable c : frameable (counters_agree c).
Proof. split; intros; assumption. Qed.

Lemma no_reopen_frameable : frameable no_reopen.
Proof. split; intros; assumption. Qed.

Lemma counted_frameable c : frameable (counted c).
Proof. split; intros; assumption. Qed.

Lemma counted_no_reopen c s : counted c s → no_reopen s.
Proof. intros [H _]. exact H. Qed.

#[local] Hint Resolve counted_frameable counted_no_reopen counters_agree_frameable
  no_reopen_frameable : framed.

(** Registering a source puts its counter at 0 and leaves the others. *)
Lemma register_source_counters c pss : stable (counters_agree c) (register_source pss).
Proof.
  intros s (Hreg & Hun). unfold register_source. mrun.
  set (L := Z.of_nat (length (_sources s))) in *.
  set (i := PacketStreamSource.id pss).
  destruct (Z.eqb_spec L i) as [Hi|Hi]; simpl; [|split; assumption].
  assert (HL : c L = 0%nat) by (apply Hun; lia).
  assert (Hfinal : ∀ cnt',
    Z.of_nat (length cnt') > i →
    (∀ x, 0 ≤ x < L → vec_at cnt' x = vec_at (_next_packet_framenum s) x) →
    counters_agree c (set_next_packet_framenum (vec_set cnt' i 0)
                        (set_sources (_sources s ++ [pss]) s))).
  { intros cnt' Hlen Hpre. unfold counters_agree. simpl. rewrite length_app. simpl.
    split.
    - intros x Hx. destruct (Z.eq_dec x i) as [->|Hne].
      + rewrite vec_at_set_eq by lia. rewrite <- Hi, HL. reflexivity.
      + rewrite vec_at_set_ne by congruence. rewrite Hpre by lia. apply Hreg. lia.
    - intros x Hx. apply Hun. lia. }
  destruct (Z.ltb_spec (Z.of_nat (length (_next_packet_framenum s))) (wrap64 (i + 1)));
    mrun.
  - rewrite vec_resize_length by lia.
    destruct (Z.leb_spec 0 i); simpl; [|exact I].
    destruct (Z.ltb_spec i (wrap64 (i + 1))); simpl; [|exact I].
    apply (Hfinal (vec_resize (_next_packet_framenum s) (wrap64 (i + 1)))).
    + rewrite vec_resize_length; lia.
    + intros x Hx. apply vec_at_resize_grow; [lia|].
      specialize (Hreg x Hx). apply vec_at_Some in Hreg. lia.
  - destruct (Z.leb_spec 0 i); simpl; [|exact I].
    destruct (Z.ltb_spec i (Z.of_nat (length (_next_packet_framenum s)))); simpl;
      [|exact I].
    apply (Hfinal (_next_packet_framenum s)); [lia | auto].
Qed.

Lemma register_source_no_reopen pss : stable no_reopen (register_source pss).
Proof.
  unfold register_source.
  repeat first [stable_step | apply stable_modify; intros ? Hs; exact Hs].
Qed.

Lemma register_source_counted c pss : stable (counted c) (register_source pss).
Proof.
  apply stable_and; [apply register_source_no_reopen | apply register_source_counters].
Qed.

Section Counting.

Variable picojson_parse : list byte → option (json * nat).

Lemma ParseNewSource_counters c :
  stable (counters_agree c) (ParseNewSource picojson_parse).
Proof.
  unfold ParseNewSource.
  repeat first
    [ apply register_source_counters
    | stable_step
    | framed_leaf (counters_agree_frameable c) ].
Qed.

Lemma ParseNewSource_counted c : stable (counted c) (ParseNewSource picojson_parse).
Proof.
  unfold ParseNewSource.
  repeat first
    [ apply register_source_counted
    | stable_step
    | framed_leaf (counted_frameable c) ].
Qed.

Lemma registry_frameable S0 C0 :
  frameable (λ s, _sources s = S0 ∧ _next_packet_framenum s = C0).
Proof. split; intros; assumption. Qed.

(** A frame header that parses is of a registered source, and carries that
    source's counter as its sequence number; parsing it changes neither the
    registry nor the counters. *)
Lemma readFrameHeader_result s fi s1 :
  readFrameHeader picojson_parse s = Ret fi s1 →
  _sources s1 = _sources s ∧
  _next_packet_framenum s1 = _next_packet_framenum s ∧
  0 ≤ FrameInfo.src fi < Z.of_nat (length (_sources s)) ∧
  vec_at (_next_packet_framenum s) (FrameInfo.src fi) = Some (FrameInfo.sequence_num fi).
Proof.
  intros H.
  pose proof (registry_frameable (_sources s) (_next_packet_framenum s)) as HP0.
  set (P0 := λ s' : PacketStreamReader,
         _sources s' = _sources s ∧ _next_packet_framenum s' = _next_packet_framenum s)
    in HP0.
  assert (H0 : P0 s) by (split; reflexivity).
  assert (Hall : P0 s1).
  { eapply stable_Ret; [|exact H0|exact H]. apply readFrameHeader_framed, HP0. }
  destruct Hall as [Hs1 Hc1]. split; [exact Hs1|]. split; [exact Hc1|].
  unfold readFrameHeader, read_packet_header in H.
  bind_inv H as pos0 sa Ra. injection Ra as <- <-.
  bind_inv H as x sb Rb.
  assert (Hb : P0 sb) by (eapply stable_Ret; [|exact H0|exact Rb]; framed_with HP0).
  bind_inv H as [src0 meta0] sc Rc.
  assert (Hc : P0 sc) by (eapply stable_Ret; [|exact Hb|exact Rc]; framed_with HP0).
  bind_inv H as pos1 sd Rd. injection Rd as <- <-.
  bind_inv H as t0 se Re.
  assert (He : P0 se) by (eapply stable_Ret; [|exact Hc|exact Re]; framed_with HP0).
  bind_inv H as time sf Rf.
  assert (Hf : P0 sf) by (eapply stable_Ret; [|exact He|exact Rf]; framed_with HP0).
  bind_inv H as src sg Rg.
  assert (Hg : P0 sg) by (eapply stable_Ret; [|exact Hf|exact Rg]; framed_with HP0).
  bind_inv H as sources sh Rh. injection Rh as <- <-.
  destruct (vec_at (_sources sg) src) as [pss|] eqn:Hpss; [|discriminate].
  bind_inv H as size si Ri.
  assert (Hi : P0 si) by (eapply stable_Ret; [|exact Hg|exact Ri]; framed_with HP0).
  bind_inv H as k sj Rj. unfold GetPacketIndex in Rj. mrun_in Rj.
  destruct (vec_at (_next_packet_framenum si) src) as [k'|] eqn:Hk; [|discriminate].
  injection Rj as <- <-. injection H as <- <-. simpl.
  destruct Hg as [Hg1 Hg2]. destruct Hi as [Hi1 Hi2].
  rewrite Hg1 in Hpss. rewrite Hi2 in Hk.
  apply vec_at_Some in Hpss. split; [lia | exact Hk].
Qed.

Lemma hoare_mret {A} (P : PacketStreamReader → Prop) (a : A)
    (Q : A → PacketStreamReader → Prop) :
  (∀ s, P s → Q a s) → hoare P (mret a) Q.
Proof. intros H s Hs. apply H, Hs. Qed.

(** The frame the dispatcher lands on carries its source's count. *)
Lemma _nextFrame_counted c fuel :
  hoare (counted c) (_nextFrame picojson_parse fuel)
    (λ fi s1,
       counted c s1 ∧
       (FrameInfo.to_bool fi = true →
        0 ≤ FrameInfo.src fi < Z.of_nat (length (_sources s1)) ∧
        FrameInfo.sequence_num fi = wrap64 (Z.of_nat (c (FrameInfo.src fi))))).
Proof.
  induction fuel as [|f IH]; [intros s Hs; exact I|].
  pose proof (counted_frameable c) as HP.
  pose proof (ParseNewSource_counted c) as HNS.
  assert (Hnone : hoare (counted c) (mret FrameInfo.none)
            (λ fi s1, counted c s1 ∧
               (FrameInfo.to_bool fi = true →
                0 ≤ FrameInfo.src fi < Z.of_nat (length (_sources s1)) ∧
                FrameInfo.sequence_num fi = wrap64 (Z.of_nat (c (FrameInfo.src fi)))))).
  { apply hoare_mret. intros s Hs. split; [exact Hs|]. discriminate. }
  assert (Hthen : ∀ m : M unit, stable (counted c) m →
            hoare (counted c) (m;; _nextFrame picojson_parse f)
              (λ fi s1, counted c s1 ∧
                 (FrameInfo.to_bool fi = true →
                  0 ≤ FrameInfo.src fi < Z.of_nat (length (_sources s1)) ∧
                  FrameInfo.sequence_num fi
                    = wrap64 (Z.of_nat (c (FrameInfo.src fi)))))).
  { intros m Hm. eapply hoare_bind; [apply hoare_stable, Hm|]. intros ?. exact IH. }
  rewrite _nextFrame_S.
  eapply hoare_bind; [apply hoare_stable; eauto with framed|].
  intros [|]; [|exact Hnone].
  eapply hoare_bind; [apply hoare_stable; framed_with HP|].
  intros x.
  destruct (x =? Tag.TAG_PANGO_SYNC); [apply Hthen; eauto with framed|].
  destruct (x =? Tag.TAG_ADD_SOURCE); [apply Hthen; exact HNS|].
  destruct ((x =? Tag.TAG_SRC_JSON) || (x =? Tag.TAG_SRC_PACKET)).
  { intros s Hs.
    pose proof (readFrameHeader_framed picojson_parse HP s Hs) as Hst.
    destruct (readFrameHeader picojson_parse s) as [fi s1| | | |] eqn:Hrun;
      simpl in *; auto.
    split; [exact Hst|]. intros _.
    destruct (readFrameHeader_result _ _ _ Hrun) as (Hs1 & Hc1 & Hsrc & Hseq).
    rewrite Hs1. split; [exact Hsrc|].
    destruct Hs as (_ & Hreg & _). rewrite (Hreg _ Hsrc) in Hseq. congruence. }
  destruct (x =? Tag.TAG_PANGO_STATS); [apply Hthen; eauto with framed|].
  destruct ((x =? Tag.TAG_PANGO_FOOTER) || (x =? Tag.TAG_END)); [exact Hnone|].
  destruct (x =? Tag.TAG_PANGO_HDR); [apply Hthen; eauto with framed|].
  destruct (x =? Tag.TAG_PANGO_MAGIC); [apply Hthen; eauto with framed|].
  eapply hoare_bind; [apply hoare_stable; eauto with framed|]. intros ?.
  apply Hthen. eauto with framed.
Qed.

(** One dispatch: the frame found has its source's count for sequence
    number, and that source's counter, and no other, moves on by one. *)
Lemma NextFrame_dispatch_counted c fuel s fi s1 :
  counted c s →
  NextFrame_dispatch picojson_parse fuel s = Ret fi s1 →
  if FrameInfo.to_bool fi
  then FrameInfo.sequence_num fi = wrap64 (Z.of_nat (c (FrameInfo.src fi))) ∧
       counted (one_more (FrameInfo.src fi) c) s1
  else counted c s1.
Proof.
  intros Hs H. unfold NextFrame_dispatch in H.
  bind_inv H as fi0 sa Ra.
  pose proof (hoare_Ret _ _ _ _ _ _ (_nextFrame_counted c fuel) Hs Ra) as [Hsa Hfi].
  destruct (FrameInfo.to_bool fi0) eqn:Hb; simpl in H.
  2:{ injection H as <- <-. rewrite Hb. exact Hsa. }
  destruct (Hfi eq_refl) as [Hsrc Hseq].
  bind_inv H as cnt sb Rb. injection Rb as <- <-.
  destruct (vec_at (_next_packet_framenum sa) (FrameInfo.src fi0)) as [k|] eqn:Hk;
    [|discriminate].
  bind_inv H as u sc Rc. injection Rc as _ <-.
  set (c' := one_more (FrameInfo.src fi0) c).
  assert (Hsc : counted c'
            (set_next_packet_framenum
               (vec_set (_next_packet_framenum sa) (FrameInfo.src fi0) (wrap64 (k + 1)))
               sa)).
  { destruct Hsa as (Hno & Hreg & Hun). split; [exact Hno|]. split; simpl.
    - intros x Hx. subst c'. unfold one_more. destruct (decide (x = FrameInfo.src fi0)) as [->|Hne].
      + rewrite vec_at_set_eq by (apply vec_at_Some in Hk; lia).
        rewrite (Hreg _ Hsrc) in Hk. injection Hk as <-.
        rewrite wrap64_succ. f_equal. f_equal. lia.
      + rewrite vec_at_set_ne by congruence. apply Hreg, Hx.
    - intros x Hx. subst c'. unfold one_more.
      destruct (decide (x = FrameInfo.src fi0)) as [->|Hne]; [contradiction|].
      apply Hun, Hx. }
  pose proof (counted_frameable c') as HP'.
  assert (Hrest : counted c' s1 ∧ fi = fi0).
  { bind_inv H as seekable sd Rd. injection Rd as <- <-.
    bind_inv H as u1 se Re.
    assert (Hse : counted c' se).
    { eapply stable_Ret; [|exact Hsc|exact Re]. framed_with HP'. }
    bind_inv H as u2 sf Rf. injection Rf as _ <-. injection H as <- <-.
    split; [|reflexivity]. apply (fr_stream _ HP'); [exact Hse | reflexivity]. }
  destruct Hrest as [Hs1 ->]. rewrite Hb. split; [exact Hseq | exact Hs1].
Qed.

Lemma payload_step_counted c s s1 : payload_step s s1 → counted c s → counted c s1.
Proof.
  pose proof (counted_frameable c) as HP.
  intros Hstep Hs. destruct Hstep as [len s n s' H|len s bs s' H|len s n s' H|s s' H|s s' H];
    (eapply stable_Ret; [|exact Hs|exact H]).
  - framed_with HP.
  - unfold ReadRaw. framed_with HP.
  - unfold Skip. framed_with HP.
  - auto with framed.
  - auto with framed.
Qed.

(** After [Open], every registered source has its counter at 0. *)
Lemma stream_open_counters c filename : stable (counters_agree c) (stream_open filename).
Proof. intros s Hs. unfold stream_open. repeat case_match; exact Hs. Qed.

Lemma check_magic_counters c magic : stable (counters_agree c) (check_magic magic).
Proof.
  pose proof (counters_agree_frameable c) as HP.
  induction magic as [|i rest IH]; simpl; framed_with HP.
Qed.

Lemma ParseFooter_counters c : stable (counters_agree c) ParseFooter.
Proof.
  pose proof (counters_agree_frameable c) as HP. unfold ParseFooter. framed_with HP.
Qed.

Lemma SetupIndex_counters c : stable (counters_agree c) (SetupIndex picojson_parse).
Proof.
  pose proof (counters_agree_frameable c) as HP.
  pose proof (ParseFooter_counters c).
  unfold SetupIndex.
  repeat first
    [ stable_step | assumption | solve [eauto with framed] | framed_leaf HP
    | apply stable_upd_stream; intros ? Hs; exact Hs ].
Qed.

Lemma parse_leading_sources_counters c fuel :
  stable (counters_agree c) (parse_leading_sources picojson_parse fuel).
Proof.
  pose proof (counters_agree_frameable c) as HP.
  pose proof (ParseNewSource_counters c).
  induction fuel as [|f IH]; simpl;
    repeat first [stable_step | assumption | framed_leaf HP].
Qed.

Lemma Open_counters fuel filename s0 s :
  Open picojson_parse fuel filename s0 = Ret tt s →
  counters_agree (λ _, 0%nat) s.
Proof.
  intros H. unfold Open in H.
  apply lock_guard_Ret_inv in H as (s1 & n & H & _ & ->).
  bind_inv H as u sa Ra. rewrite Close_spec in Ra. injection Ra as _ <-.
  match type of H with _ ?s = _ =>
    assert (Hs : counters_agree (λ _, 0%nat) s)
  end.
  { split; intros x Hx; [|reflexivity].
    destruct (negb (_pipe_fd _ =? -1)); simpl in Hx; lia. }
  pose proof (counters_agree_frameable (λ _, 0%nat)) as HP.
  eapply (fr_mutex _ HP). eapply stable_Ret; [|exact Hs|exact H].
  pose proof (stream_open_counters (λ _, 0%nat) filename).
  pose proof (check_magic_counters (λ _, 0%nat) Tag.PANGO_MAGIC).
  pose proof (SetupIndex_counters (λ _, 0%nat)).
  pose proof (parse_leading_sources_counters (λ _, 0%nat) fuel).
  repeat first
    [ stable_step | assumption | solve [eauto with framed]
    | apply stable_modify; intros ? Hs'; exact Hs' ].
Qed.

Lemma map_seq_shift {A} (f : nat → A) a n :
  map (λ k, f (S k)) (seq a n) = map f (seq (S a) n).
Proof. revert a. induction n as [|n IH]; intros a; simpl; [|rewrite IH]; reflexivity. Qed.

Lemma counted_ext c c' s : (∀ x, c x = c' x) → counted c s → counted c' s.
Proof.
  intros Hc (Hno & Hreg & Hun). split; [exact Hno|]. split; intros x Hx.
  - rewrite <- Hc. apply Hreg, Hx.
  - rewrite <- Hc. apply Hun, Hx.
Qed.

(** Along a run, the frames of each source carry its count, one after the
    other, and the counters end at the counts. *)
Lemma reads_counted c s fis s' :
  reads picojson_parse s fis s' → counted c s →
  (∀ x, map FrameInfo.sequence_num (frames_of x fis)
        = map (λ k, wrap64 (Z.of_nat (c x + k))) (seq 0 (length (frames_of x fis)))) ∧
  counted (λ x, (c x + length (frames_of x fis))%nat) s'.
Proof.
  intros Hreads. revert c.
  induction Hreads as [s|fuel s fi s1 fis s2 Hd Hb _ IH|fuel s fi s1 fis s2 Hd Hb _ IH
                       |s s1 fis s2 Hstep _ IH]; intros c Hs.
  - split; [reflexivity|]. eapply counted_ext; [|exact Hs]. intros x. simpl. lia.
  - pose proof (NextFrame_dispatch_counted c fuel s fi s1 Hs Hd) as Hdisp.
    rewrite Hb in Hdisp. destruct Hdisp as [Hseq Hs1].
    destruct (IH _ Hs1) as [IHseq IHcnt]. split.
    + intros x. unfold frames_of in *. rewrite filter_cons.
      specialize (IHseq x). unfold one_more in IHseq.
      destruct (decide (FrameInfo.src fi = x)) as [<-|Hne].
      * destruct (decide (FrameInfo.src fi = FrameInfo.src fi)); [|contradiction].
        simpl. rewrite Hseq, IHseq. f_equal; [f_equal; lia|].
        rewrite <- map_seq_shift. apply map_ext. intros k. f_equal. lia.
      * destruct (decide (x = FrameInfo.src fi)); [congruence|]. exact IHseq.
    + eapply counted_ext; [|exact IHcnt]. intros x. unfold frames_of, one_more.
      rewrite filter_cons.
      destruct (decide (FrameInfo.src fi = x)), (decide (x = FrameInfo.src fi));
        simpl; try congruence; lia.
  - pose proof (NextFrame_dispatch_counted c fuel s fi s1 Hs Hd) as Hdisp.
    rewrite Hb in Hdisp. apply IH, Hdisp.
  - apply IH. eapply payload_step_counted; [exact Hstep | exact Hs].
Qed.

(** C2: open a stream and read on in any way the reader allows.  Of the
    frames dispatched, those of each source carry the sequence numbers
    0, 1, 2, ... in order (as 64-bit words), whatever frames of other sources
    come between, and the source's counter ends at their number: it moved on
    by one per dispatched frame.  The medium is one that is not re-opened: a
    file, or a pipe with nothing further pending. *)
Theorem sequence_numbers_count_frames_of_each_source fuel filename s0 s fis s' x :
  Open picojson_parse fuel filename s0 = Ret tt s →
  no_reopen s →
  reads picojson_parse s fis s' →
  map FrameInfo.sequence_num (frames_of x fis)
  = map (λ k, wrap64 (Z.of_nat k)) (seq 0 (length (frames_of x fis)))
  ∧ (0 ≤ x < Z.of_nat (length (_sources s')) →
     vec_at (_next_packet_framenum s') x
     = Some (wrap64 (Z.of_nat (length (frames_of x fis))))).
Proof.
  intros Hopen Hno Hreads.
  assert (Hs : counted (λ _, 0%nat) s) by (split; [exact Hno | eapply Open_counters, Hopen]).
  destruct (reads_counted _ _ _ _ Hreads Hs) as [Hseq (_ & Hreg & _)].
  split; [apply Hseq | apply Hreg].
Qed.

End Counting.

Lemma read_all_S n s :
  Sample.read_all (S n) s
  = match NextFrame_dispatch Json.parse 10 s with
    | Ret fi s1 =>
        if FrameInfo.to_bool fi then
          match on_stream (PacketStream.skip (FrameInfo.size fi)) s1 with
          | Ret _ s2 => let '(fis, s3) := Sample.read_all n s2 in (fi :: fis, s3)
          | _ => ([fi], s1)
          end
        else ([], s1)
    | _ => ([], s)
    end.
Proof. reflexivity. Qed.

(** The sample client's run is a run. *)
Lemma read_all_reads n s :
  reads Json.parse s (Sample.read_all n s).1 (Sample.read_all n s).2.
Proof.
  revert s. induction n as [|n IH]; intros s; [constructor|].
  rewrite read_all_S.
  destruct (NextFrame_dispatch Json.parse 10 s) as [fi s1| | | |] eqn:Hd;
    try constructor.
  destruct (FrameInfo.to_bool fi) eqn:Hb.
  - destruct (on_stream (PacketStream.skip (FrameInfo.size fi)) s1)
      as [m s2| | | |] eqn:Hk;
      try (eapply reads_frame; [exact Hd | exact Hb | constructor]).
    specialize (IH s2). destruct (Sample.read_all n s2) as [fis s3]. simpl in *.
    eapply reads_frame; [exact Hd | exact Hb |].
    eapply reads_payload; [eapply step_stream_skip, Hk | exact IH].
  - eapply reads_none; [exact Hd | exact Hb | constructor].
Qed.

(** The interleaved stream, read to its end: five frames, two of source 0
    and three of source 1, each source numbered from 0. *)
Lemma sequence_numbers_witness :
  let run := Sample.read_all 8 (Sample.opened Sample.interleaved) in
  map FrameInfo.src run.1 = [0; 1; 1; 0; 1] ∧
  map FrameInfo.sequence_num run.1 = [0; 0; 1; 1; 2] ∧
  map FrameInfo.sequence_num (frames_of 1 run.1)
  = map (λ k, wrap64 (Z.of_nat k)) (seq 0 (length (frames_of 1 run.1))) ∧
  length (frames_of 1 run.1) = 3%nat.
Proof.
  intros run.
  split; [vm_compute; reflexivity|].
  split; [vm_compute; reflexivity|].
  split; [|vm_compute; reflexivity].
  refine (proj1 (sequence_numbers_count_frames_of_each_source Json.parse 10 Sample.path
                   (new_reader (Sample.file_world Sample.interleaved))
                   (Sample.opened Sample.interleaved) run.1 run.2 1 _ _ _)).
  - vm_compute; reflexivity.
  - left. vm_compute; reflexivity.
  - apply read_all_reads.
Defined.

(** ** The look-ahead tag and the bytes behind it *)

Module TagFacts.

Import PacketStream.

Lemma byte_val_range b : 0 ≤ byte_val b < 256.
Proof.
  unfold byte_val. pose proof (Byte.to_N_bounded b) as H. lia.
Qed.

Lemma lor_shiftl_8 a r :
  0 ≤ a < 256 → 0 ≤ r → Z.lor a (Z.shiftl r 8) = a + 256 * r.
Proof.
  intros Ha Hr. rewrite Z.shiftl_mul_pow2 by lia.
  assert (Hland : Z.land a (r * 2 ^ 8) = 0).
  { apply Z.bits_inj'. intros n Hn. rewrite Z.land_spec, Z.bits_0.
    destruct (Z.lt_ge_cases n 8).
    - rewrite (Z.mul_pow2_bits_low r 8 n) by lia. apply andb_false_r.
    - rewrite (Z.bits_above_log2 a n); [reflexivity | lia |].
      destruct (Z.eq_dec a 0) as [->|]; [simpl; lia|].
      apply Z.lt_le_trans with 8; [|lia].
      apply Z.log2_lt_pow2; [lia|]. simpl. lia. }
  pose proof (Z.add_lor_land a (r * 2 ^ 8)) as Hadd. rewrite Hland in Hadd.
  change (2 ^ 8) with 256 in *. lia.
Qed.

Lemma le_value_nonneg l : 0 ≤ le_value l.
Proof.
  induction l as [|b l IH]; simpl; [lia|].
  pose proof (byte_val_range b). rewrite lor_shiftl_8 by lia. lia.
Qed.

Lemma le_value_3 a b c :
  le_value [a; b; c] = byte_val a + 256 * (byte_val b + 256 * byte_val c).
Proof.
  pose proof (byte_val_range a). pose proof (byte_val_range b).
  pose proof (byte_val_range c). simpl.
  rewrite (lor_shiftl_8 (byte_val c) 0) by lia.
  rewrite (lor_shiftl_8 (byte_val b)) by lia.
  rewrite (lor_shiftl_8 (byte_val a)) by lia. lia.
Qed.

Lemma pack_3 b1 b2 c :
  0 ≤ b1 < 256 → 0 ≤ b2 < 256 → 0 ≤ c < 256 →
  Z.lor (Z.lor (Z.shiftl c 16) (Z.shiftl b2 8)) b1 = b1 + 256 * (b2 + 256 * c).
Proof.
  intros H1 H2 Hc.
  replace (Z.shiftl c 16) with (Z.shiftl (Z.shiftl c 8) 8)
    by (rewrite Z.shiftl_shiftl by lia; reflexivity).
  rewrite <- Z.shiftl_lor. rewrite (Z.lor_comm _ b1), (Z.lor_comm _ b2).
  rewrite (lor_shiftl_8 b2) by lia.
  rewrite lor_shiftl_8 by lia. lia.
Qed.

(** The bytes a good read of a tag takes. *)
Lemma base_read_3_good st bs st' :
  base_read 3 st = (bs, st') → good st' = true →
  is_open st = true ∧ good st = true ∧
  0 ≤ gpos st ∧ gpos st + 3 ≤ size st ∧
  bs = take 3 (drop (Z.to_nat (gpos st)) (content st)) ∧ length bs = 3%nat ∧
  st' = set_gpos (gpos st + 3) st.
Proof.
  unfold base_read. destruct (is_open st) eqn:Ho, (good st) eqn:Hg; simpl;
    try (intros [= <- <-]; simpl; rewrite ?Hg; discriminate).
  set (avail := remaining st).
  destruct (Z.ltb_spec (Z.of_nat (length (take (Z.to_nat (Z.min 3 (Z.of_nat (length avail)))) avail))) 3)
    as [Hlt|Hge]; intros [= <- <-]; simpl; [discriminate|]. intros _.
  rewrite length_take in Hge.
  assert (Hav : (3 ≤ length avail)%nat) by lia.
  subst avail. unfold remaining in *.
  destruct (Z.leb_spec 0 (gpos st)), (Z.ltb_spec (gpos st) (size st)); simpl in *;
    try lia.
  rewrite length_drop in Hav. unfold size in *.
  replace (Z.to_nat (Z.min 3 (Z.of_nat (length (drop (Z.to_nat (gpos st)) (content st))))))
    with 3%nat by (rewrite length_drop; lia).
  repeat split; try lia.
  - rewrite length_take, length_drop. lia.
  - rewrite length_take, length_drop.
    replace (Z.of_nat (3 `min` (length (content st) - Z.to_nat (gpos st)))) with 3 by lia.
    reflexivity.
Qed.

Lemma tag0_tidy st : _tag st = 0 → _data_len st = 0 → tidy st.
Proof. intros Ht Hd. split; [exact Hd|]. intros _ Hne. contradiction. Qed.

(** What [peekTag] returns on a good stream is spelled behind the cursor. *)
Lemma peekTag_spelled st x st1 :
  tidy st → peekTag st = (x, st1) → good st1 = true →
  is_open st1 = true → spelled st1 x ∧ _tag st1 = x ∧ _data_len st1 = 0
  ∧ good st = true.
Proof.
  intros [Hd Hcoh] Hp Hg Ho. unfold peekTag in Hp.
  destruct (Z.eqb_spec (_tag st) 0) as [Ht|Ht].
  - destruct (base_read Tag.TAG_LENGTH st) as [bs st'] eqn:Hr.
    injection Hp as <- <-. simpl in Hg, Ho. rewrite Hg.
    destruct (base_read_3_good _ _ _ Hr Hg) as (_ & Hg0 & Hlo & Hhi & Hbs & Hlen & ->).
    simpl. split; [|auto].
    unfold spelled, size in *. simpl. split; [lia|].
    rewrite Hbs. replace (Z.to_nat (gpos st + 3 - 3)) with (Z.to_nat (gpos st)) by lia.
    reflexivity.
  - injection Hp as <- <-. repeat split; auto; apply Hcoh; auto.
Qed.

Lemma peekTag_tidy st : is_open st = true → tidy st → tidy (peekTag st).2.
Proof.
  intros Ho Hst. destruct (peekTag st) as [x st1] eqn:Hp. simpl.
  assert (Ho1 : is_open st1 = true).
  { pose proof (StreamFacts.peekTag_medium st) as Hm. rewrite Hp in Hm.
    unfold medium in Hm. simpl in Hm. congruence. }
  destruct (good st1) eqn:Hg.
  - destruct (peekTag_spelled _ _ _ Hst Hp Hg Ho1) as (Hsp & Ht & Hd & _).
    split; [exact Hd|]. intros _ _. rewrite Ht. exact Hsp.
  - split; [|rewrite Hg; discriminate].
    destruct Hst as [Hd _]. unfold peekTag in Hp.
    destruct (_tag st =? 0); [|injection Hp as _ <-; exact Hd].
    pose proof (base_read_spec Tag.TAG_LENGTH st) as Hspec.
    destruct (base_read Tag.TAG_LENGTH st) as [bs st']. injection Hp as _ <-.
    simpl. destruct Hspec as (_ & _ & _ & -> & _). exact Hd.
Qed.

(** A tag that is spelled behind the cursor is the one a peek finds after a
    seek to where it starts. *)
Lemma peekTag_after_seekg st :
  seekable st = true → good st = true → _data_len st = 0 →
  spelled st (_tag st) →
  peekTag (seekg (gpos st - 3) st) = (_tag st, st).
Proof.
  intros Hseek Hg Hd [[Hlo Hhi] Hx].
  assert (Ho : is_open st = true).
  { unfold seekable in Hseek. destruct (is_open st); [reflexivity | discriminate]. }
  destruct st as [c o g gd t d p]. simpl in *. subst o gd d.
  unfold seekg. rewrite Hseek.
  unfold base_seekg, cclear. simpl.
  destruct (Z.ltb_spec (g - 3) 0); [lia|].
  unfold peekTag. simpl.
  destruct (base_read Tag.TAG_LENGTH _) as [bs st'] eqn:Hr.
  unfold base_read in Hr. simpl in Hr.
  unfold remaining, size in Hr. simpl in Hr. unfold size in Hhi. simpl in Hhi.
  destruct (Z.leb_spec 0 (g - 3)); [|lia].
  destruct (Z.ltb_spec (g - 3) (Z.of_nat (length c))); [|lia].
  simpl in Hr. rewrite length_take, length_drop in Hr.
  unfold Tag.TAG_LENGTH in Hr.
  replace (Z.to_nat (Z.min 3 (Z.of_nat (length c - Z.to_nat (g - 3)))))
    with 3%nat in Hr by lia.
  replace (3 `min` (length c - Z.to_nat (g - 3)))%nat with 3%nat in Hr by lia.
  simpl in Hr. injection Hr as <- <-. simpl. rewrite <- Hx.
  unfold set_tag, set_gpos; simpl. do 2 f_equal. lia.
Qed.

Lemma clean_tidy st : clean st → tidy st.
Proof. intros [Ht Hd]. apply tag0_tidy; assumption. Qed.

Lemma tidy_data_len st : tidy st → _data_len st = 0.
Proof. intros [Hd _]. exact Hd. Qed.

(** *** Reads leave no look-ahead *)

Lemma peekTag_data_len st : _data_len (peekTag st).2 = _data_len st.
Proof.
  unfold peekTag. destruct (_tag st =? 0); [|reflexivity].
  pose proof (base_read_spec Tag.TAG_LENGTH st) as Hspec.
  destruct (base_read Tag.TAG_LENGTH st) as [bs st']. simpl.
  destruct Hspec as (_ & _ & _ & Hd & _). exact Hd.
Qed.

Lemma readTag_clean st : _data_len st = 0 → clean (readTag st).2.
Proof.
  intros Hd. unfold readTag. pose proof (peekTag_data_len st) as Hp.
  destruct (peekTag st) as [x st1]. simpl in *. split; simpl; congruence.
Qed.

Lemma readTag_expect_clean x st : _data_len st = 0 → clean (readTag_expect x st).2.
Proof.
  intros Hd. unfold readTag_expect. pose proof (readTag_clean st Hd) as Hc.
  destruct (readTag st) as [r st1]. destruct (r =? x); exact Hc.
Qed.

Lemma get_clean st : _data_len st = 0 → clean (get st).2.
Proof.
  intros Hd. unfold get, base_get.
  pose proof (base_read_spec 1 (set_tag 0 st)) as Hspec.
  destruct (base_read 1 (set_tag 0 st)) as [[|b bs] st'];
    destruct Hspec as (_ & _ & _ & Hd' & Ht'); simpl in *; split; congruence.
Qed.

Lemma readTimestamp_clean st : _data_len st = 0 → clean (readTimestamp st).2.
Proof.
  intros Hd. unfold readTimestamp.
  pose proof (base_read_spec 8 (set_tag 0 st)) as Hspec.
  destruct (base_read 8 (set_tag 0 st)) as [bs st'].
  destruct Hspec as (_ & _ & _ & Hd' & Ht'); simpl in *; split; congruence.
Qed.

Lemma readUINT_clean st : _data_len st = 0 → clean (readUINT st).2.
Proof.
  intros Hd. unfold readUINT. repeat case_match; split; simpl; auto.
Qed.

(** Skipping all that is left of the window leaves none. *)
Lemma skip_clean len st : _data_len st ≤ len → clean (skip len st).2.
Proof.
  intros Hd. unfold skip. simpl.
  assert (H1 : ∀ st1, _tag st1 = 0 → _data_len st1 = _data_len st →
             clean (set_data_len (Z.max 0 (_data_len st1 - len)) st1)).
  { intros st1 Ht Hl. split; simpl; [exact Ht | lia]. }
  destruct (seekable (set_tag 0 st)).
  - apply H1; unfold base_seekg; repeat case_match; reflexivity.
  - apply H1; unfold base_ignore; repeat case_match; reflexivity.
Qed.

(** *** A stream that is good after a read was good before it *)

Lemma base_read_good n st : good (base_read n st).2 = true → good st = true.
Proof.
  unfold base_read. destruct (is_open st), (good st); simpl;
    intros; try reflexivity; discriminate.
Qed.

Lemma peekTag_good_before st : good (peekTag st).2 = true → good st = true.
Proof.
  unfold peekTag. destruct (_tag st =? 0); [|auto].
  pose proof (base_read_good Tag.TAG_LENGTH st) as Hb.
  destruct (base_read Tag.TAG_LENGTH st) as [bs st']. exact Hb.
Qed.

Lemma readTag_good_before st : good (readTag st).2 = true → good st = true.
Proof.
  unfold readTag. pose proof (peekTag_good_before st) as Hb.
  destruct (peekTag st) as [x st1]. exact Hb.
Qed.

Lemma readTag_expect_good_before x st :
  good (readTag_expect x st).2 = true → good st = true.
Proof.
  unfold readTag_expect. pose proof (readTag_good_before st) as Hb.
  destruct (readTag st) as [r st1]. destruct (r =? x); exact Hb.
Qed.

Lemma readTimestamp_good_before st :
  good (readTimestamp st).2 = true → good st = true.
Proof.
  unfold readTimestamp. pose proof (base_read_good 8 (set_tag 0 st)) as Hb.
  destruct (base_read 8 (set_tag 0 st)) as [bs st']. exact Hb.
Qed.

Lemma readUINT_good_before st : good (readUINT st).2 = true → good st = true.
Proof.
  unfold readUINT. simpl. destruct (is_open st), (good st); simpl;
    intros; try reflexivity; try discriminate.
Qed.

(** *** Resynchronisation keeps the look-ahead spelled *)

Lemma byte_of_word a b c :
  0 ≤ a < 256 → 0 ≤ b < 256 → 0 ≤ c < 256 →
  Z.land (Z.shiftr (a + 256 * (b + 256 * c)) 8) 255 = b ∧
  Z.land (Z.shiftr (a + 256 * (b + 256 * c)) 16) 255 = c.
Proof.
  intros Ha Hb Hc. rewrite !Z.shiftr_div_pow2 by lia.
  change 255 with (Z.ones 8). rewrite !Z.land_ones by lia.
  change (2 ^ 8) with 256. change (2 ^ 16) with 65536.
  assert (H1 : (a + 256 * (b + 256 * c)) / 256 = b + 256 * c)
    by (symmetry; apply (Z.div_unique _ 256 _ a); lia).
  assert (H2 : (a + 256 * (b + 256 * c)) / 65536 = c)
    by (symmetry; apply (Z.div_unique _ 65536 _ (a + 256 * b)); lia).
  rewrite H1, H2. split.
  - symmetry. apply (Z.mod_unique _ 256 c b); lia.
  - apply Z.mod_small. lia.
Qed.

Lemma sync_scan_spelled l : ∀ pre c1 c2 k x k',
  sync_scan l (byte_val c1) (byte_val c2) k = Some (x, k') →
  ∃ j, k' = (k + j)%nat ∧ (1 ≤ j ≤ length l)%nat ∧
       x = le_value (take 3 (drop (length pre + (j - 1)) (pre ++ c1 :: c2 :: l))).
Proof.
  induction l as [|c l IH]; intros pre c1 c2 k x k' H; simpl in H; [discriminate|].
  destruct (Tag.valid _) eqn:Hv.
  - injection H as <- <-. exists 1%nat. simpl. split; [lia|]. split; [lia|].
    rewrite Nat.add_0_r, drop_app_length.
    change (take 3 (c1 :: c2 :: c :: l)) with [c1; c2; c].
    rewrite le_value_3. apply pack_3; apply byte_val_range.
  - destruct (IH (pre ++ [c1]) c2 c (S k) x k' H) as (j & -> & Hj & Hx).
    exists (S j). split; [lia|]. split; [simpl; lia|].
    rewrite Hx. rewrite <- app_assoc. simpl. rewrite length_app. simpl.
    do 3 f_equal. lia.
Qed.

Lemma spelled_split st x :
  spelled st x →
  ∃ a c1 c2,
    content st = take (Z.to_nat (gpos st - 3)) (content st) ++ [a]
                 ++ c1 :: c2 :: drop (Z.to_nat (gpos st)) (content st) ∧
    x = byte_val a + 256 * (byte_val c1 + 256 * byte_val c2).
Proof.
  intros [[Hlo Hhi] Hx]. unfold size in Hhi.
  set (n := Z.to_nat (gpos st - 3)) in *.
  assert (Hlen : (3 ≤ length (drop n (content st)))%nat) by (rewrite length_drop; lia).
  assert (Hd : drop (Z.to_nat (gpos st)) (content st) = drop 3 (drop n (content st))).
  { rewrite drop_drop. f_equal. lia. }
  destruct (drop n (content st)) as [|a [|c1 [|c2 rest]]] eqn:Hdrop;
    simpl in Hlen; try lia.
  exists a, c1, c2. split.
  - rewrite Hd. simpl. rewrite drop_0. rewrite <- Hdrop. symmetry. apply take_drop.
  - rewrite Hx. change (take 3 (a :: c1 :: c2 :: rest)) with [a; c1; c2].
    apply le_value_3.
Qed.

Lemma syncToTag_tidy st : is_open st = true → tidy st → tidy (syncToTag st).2.
Proof.
  intros Ho Hst. unfold syncToTag.
  destruct (peekTag st) as [x0 st0] eqn:Hp.
  assert (Ho0 : is_open st0 = true).
  { pose proof (StreamFacts.peekTag_medium st) as Hm. rewrite Hp in Hm.
    unfold medium in Hm. simpl in Hm. congruence. }
  assert (Hd0 : _data_len st0 = 0).
  { pose proof (peekTag_data_len st) as Hd. rewrite Hp in Hd. simpl in Hd.
    rewrite Hd. apply Hst. }
  rewrite Ho0. simpl. destruct (good st0) eqn:Hg0.
  2:{ split; simpl; [exact Hd0|]. rewrite Hg0. discriminate. }
  destruct (peekTag_spelled _ _ _ Hst Hp Hg0 Ho0) as (Hsp & _ & _ & _).
  destruct (spelled_split _ _ Hsp) as (a & c1 & c2 & Hc & Hx0).
  destruct Hsp as [[Hlo Hhi] _]. unfold size in Hhi.
  pose proof (byte_val_range a). pose proof (byte_val_range c1).
  pose proof (byte_val_range c2).
  destruct (byte_of_word (byte_val a) (byte_val c1) (byte_val c2)) as [Hb1 Hb2];
    try lia.
  rewrite Hx0, Hb1, Hb2.
  assert (Hrem : remaining st0 = drop (Z.to_nat (gpos st0)) (content st0)).
  { unfold remaining, size.
    destruct (Z.leb_spec 0 (gpos st0)); [|lia].
    destruct (Z.ltb_spec (gpos st0) (Z.of_nat (length (content st0)))); simpl;
      [reflexivity|].
    symmetry. apply drop_ge. lia. }
  rewrite Hrem.
  destruct (sync_scan _ _ _ _) as [[x k]|] eqn:Hscan.
  2:{ split; simpl; [exact Hd0 | discriminate]. }
  simpl. split; simpl; [exact Hd0|]. intros _ _.
  apply (sync_scan_spelled _ (take (Z.to_nat (gpos st0 - 3)) (content st0) ++ [a]))
    in Hscan as (j & -> & Hj & Hx).
  rewrite length_drop in Hj.
  rewrite <- app_assoc, <- Hc in Hx. rewrite length_app, length_take in Hx.
  simpl in Hx. unfold spelled, size. simpl. split; [lia|].
  rewrite Hx. do 3 f_equal. lia.
Qed.

End TagFacts.

(** ** A file session between two records *)

Lemma on_stream_Ret_inv {A} (f : PacketStream.t → A * PacketStream.t) s a s' :
  on_stream f s = Ret a s' →
  f (_stream s) = (a, _stream s') ∧ s' = set_stream (_stream s') s.
Proof.
  unfold on_stream. destruct (f (_stream s)) as [a0 st]. intros [= <- <-].
  split; reflexivity.
Qed.

Lemma on_stream_run {A} (f : PacketStream.t → A * PacketStream.t) s a st :
  f (_stream s) = (a, st) → on_stream f s = Ret a (set_stream st s).
Proof. intros H. unfold on_stream. rewrite H. reflexivity. Qed.

Lemma hoare_on_stream {A} (P : PacketStreamReader → Prop)
    (Q : A → PacketStreamReader → Prop) (f : PacketStream.t → A * PacketStream.t) :
  (∀ s, P s → Q (f (_stream s)).1 (set_stream (f (_stream s)).2 s)) →
  hoare P (on_stream f) Q.
Proof.
  intros H s Hs. unfold on_stream. specialize (H s Hs).
  destruct (f (_stream s)); exact H.
Qed.

Lemma on_file_is_open s : on_file s → PacketStream.is_open (_stream s) = true.
Proof.
  intros [Hs _]. unfold PacketStream.seekable in Hs.
  destruct (PacketStream.is_open (_stream s)); [reflexivity | discriminate].
Qed.

Section Between.

Variable picojson_parse : list byte → option (json * nat).

(** A file session whose stream is clean. *)
Abbreviation fresh := (λ s, on_file s ∧ clean (_stream s)).

Lemma fresh_between s : fresh s → between_records s.
Proof. intros [Hf Hc]. split; [exact Hf | apply TagFacts.clean_tidy, Hc]. Qed.

Lemma on_file_set_stream s st :
  on_file s → PacketStream.medium st = PacketStream.medium (_stream s) →
  on_file (set_stream st s).
Proof. apply (fr_stream _ on_file_frameable). Qed.

Ltac fresh_stream lem :=
  apply stable_on_stream; intros ? [? [? ?]]; split;
    [ apply on_file_set_stream; [assumption | solve [auto with medium]]
    | apply lem; assumption ].

Lemma get_fresh : stable fresh (on_stream PacketStream.get).
Proof. fresh_stream TagFacts.get_clean. Qed.

Lemma readUINT_fresh : stable fresh (on_stream PacketStream.readUINT).
Proof. fresh_stream TagFacts.readUINT_clean. Qed.

Lemma readTimestamp_fresh : stable fresh (on_stream PacketStream.readTimestamp).
Proof. fresh_stream TagFacts.readTimestamp_clean. Qed.

Lemma parse_value_fresh : stable fresh (parse_value_from_stream picojson_parse).
Proof.
  intros s [Hf [Ht Hd]]. unfold parse_value_from_stream.
  repeat case_match; simpl; (split; [|split; simpl; assumption]);
    apply on_file_set_stream; auto.
Qed.

Lemma json_checked_fresh {A} (o : option A) : stable fresh (json_checked o).
Proof. destruct o; intros s Hs; exact Hs. Qed.

Lemma json_field_fresh j key : stable fresh (json_field j key).
Proof. apply json_checked_fresh. Qed.

Lemma pango_print_warn_fresh w : stable fresh (pango_print_warn w).
Proof. apply stable_modify. intros s Hs. exact Hs. Qed.

Lemma pango_print_warn_between w : stable between_records (pango_print_warn w).
Proof. apply stable_modify. intros s Hs. exact Hs. Qed.

Create HintDb between discriminated.

Hint Resolve get_fresh readUINT_fresh readTimestamp_fresh parse_value_fresh
  json_checked_fresh json_field_fresh pango_print_warn_fresh : between.

Ltac fresh_tac :=
  repeat first
    [ stable_step
    | solve [auto with between]
    | apply stable_modify; intros ? Hs; exact Hs ].

Lemma register_source_fresh pss : stable fresh (register_source pss).
Proof. unfold register_source. fresh_tac. Qed.

Lemma GetPacketIndex_fresh src_id : stable fresh (GetPacketIndex src_id).
Proof. unfold GetPacketIndex. fresh_tac. Qed.

Hint Resolve register_source_fresh GetPacketIndex_fresh : between.

(** Reading a tag takes the session from between two records into one. *)
Lemma readTag_expect_between x :
  hoare between_records (readTag_expect x) (λ _, fresh).
Proof.
  unfold readTag_expect. eapply hoare_bind.
  - apply hoare_on_stream with (Q := λ _, fresh). intros s [Hf [Hd _]]. split.
    + apply on_file_set_stream; auto with medium.
    + apply TagFacts.readTag_expect_clean, Hd.
  - intros [r|r]; intros s Hs; first [exact Hs | exact I].
Qed.

Lemma peekTag_between :
  stable between_records (on_stream PacketStream.peekTag).
Proof.
  apply stable_on_stream. intros s [Hf Ht]. split.
  - apply on_file_set_stream; auto with medium.
  - apply TagFacts.peekTag_tidy; [apply on_file_is_open, Hf | exact Ht].
Qed.

Lemma readTag_between :
  stable between_records (on_stream PacketStream.readTag).
Proof.
  apply stable_on_stream. intros s [Hf [Hd _]]. split.
  - apply on_file_set_stream; auto with medium.
  - apply TagFacts.clean_tidy, TagFacts.readTag_clean, Hd.
Qed.

Lemma get_between : stable between_records (on_stream PacketStream.get).
Proof.
  apply stable_on_stream. intros s [Hf [Hd _]]. split.
  - apply on_file_set_stream; auto with medium.
  - apply TagFacts.clean_tidy, TagFacts.get_clean, Hd.
Qed.

Lemma hoare_fresh_between {A} (m : M A) :
  stable fresh m → hoare fresh m (λ _, between_records).
Proof.
  intros Hm. eapply hoare_weaken; [apply hoare_stable, Hm|].
  intros ? s. apply fresh_between.
Qed.

(** A record parsed from its tag on leaves the session between two records. *)
Lemma record_between {A} (x : Z) (m : M A) :
  stable fresh m → hoare between_records (readTag_expect x;; m) (λ _, between_records).
Proof.
  intros Hm. eapply hoare_bind; [apply readTag_expect_between|].
  intros ?. apply hoare_fresh_between, Hm.
Qed.

Lemma ParseHeader_between :
  hoare between_records (ParseHeader picojson_parse) (λ _, between_records).
Proof. unfold ParseHeader. apply record_between. fresh_tac. Qed.

Lemma ParseNewSource_between :
  hoare between_records (ParseNewSource picojson_parse) (λ _, between_records).
Proof. unfold ParseNewSource. apply record_between. fresh_tac. Qed.

Lemma ParseIndex_between :
  hoare between_records (ParseIndex picojson_parse) (λ _, between_records).
Proof. unfold ParseIndex. apply record_between. fresh_tac. Qed.

Lemma skip_to_packet_between fuel : stable between_records (skip_to_packet fuel).
Proof.
  induction fuel as [|f IH]; simpl;
    repeat first [ stable_step | apply peekTag_between | apply readTag_between
                 | exact IH ].
Qed.

Lemma SkipSync_between fuel : stable between_records (SkipSync fuel).
Proof.
  unfold SkipSync.
  repeat first [ stable_step | apply get_between | apply skip_to_packet_between ].
Qed.

Lemma ReSync_between : stable between_records ReSync.
Proof.
  unfold ReSync. apply stable_bind; [|intros ?; apply stable_ret].
  apply stable_on_stream. intros s [Hf Ht]. split.
  - apply on_file_set_stream; auto with medium.
  - apply TagFacts.syncToTag_tidy; [apply on_file_is_open, Hf | exact Ht].
Qed.

(** On a file, [GoodToRead] is the stream's [good]. *)
Lemma GoodToRead_on_file_run fuel s :
  on_file s → GoodToRead picojson_parse fuel s = Ret (PacketStream.good (_stream s)) s.
Proof.
  intros [_ Hp]. unfold GoodToRead. mrun.
  destruct (PacketStream.good (_stream s)); simpl; [reflexivity|].
  rewrite Hp. reflexivity.
Qed.

(** *** Where the dispatcher lands *)

Lemma read_packet_header_fresh fpos src0 meta :
  hoare between_records (read_packet_header fpos src0 meta) (λ _, fresh).
Proof.
  unfold read_packet_header.
  eapply hoare_bind; [apply hoare_stable, stable_ask|]. intros ppos.
  eapply hoare_bind; [apply readTag_expect_between|]. intros ?.
  apply hoare_stable. fresh_tac.
Qed.

Lemma readFrameHeader_fresh :
  hoare between_records (readFrameHeader picojson_parse) (λ _, fresh).
Proof.
  unfold readFrameHeader.
  eapply hoare_bind; [apply hoare_stable, stable_ask|]. intros fpos.
  eapply hoare_bind; [apply hoare_stable, peekTag_between|]. intros x.
  eapply hoare_bind with (Q := λ _, between_records).
  - destruct (x =? Tag.TAG_SRC_JSON).
    + apply record_between. fresh_tac.
    + apply hoare_mret. auto.
  - intros [src0 meta]. apply read_packet_header_fresh.
Qed.

Lemma GoodToRead_between fuel :
  hoare between_records (GoodToRead picojson_parse fuel) (λ _, between_records).
Proof.
  intros s Hs. rewrite GoodToRead_on_file_run by apply Hs. exact Hs.
Qed.

(** The dispatcher stops between two records, and the frame it returns is
    one whose header it parsed from between two records. *)
Lemma _nextFrame_lands fuel :
  hoare between_records (_nextFrame picojson_parse fuel)
    (λ fi s1,
       between_records s1 ∧
       (FrameInfo.to_bool fi = true →
        ∃ sA, between_records sA ∧ readFrameHeader picojson_parse sA = Ret fi s1)).
Proof.
  induction fuel as [|f IH]; [intros s Hs; exact I|].
  set (Q := λ (fi : FrameInfo.t) (s1 : PacketStreamReader),
         between_records s1 ∧
         (FrameInfo.to_bool fi = true →
          ∃ sA, between_records sA ∧ readFrameHeader picojson_parse sA = Ret fi s1))
    in *.
  assert (Hnone : hoare between_records (mret FrameInfo.none) Q).
  { apply hoare_mret. intros s Hs. split; [exact Hs|]. discriminate. }
  assert (Hthen : ∀ m : M unit,
            hoare between_records m (λ _, between_records) →
            hoare between_records (m;; _nextFrame picojson_parse f) Q).
  { intros m Hm. eapply hoare_bind; [exact Hm|]. intros ?. exact IH. }
  rewrite _nextFrame_S.
  eapply hoare_bind; [apply GoodToRead_between|].
  intros [|]; [|exact Hnone].
  eapply hoare_bind; [apply hoare_stable, peekTag_between|].
  intros x.
  destruct (x =? Tag.TAG_PANGO_SYNC);
    [apply Hthen, hoare_stable, SkipSync_between|].
  destruct (x =? Tag.TAG_ADD_SOURCE); [apply Hthen, ParseNewSource_between|].
  destruct ((x =? Tag.TAG_SRC_JSON) || (x =? Tag.TAG_SRC_PACKET)).
  { intros s Hs.
    destruct (readFrameHeader picojson_parse s) as [fi s1| | | |] eqn:Hrun;
      simpl; auto.
    split.
    - apply fresh_between.
      exact (hoare_Ret _ _ _ _ _ _ readFrameHeader_fresh Hs Hrun).
    - intros _. exists s. split; [exact Hs | exact Hrun]. }
  destruct (x =? Tag.TAG_PANGO_STATS); [apply Hthen, ParseIndex_between|].
  destruct ((x =? Tag.TAG_PANGO_FOOTER) || (x =? Tag.TAG_END)); [exact Hnone|].
  destruct (x =? Tag.TAG_PANGO_HDR); [apply Hthen, ParseHeader_between|].
  destruct (x =? Tag.TAG_PANGO_MAGIC);
    [apply Hthen, hoare_stable, SkipSync_between|].
  eapply hoare_bind; [apply hoare_stable, pango_print_warn_between|]. intros ?.
  apply Hthen, hoare_stable, ReSync_between.
Qed.

(** One dispatch leaves the session on the frame it found, or between two
    records when it found none. *)
Lemma NextFrame_dispatch_lands fuel :
  hoare between_records (NextFrame_dispatch picojson_parse fuel)
    (λ fi s1,
       if FrameInfo.to_bool fi
       then on_file s1 ∧ lands_on picojson_parse fi s1
       else between_records s1).
Proof.
  intros s Hs.
  destruct (NextFrame_dispatch picojson_parse fuel s) as [fi s1| | | |] eqn:H;
    simpl; auto.
  unfold NextFrame_dispatch in H. bind_inv H as fi0 sa Ra.
  pose proof (hoare_Ret _ _ _ _ _ _ (_nextFrame_lands fuel) Hs Ra) as [Hsa Hfi].
  destruct (FrameInfo.to_bool fi0) eqn:Hb; simpl in H.
  2:{ injection H as <- <-. rewrite Hb. exact Hsa. }
  destruct (Hfi eq_refl) as (sA & HsA & HrA).
  bind_inv H as cnt sb Rb. injection Rb as <- <-.
  destruct (vec_at (_next_packet_framenum sa) (FrameInfo.src fi0)) as [k|] eqn:Hk;
    [|discriminate].
  bind_inv H as u sc Rc. injection Rc as _ <-.
  bind_inv H as seekable sd Rd. injection Rd as <- <-.
  bind_inv H as u1 se Re.
  set (P := λ s' : PacketStreamReader,
         on_file s' ∧ _stream s' = _stream sa ∧ _sources s' = _sources sa).
  assert (Hse : P se).
  { eapply stable_Ret; [| |exact Re].
    - unfold index_position, PANGO_ENSURE, pango_print_warn.
      repeat first [stable_step | apply stable_modify; intros ? Hs'; exact Hs'].
    - split; [apply Hsa | split; reflexivity]. }
  destruct Hse as (Hf & Hst & Hsrc).
  bind_inv H as u2 sf Rf. injection Rf as _ <-. injection H as <- <-.
  rewrite Hb. split.
  - apply on_file_set_stream; [exact Hf | reflexivity].
  - exists sA, sa. simpl. rewrite Hst. auto.
Qed.

Lemma NextFrame_loop_S fuel src :
  NextFrame_loop picojson_parse (S fuel) src
  = (fi ← NextFrame_dispatch picojson_parse fuel;
     if negb (FrameInfo.to_bool fi) then Unlock;; mret fi
     else if FrameInfo.src fi =? src then mret fi
     else on_stream (PacketStream.skip (FrameInfo.size fi));;
          NextFrame_loop picojson_parse fuel src).
Proof. reflexivity. Qed.

Lemma NextFrame_loop_lands fuel src :
  hoare between_records (NextFrame_loop picojson_parse fuel src)
    (λ fi s1,
       FrameInfo.to_bool fi = true →
       on_file s1 ∧ lands_on picojson_parse fi s1 ∧ FrameInfo.src fi = src).
Proof.
  induction fuel as [|f IH]; [intros s Hs; exact I|].
  rewrite NextFrame_loop_S.
  eapply hoare_bind; [apply NextFrame_dispatch_lands|]. intros fi. cbv beta.
  destruct (FrameInfo.to_bool fi) eqn:Hb; simpl.
  2:{ intros s Hs. unfold mbind, M_bind, Unlock.
      destruct (_mutex s); simpl; [exact I|]. congruence. }
  destruct (Z.eqb_spec (FrameInfo.src fi) src) as [Hsrc|Hsrc].
  - apply hoare_mret. intros s [Hf Hl] _. auto.
  - eapply hoare_bind; [|intros ?; exact IH].
    apply hoare_on_stream with (Q := λ _, between_records).
    intros s [Hf (sA & sh & HsA & HrA & Hst & _)]. split.
    + apply on_file_set_stream; auto with medium.
    + apply TagFacts.clean_tidy, TagFacts.skip_clean. rewrite Hst. simpl. lia.
Qed.

(** [NextFrame] returns a frame only of the source asked for, and then with
    the session landed on it. *)
Lemma NextFrame_lands fuel src s fi s1 :
  between_records s →
  NextFrame picojson_parse fuel src s = Ret fi s1 →
  FrameInfo.to_bool fi = true →
  on_file s1 ∧ lands_on picojson_parse fi s1 ∧ FrameInfo.src fi = src.
Proof.
  intros Hs H Hb. unfold NextFrame in H.
  bind_inv H as u sa Ra. injection Ra as _ <-.
  unfold try_catch in H.
  destruct (NextFrame_loop picojson_parse fuel src _) as [fi' s'|e s'| | |] eqn:Hl;
    try discriminate.
  - injection H as <- <-.
    refine (hoare_Ret _ _ _ _ _ _ (NextFrame_loop_lands fuel src) _ Hl Hb).
    exact Hs.
  - unfold mbind, M_bind, Unlock in H. destruct (_mutex s'); discriminate.
Qed.

End Between.

(** ** Seeking back to a tag *)

Module Rewind.

Import PacketStream.

Lemma seekg_good q st :
  seekable st = true → good st = true → 0 ≤ q →
  seekg q st = mk (content st) (is_open st) q true 0 0 (_is_pipe st).
Proof.
  intros Hs Hg Hq. unfold seekg. rewrite Hs. unfold base_seekg, cclear. simpl.
  assert (Ho : is_open st = true).
  { unfold seekable in Hs. destruct (is_open st); [reflexivity | discriminate]. }
  rewrite Ho, Hg. simpl. destruct (Z.ltb_spec q 0); [lia|].
  unfold set_gpos. simpl. rewrite Ho, Hg. reflexivity.
Qed.

(** The seek depends on the stream it is made on only through the medium. *)
Lemma seekg_medium_eq q st st' :
  seekable st = true → good st = true → good st' = true → 0 ≤ q →
  medium st' = medium st → seekg q st' = seekg q st.
Proof.
  intros Hs Hg Hg' Hq Hm.
  rewrite (seekg_good q st Hs Hg Hq).
  rewrite (seekg_good q st'); [| rewrite (StreamFacts.seekable_medium _ _ Hm); exact Hs
                                | exact Hg' | exact Hq].
  unfold medium in Hm. injection Hm as -> -> ->. reflexivity.
Qed.

(** A stream that is good after a peek: where the tag starts, and that a
    peek made after seeking back to there is the same peek. *)
Lemma peekTag_rewound st x st1 :
  seekable st = true → tidy st → peekTag st = (x, st1) → good st1 = true →
  0 ≤ tellg st ∧
  peekTag (seekg (tellg st) st) = (x, st1) ∧
  tellg (seekg (tellg st) st) = tellg st ∧
  (x ≠ 0 → tellg st1 = tellg st ∧ peekTag st1 = (x, st1)).
Proof.
  intros Hs Hst Hp Hg1.
  assert (Ho : is_open st = true).
  { unfold seekable in Hs. destruct (is_open st); [reflexivity | discriminate]. }
  assert (Hg : good st = true).
  { apply TagFacts.peekTag_good_before. rewrite Hp. exact Hg1. }
  assert (Ho1 : is_open st1 = true).
  { pose proof (StreamFacts.peekTag_medium st) as Hm. rewrite Hp in Hm.
    unfold medium in Hm. simpl in Hm. congruence. }
  destruct (TagFacts.peekTag_spelled _ _ _ Hst Hp Hg1 Ho1) as (Hsp & Ht1 & Hd1 & _).
  assert (Hlast : x ≠ 0 → peekTag st1 = (x, st1)).
  { intros Hx. apply (peekTag_again _ _ _ Hp Hx). }
  assert (Htell1 : x ≠ 0 → tellg st1 = gpos st1 - 3).
  { intros Hx. unfold tellg, base_tellg. rewrite Ht1, Ho1, Hg1. simpl.
    destruct (Z.eqb_spec x 0); [contradiction | reflexivity]. }
  destruct Hst as [Hd Hcoh].
  unfold peekTag in Hp. destruct (Z.eqb_spec (_tag st) 0) as [Ht|Ht].
  - (* nothing was peeked: the seek is to where the stream is *)
    assert (Htell : tellg st = gpos st).
    { unfold tellg, base_tellg. rewrite Ht, Ho, Hg. reflexivity. }
    destruct (base_read Tag.TAG_LENGTH st) as [bs st'] eqn:Hr.
    injection Hp as Hx Hst1.
    assert (Hg' : good st' = true) by (rewrite <- Hst1 in Hg1; exact Hg1).
    destruct (TagFacts.base_read_3_good _ _ _ Hr Hg') as (_ & _ & Hlo & Hhi & Hbs & Hlen & Hst').
    rewrite Htell.
    assert (Hsame : seekg (gpos st) st = st).
    { rewrite seekg_good by (auto; lia). destruct st; simpl in *. congruence. }
    rewrite Hsame. split; [lia|]. split.
    { unfold peekTag. rewrite Ht. simpl. rewrite Hr. rewrite Hst1, Hx. reflexivity. }
    split; [exact Htell|].
    intros Hx0. split; [|exact (Hlast Hx0)].
    rewrite (Htell1 Hx0), <- Hst1, Hst'. simpl. lia.
  - (* the tag was peeked before *)
    injection Hp as Hx Hst1. subst st1.
    specialize (Hcoh Hg Ht).
    assert (Htell : tellg st = gpos st - 3).
    { unfold tellg, base_tellg. rewrite Ho, Hg. simpl.
      destruct (Z.eqb_spec (_tag st) 0); [contradiction | reflexivity]. }
    destruct Hcoh as [[Hlo Hhi] Hxx].
    rewrite Htell. split; [lia|]. split.
    { rewrite <- Hx. apply TagFacts.peekTag_after_seekg; auto. split; auto. }
    split.
    { rewrite seekg_good by (auto; lia). unfold tellg, base_tellg. simpl.
      rewrite Ho. reflexivity. }
    intros Hx0. split; [reflexivity | exact (Hlast Hx0)].
Qed.

(** A tag that was read as expected was peeked, on a good stream. *)
Lemma readTag_expect_inl x st r st1 :
  readTag_expect x st = (inl r, st1) → good st1 = true →
  ∃ st', peekTag st = (x, st') ∧ good st' = true ∧ readTag st = (x, st1).
Proof.
  unfold readTag_expect, readTag. destruct (peekTag st) as [y st'] eqn:Hp.
  destruct (Z.eqb_spec y x) as [->|]; [|discriminate].
  intros [= <- <-] Hg. exists st'. auto.
Qed.

End Rewind.

(** ** Reading a frame header once more *)

Lemma bind_run {A B} (m : M A) (f : A → M B) s a s1 :
  m s = Ret a s1 → (m ≫= f) s = f a s1.
Proof. intros H. unfold mbind, M_bind. rewrite H. reflexivity. Qed.

Lemma registry_medium_frameable S0 M0 :
  frameable (λ s, _sources s = S0 ∧ PacketStream.medium (_stream s) = M0).
Proof.
  split; try (intros; assumption).
  intros s st [H1 H2] Hm. split; [exact H1|]. simpl. congruence.
Qed.

Section Replay.

Variable picojson_parse : list byte → option (json * nat).

(** The header of a frame, taken apart at the packet marker. *)
Lemma readFrameHeader_packet_part sA fi sh :
  between_records sA →
  readFrameHeader picojson_parse sA = Ret fi sh →
  ∃ sB src0 meta,
    between_records sB ∧
    read_packet_header (PacketStream.tellg (_stream sA)) src0 meta sB = Ret fi sh ∧
    _sources sB = _sources sA ∧
    PacketStream.medium (_stream sB) = PacketStream.medium (_stream sA).
Proof.
  intros HsA H. unfold readFrameHeader in H.
  pose proof (registry_medium_frameable (_sources sA)
                (PacketStream.medium (_stream sA))) as HP0.
  set (P0 := λ s : PacketStreamReader,
         _sources s = _sources sA ∧
         PacketStream.medium (_stream s) = PacketStream.medium (_stream sA)) in HP0.
  assert (H0 : P0 sA) by (split; reflexivity).
  bind_inv H as fpos sa Ra. injection Ra as <- <-.
  bind_inv H as x sb Rb.
  assert (Hb : P0 sb) by (eapply stable_Ret; [|exact H0|exact Rb]; framed_with HP0).
  pose proof (stable_Ret _ _ _ _ _ peekTag_between HsA Rb) as Tb.
  bind_inv H as [src0 meta] sc Rc.
  assert (Hc : P0 sc) by (eapply stable_Ret; [|exact Hb|exact Rc]; framed_with HP0).
  assert (Tc : between_records sc).
  { refine (hoare_Ret _ _ (λ _, between_records) _ _ _ _ Tb Rc).
    destruct (x =? Tag.TAG_SRC_JSON).
    - apply record_between.
      repeat first
        [ stable_step | apply readUINT_fresh | apply parse_value_fresh ].
    - apply hoare_mret. auto. }
  exists sc, src0, meta. destruct Hc as [Hc1 Hc2]. auto.
Qed.

(** What a packet header gives depends on the stream from the marker on,
    on the source's entry in the registry and on its counter: read again
    where these are the same, it gives the same frame. *)
Lemma read_packet_header_replay fpos src0 meta sB fi sh s' fpos' n :
  read_packet_header fpos src0 meta sB = Ret fi sh →
  PacketStream.tellg (_stream s') = PacketStream.tellg (_stream sB) →
  PacketStream.readTag (_stream s') = PacketStream.readTag (_stream sB) →
  vec_at (_sources s') (FrameInfo.src fi) = vec_at (_sources sB) (FrameInfo.src fi) →
  vec_at (_next_packet_framenum s') (FrameInfo.src fi) = Some n →
  read_packet_header fpos' SIZE_MAX JNull s'
  = Ret (FrameInfo.mk (FrameInfo.src fi) (FrameInfo.time fi) (FrameInfo.size fi) n
           JNull fpos' (FrameInfo.packet_streampos fi))
        (set_stream (_stream sh) s').
Proof.
  intros H Htell Htag Hsrc Hcnt. unfold read_packet_header in *.
  bind_inv H as ppos sa Ra. injection Ra as <- <-.
  bind_inv H as t0 sb Rb. unfold readTag_expect in Rb.
  bind_inv Rb as r sb' Rb'. apply on_stream_Ret_inv in Rb' as [Hrt Hsb'].
  destruct r as [r|r]; [|discriminate]. injection Rb as <- <-.
  bind_inv H as time sc Rc. apply on_stream_Ret_inv in Rc as [Hts Hsc].
  bind_inv H as src sd Rd.
  assert (Hu : PacketStream.readUINT (_stream sc) = (src, _stream sd) ∧
               sd = set_stream (_stream sd) sc).
  { destruct (negb (src0 =? SIZE_MAX)).
    - bind_inv Rd as src' sd' Rd'. apply on_stream_Ret_inv in Rd' as [Hu Hsd].
      destruct (Z.eqb_spec src' src0) as [->|]; [|discriminate].
      injection Rd as <- <-. auto.
    - apply on_stream_Ret_inv in Rd. exact Rd. }
  destruct Hu as [Hu Hsd]. clear Rd.
  bind_inv H as sources se Re. injection Re as <- <-.
  destruct (vec_at (_sources sd) src) as [pss|] eqn:Hpss; [|discriminate].
  bind_inv H as size sf Rf.
  bind_inv H as k sg Rg. unfold GetPacketIndex in Rg. mrun_in Rg.
  destruct (vec_at (_next_packet_framenum sf) src) as [k'|]; [|discriminate].
  injection Rg as <- <-. injection H as <- <-. simpl in *.
  assert (Hsrc_d : _sources sd = _sources sB).
  { rewrite Hsd, Hsc, Hsb'. reflexivity. }
  rewrite Hsrc_d in Hpss. rewrite <- Hsrc in Hpss.
  (* the same run, from [s'] *)
  assert (Hrt' : PacketStream.readTag_expect Tag.TAG_SRC_PACKET (_stream s')
                 = (inl r, _stream sb')).
  { rewrite <- Hrt. unfold PacketStream.readTag_expect. rewrite Htag. reflexivity. }
  assert (E1 : ask_stream PacketStream.tellg s'
               = Ret (PacketStream.tellg (_stream s')) s') by reflexivity.
  rewrite (bind_run _ _ _ _ _ E1); cbv beta.
  assert (E2 : readTag_expect Tag.TAG_SRC_PACKET s'
               = Ret r (set_stream (_stream sb') s')).
  { unfold readTag_expect.
    rewrite (bind_run _ _ _ _ _ (on_stream_run _ _ _ _ Hrt')). reflexivity. }
  rewrite (bind_run _ _ _ _ _ E2); cbv beta.
  assert (E3 : on_stream PacketStream.readTimestamp (set_stream (_stream sb') s')
               = Ret time (set_stream (_stream sc) (set_stream (_stream sb') s')))
    by (apply on_stream_run; exact Hts).
  rewrite (bind_run _ _ _ _ _ E3); cbv beta.
  change (negb (SIZE_MAX =? SIZE_MAX)) with false. cbv iota.
  assert (E4 : on_stream PacketStream.readUINT
                 (set_stream (_stream sc) (set_stream (_stream sb') s'))
               = Ret src (set_stream (_stream sd)
                            (set_stream (_stream sc) (set_stream (_stream sb') s'))))
    by (apply on_stream_run; exact Hu).
  rewrite (bind_run _ _ _ _ _ E4); cbv beta.
  set (s'd := set_stream (_stream sd)
                (set_stream (_stream sc) (set_stream (_stream sb') s'))).
  assert (E5 : gets _sources s'd = Ret (_sources s') s'd) by reflexivity.
  rewrite (bind_run _ _ _ _ _ E5); cbv beta.
  rewrite Hpss.
  assert (E6 : (if PacketStreamSource.data_size_bytes pss =? 0
                then on_stream PacketStream.readUINT
                else mret (PacketStreamSource.data_size_bytes pss)) s'd
               = Ret size (set_stream (_stream sf) s'd)).
  { destruct (PacketStreamSource.data_size_bytes pss =? 0).
    - apply on_stream_Ret_inv in Rf as [Hf _].
      apply on_stream_run. exact Hf.
    - injection Rf as <- <-. reflexivity. }
  rewrite (bind_run _ _ _ _ _ E6); cbv beta.
  unfold GetPacketIndex. mrun. rewrite Hcnt. simpl. rewrite Htell.
  destruct s'. reflexivity.
Qed.

Lemma TAG_SRC_PACKET_nonzero : Tag.TAG_SRC_PACKET ≠ 0.
Proof. intros E. vm_compute in E. discriminate. Qed.

(** A packet header that leaves the stream good found its marker by a good
    peek, at the position the frame records. *)
Lemma read_packet_header_marker fpos src0 meta sB fi sh :
  read_packet_header fpos src0 meta sB = Ret fi sh →
  PacketStream.good (_stream sh) = true →
  FrameInfo.packet_streampos fi = PacketStream.tellg (_stream sB) ∧
  ∃ st', PacketStream.peekTag (_stream sB) = (Tag.TAG_SRC_PACKET, st') ∧
         PacketStream.good st' = true.
Proof.
  intros H Hg. unfold read_packet_header in H.
  bind_inv H as ppos sa Ra. injection Ra as <- <-.
  bind_inv H as t0 sb Rb. unfold readTag_expect in Rb.
  bind_inv Rb as r sb' Rb'. apply on_stream_Ret_inv in Rb' as [Hrt Hsb'].
  destruct r as [r|r]; [|discriminate]. injection Rb as <- <-.
  bind_inv H as time sc Rc. apply on_stream_Ret_inv in Rc as [Hts Hsc].
  bind_inv H as src sd Rd.
  assert (Hu : PacketStream.readUINT (_stream sc) = (src, _stream sd)).
  { destruct (negb (src0 =? SIZE_MAX)).
    - bind_inv Rd as src' sd' Rd'. apply on_stream_Ret_inv in Rd' as [Hu Hsd].
      destruct (Z.eqb_spec src' src0) as [->|]; [|discriminate].
      injection Rd as <- <-. auto.
    - apply on_stream_Ret_inv in Rd. apply Rd. }
  clear Rd.
  bind_inv H as sources se Re. injection Re as <- <-.
  destruct (vec_at (_sources sd) src) as [pss|] eqn:Hpss; [|discriminate].
  bind_inv H as size sf Rf.
  bind_inv H as k sg Rg. unfold GetPacketIndex in Rg. mrun_in Rg.
  destruct (vec_at (_next_packet_framenum sf) src) as [k'|]; [|discriminate].
  injection Rg as <- <-. injection H as <- <-. simpl. split; [reflexivity|].
  assert (Hgd : PacketStream.good (_stream sd) = true).
  { destruct (PacketStreamSource.data_size_bytes pss =? 0).
    - apply on_stream_Ret_inv in Rf as [Hf _].
      apply TagFacts.readUINT_good_before. rewrite Hf. exact Hg.
    - injection Rf as _ <-. exact Hg. }
  assert (Hgc : PacketStream.good (_stream sc) = true).
  { apply TagFacts.readUINT_good_before. rewrite Hu. exact Hgd. }
  assert (Hgb : PacketStream.good (_stream sb') = true).
  { apply TagFacts.readTimestamp_good_before. rewrite Hts. exact Hgc. }
  destruct (Rewind.readTag_expect_inl _ _ _ _ Hrt Hgb) as (st' & Hp & Hg' & _).
  exists st'. auto.
Qed.

(** A frame header read again: from a stream on which the peek and the
    position are those that the packet marker was first read with, and with
    the same entry for the source in the registry, [readFrameHeader] gives the
    frame as [Seek] describes it, under the sequence number that the counter
    holds, and leaves the stream as the first reading left it. *)
Lemma readFrameHeader_again fpos src0 meta sB fi sh s' n :
  between_records sB →
  read_packet_header fpos src0 meta sB = Ret fi sh →
  PacketStream.good (_stream sh) = true →
  PacketStream.peekTag (_stream s') = PacketStream.peekTag (_stream sB) →
  PacketStream.tellg (_stream s') = PacketStream.tellg (_stream sB) →
  vec_at (_sources s') (FrameInfo.src fi) = vec_at (_sources sB) (FrameInfo.src fi) →
  vec_at (_next_packet_framenum s') (FrameInfo.src fi) = Some n →
  readFrameHeader picojson_parse s'
  = Ret (FrameInfo.mk (FrameInfo.src fi) (FrameInfo.time fi) (FrameInfo.size fi) n
           JNull (FrameInfo.packet_streampos fi) (FrameInfo.packet_streampos fi))
        (set_stream (_stream sh) s').
Proof.
  intros [HfB HtB] H Hg Hpeek Htell Hsrc Hcnt.
  destruct (read_packet_header_marker _ _ _ _ _ _ H Hg) as (Hq & st' & Hp & Hg').
  destruct (Rewind.peekTag_rewound _ _ _ (proj1 HfB) HtB Hp Hg')
    as (_ & _ & _ & Hcached).
  destruct (Hcached TAG_SRC_PACKET_nonzero) as [Htell' Hp'].
  unfold readFrameHeader.
  assert (E1 : ask_stream PacketStream.tellg s'
               = Ret (PacketStream.tellg (_stream s')) s') by reflexivity.
  rewrite (bind_run _ _ _ _ _ E1); cbv beta.
  assert (E2 : on_stream PacketStream.peekTag s'
               = Ret Tag.TAG_SRC_PACKET (set_stream st' s')).
  { apply on_stream_run. rewrite Hpeek. exact Hp. }
  rewrite (bind_run _ _ _ _ _ E2); cbv beta.
  replace (Tag.TAG_SRC_PACKET =? Tag.TAG_SRC_JSON) with false
    by (vm_compute; reflexivity).
  rewrite (bind_run _ _ (set_stream st' s')
             (FrameInfo.src FrameInfo.none, FrameInfo.meta FrameInfo.none)
             (set_stream st' s')) by reflexivity.
  cbv beta iota.
  rewrite (read_packet_header_replay _ _ _ _ _ _ (set_stream st' s') _ n H).
  - rewrite Htell, Hq. reflexivity.
  - simpl. exact Htell'.
  - simpl. unfold PacketStream.readTag. rewrite Hp, Hp'. reflexivity.
  - exact Hsrc.
  - exact Hcnt.
Qed.

(** *** The runs of [Seek], [NextFrame] and [ReadRaw] on the frame *)

Lemma lock_guard_run {A} (m : M A) s a s1 n :
  m (set_mutex (S (_mutex s)) s) = Ret a s1 → _mutex s1 = S n →
  lock_guard m s = Ret a (set_mutex n s1).
Proof. intros H Hn. unfold lock_guard. rewrite H, Hn. reflexivity. Qed.

Lemma position_has idx src n q :
  PacketIndex.position idx src n = Some q → PacketIndex.has idx src n = true.
Proof.
  unfold PacketIndex.position, PacketIndex.has.
  destruct (idx !! src) as [row|]; [|discriminate].
  intros H. apply bool_decide_eq_true. rewrite H. eauto.
Qed.

Lemma seek_read_ahead_hit fuel src n s :
  PacketIndex.has (_index s) src n = true →
  seek_read_ahead picojson_parse (S fuel) src n s = Ret tt s.
Proof.
  intros H. simpl. unfold mbind at 1, M_bind at 1, gets at 1. rewrite H. reflexivity.
Qed.

Lemma NextFrame_loop_run fuel src s r s1 :
  NextFrame_loop picojson_parse fuel src (set_mutex (S (_mutex s)) s) = Ret r s1 →
  NextFrame picojson_parse fuel src s = Ret r s1.
Proof.
  intros H. unfold NextFrame.
  rewrite (bind_run _ _ s tt (set_mutex (S (_mutex s)) s)) by reflexivity.
  unfold try_catch. rewrite H. reflexivity.
Qed.

(** [NextFrame] with the stream at the packet marker of a frame of the
    source asked for, which the index has at that position. *)
Lemma NextFrame_at_packet fuel s st' r S0 k :
  PacketStream.good (_stream s) = true →
  PacketStream.peekTag (_stream s) = (Tag.TAG_SRC_PACKET, st') →
  readFrameHeader picojson_parse (set_stream st' (set_mutex (S (_mutex s)) s))
  = Ret r (set_stream S0 (set_stream st' (set_mutex (S (_mutex s)) s))) →
  FrameInfo.to_bool r = true →
  vec_at (_next_packet_framenum s) (FrameInfo.src r) = Some k →
  PacketIndex.position (_index s) (FrameInfo.src r) (FrameInfo.sequence_num r)
    = Some (FrameInfo.frame_streampos r) →
  ∃ s5,
    NextFrame picojson_parse (S (S fuel)) (FrameInfo.src r) s = Ret r s5 ∧
    _stream s5 = PacketStream.set_data_len (FrameInfo.size r) S0 ∧
    _mutex s5 = S (_mutex s).
Proof.
  intros Hg Hp Hhdr Hb Hk Hpos.
  set (s0 := set_mutex (S (_mutex s)) s) in *.
  assert (Hnext : _nextFrame picojson_parse (S fuel) s0
                  = Ret r (set_stream S0 (set_stream st' s0))).
  { rewrite _nextFrame_S.
    rewrite (bind_run _ _ _ _ _ (GoodToRead_good picojson_parse fuel s0 Hg)).
    cbv beta iota.
    rewrite (bind_run _ _ _ _ _ (on_stream_run _ s0 _ _ Hp)). cbv beta.
    replace (Tag.TAG_SRC_PACKET =? Tag.TAG_PANGO_SYNC) with false
      by (vm_compute; reflexivity).
    replace (Tag.TAG_SRC_PACKET =? Tag.TAG_ADD_SOURCE) with false
      by (vm_compute; reflexivity).
    rewrite Z.eqb_refl, orb_true_r. exact Hhdr. }
  set (sh := set_stream S0 (set_stream st' s0)) in *.
  assert (Hdisp : ∃ s5,
            NextFrame_dispatch picojson_parse (S fuel) s0 = Ret r s5 ∧
            _stream s5 = PacketStream.set_data_len (FrameInfo.size r) S0 ∧
            _mutex s5 = S (_mutex s)).
  { unfold NextFrame_dispatch.
    rewrite (bind_run _ _ _ _ _ Hnext); cbv beta. rewrite Hb. cbn [negb].
    rewrite (bind_run _ _ sh (_next_packet_framenum s) sh) by reflexivity. cbv beta.
    rewrite Hk.
    set (sc := set_next_packet_framenum
                 (vec_set (_next_packet_framenum s) (FrameInfo.src r) (wrap64 (k + 1)))
                 sh).
    rewrite (bind_run _ _ sh tt sc) by reflexivity. cbv beta.
    rewrite (bind_run _ _ sc (PacketStream.seekable S0) sc) by reflexivity. cbv beta.
    assert (E : (if PacketStream.seekable S0
                 then
                   idx ← gets _index;
                   if negb (PacketIndex.has idx (FrameInfo.src r)
                              (FrameInfo.sequence_num r))
                   then
                     modify (set_index (PacketIndex.add idx (FrameInfo.src r)
                                          (FrameInfo.sequence_num r)
                                          (FrameInfo.frame_streampos r)))
                   else
                     pos ← index_position (FrameInfo.src r) (FrameInfo.sequence_num r);
                     if negb (pos =? FrameInfo.frame_streampos r) then
                       pos' ← index_position (FrameInfo.src r)
                                (FrameInfo.sequence_num r);
                       PANGO_ENSURE (pos' =? FrameInfo.packet_streampos r);;
                       warned ← gets (λ s, warned_already (world s));
                       if negb warned then
                         pango_print_warn WarnOldFile;;
                         modify (λ s, set_world
                                        (set_warned_already true (world s)) s)
                       else mret tt
                     else mret tt
                 else mret tt) sc = Ret tt sc).
    { destruct (PacketStream.seekable S0); [|reflexivity].
      rewrite (bind_run _ _ sc (_index s) sc) by reflexivity. cbv beta.
      rewrite (position_has _ _ _ _ Hpos). cbn [negb].
      assert (E4 : index_position (FrameInfo.src r) (FrameInfo.sequence_num r) sc
                   = Ret (FrameInfo.frame_streampos r) sc).
      { unfold index_position. mrun. rewrite Hpos. reflexivity. }
      rewrite (bind_run _ _ _ _ _ E4); cbv beta.
      rewrite Z.eqb_refl. reflexivity. }
    rewrite (bind_run _ _ _ _ _ E); cbv beta.
    eexists. split; [reflexivity|]. split; reflexivity. }
  destruct Hdisp as (s5 & Hdisp & Hst5 & Hm5).
  exists s5. split; [|auto].
  apply NextFrame_loop_run. fold s0. rewrite NextFrame_loop_S.
  rewrite (bind_run _ _ _ _ _ Hdisp); cbv beta. rewrite Hb. cbn [negb].
  rewrite Z.eqb_refl. reflexivity.
Qed.

End Replay.

(** The payload that [ReadRaw] returns depends on the stream only; the
    mutex must be held for the release at the end of the window. *)
Lemma ReadRaw_same_stream len s payload s' t :
  ReadRaw len s = Ret payload s' →
  _stream t = _stream s → (0 < _mutex t)%nat →
  ∃ t', ReadRaw len t = Ret payload t'.
Proof.
  intros H Hst Hm. unfold ReadRaw in *.
  bind_inv H as remain sa Ra. injection Ra as <- <-.
  rewrite (bind_run _ _ t (PacketStream.data_len (_stream s)) t)
    by (unfold ask_stream; rewrite Hst; reflexivity).
  cbv beta.
  bind_inv H as len' sb Rb.
  assert (Hb : _stream sb = _stream s ∧
               ∃ tb, (if PacketStream.data_len (_stream s) =? 0
                      then throw InvalidState
                      else if PacketStream.data_len (_stream s) <? len
                           then pango_print_warn
                                  (WarnReadTrim len (PacketStream.data_len (_stream s)));;
                                mret (PacketStream.data_len (_stream s))
                           else mret len) t = Ret len' tb ∧
                     _stream tb = _stream t ∧ _mutex tb = _mutex t).
  { destruct (PacketStream.data_len (_stream s) =? 0); [discriminate|].
    destruct (PacketStream.data_len (_stream s) <? len).
    - mrun_in Rb. injection Rb as <- <-. split; [reflexivity|].
      eexists. split; [reflexivity|]. split; reflexivity.
    - injection Rb as <- <-. split; [reflexivity|].
      eexists. split; [reflexivity|]. split; reflexivity. }
  destruct Hb as (Hsb & tb & Etb & Htb & Hmb).
  rewrite (bind_run _ _ _ _ _ Etb). cbv beta.
  bind_inv H as r sc Rc. apply on_stream_Ret_inv in Rc as [Hread Hsc].
  assert (Ec : on_stream (PacketStream.read len') tb
               = Ret r (set_stream (_stream sc) tb)).
  { apply on_stream_run. rewrite Htb, Hst, <- Hsb. exact Hread. }
  rewrite (bind_run _ _ _ _ _ Ec). cbv beta.
  bind_inv H as remain' sd Rd. injection Rd as <- <-.
  rewrite (bind_run _ _ (set_stream (_stream sc) tb)
             (PacketStream.data_len (_stream sc)) (set_stream (_stream sc) tb))
    by reflexivity.
  cbv beta.
  bind_inv H as u se Re. injection H as <- _.
  destruct (PacketStream.data_len (_stream sc) =? 0).
  - unfold mbind, M_bind, Unlock. simpl. rewrite Hmb.
    destruct (_mutex t); [lia|]. eexists. reflexivity.
  - eexists. reflexivity.
Qed.

(** ** How a session comes to be between two records *)

Section Reaching.

Variable picojson_parse : list byte → option (json * nat).

Lemma check_magic_between magic : stable between_records (check_magic magic).
Proof.
  induction magic as [|i rest IH]; simpl;
    repeat first [stable_step | apply get_between | exact IH].
Qed.

Lemma parse_leading_sources_between fuel :
  hoare between_records (parse_leading_sources picojson_parse fuel)
    (λ _, between_records).
Proof.
  induction fuel as [|f IH]; [intros s Hs; exact I|]. simpl.
  eapply hoare_bind; [apply hoare_stable, peekTag_between|]. intros x.
  destruct (x =? Tag.TAG_ADD_SOURCE).
  - eapply hoare_bind; [apply ParseNewSource_between|]. intros ?. exact IH.
  - apply hoare_mret. auto.
Qed.

(** The index is looked for with the stream moved about, and the last move
    is a seek back, which leaves neither look-ahead nor window. *)
Lemma SetupIndex_between :
  hoare on_file (SetupIndex picojson_parse) (λ _, between_records).
Proof.
  intros s Hs.
  destruct (SetupIndex picojson_parse s) as [u s'| | | |] eqn:H; simpl; auto.
  unfold SetupIndex in H.
  bind_inv H as seekable sa Ra. injection Ra as <- <-.
  rewrite (proj1 Hs) in H. simpl in H.
  bind_inv H as pos sb Rb. injection Rb as <- <-.
  bind_inv H as u1 sc Rc. injection Rc as _ <-.
  bind_inv H as x sd Rd.
  bind_inv H as u2 se Re.
  bind_inv H as u3 sf Rf. injection Rf as _ <-. injection H as _ <-.
  assert (Hse : on_file se).
  { assert (Hsc : on_file (set_stream
                     (PacketStream.seekg_end (- (8 + Tag.TAG_LENGTH)) (_stream s)) s)).
    { apply (fr_stream _ on_file_frameable); auto with medium. }
    assert (Hsd : on_file sd).
    { eapply stable_Ret; [|exact Hsc|exact Rd].
      apply stable_on_stream; intros ? ?.
      apply (fr_stream _ on_file_frameable); [assumption | auto with medium]. }
    eapply stable_Ret; [|exact Hsd|exact Re].
    unfold ParseFooter, ParseIndex, readTag_expect, json_field, json_checked.
    repeat first
      [ stable_step
      | solve [eauto with framed]
      | apply stable_on_stream; intros ? ?;
          apply (fr_stream _ on_file_frameable); [assumption | solve [auto with medium]]
      | apply stable_upd_stream; intros ? ?;
          apply (fr_stream _ on_file_frameable); [assumption | solve [auto with medium]]
      | apply parse_value_on_file
      | apply stable_modify; intros ? Hs'; exact Hs' ]. }
  assert (Hclr : PacketStream.seekable (PacketStream.clear (_stream se)) = true).
  { apply Hse. }
  split.
  - apply (fr_stream _ on_file_frameable).
    + apply (fr_stream _ on_file_frameable); [exact Hse | reflexivity].
    + simpl. auto with medium.
  - simpl. apply TagFacts.clean_tidy. unfold PacketStream.seekg. rewrite Hclr.
    unfold PacketStream.base_seekg, PacketStream.cclear. simpl.
    repeat case_match; split; reflexivity.
Qed.

(** [Open] on a path that is not a pipe leaves a file session between two
    records: just past the header and the sources that follow it. *)
Lemma Open_between fuel filename s0 s :
  IsPipe (world s0) filename = false →
  Open picojson_parse fuel filename s0 = Ret tt s →
  between_records s.
Proof.
  intros Hpipe H. unfold Open in H.
  apply lock_guard_Ret_inv in H as (s1 & n & H & _ & ->).
  bind_inv H as u sa Ra. rewrite Close_spec in Ra. injection Ra as _ <-.
  bind_inv H as u1 sb Rb. injection Rb as _ <-.
  bind_inv H as pipe sc Rc. injection Rc as <- <-.
  lazymatch type of H with
  | context [IsPipe ?w filename] =>
      replace (IsPipe w filename) with false in H
        by (rewrite <- Hpipe; unfold IsPipe; simpl;
            destruct (negb (_pipe_fd s0 =? -1)); reflexivity)
  end.
  bind_inv H as u2 sd Rd. injection Rd as _ <-.
  bind_inv H as u3 se Re.
  bind_inv H as opened sf Rf. injection Rf as <- <-.
  destruct (PacketStream.is_open (_stream se)) eqn:Ho; [|discriminate].
  cbn [negb] in H.
  assert (Hse : between_records se).
  { unfold stream_open in Re. unfold IsPipe in Hpipe.
    assert (Hfs : ∀ w', fs w' = fs (world s0) →
              match fs w' !! filename with
              | Some (NamedPipe _ _) => true
              | _ => false
              end = false) by (intros w' ->; exact Hpipe).
    revert Re. simpl.
    destruct (negb (_pipe_fd s0 =? -1)); simpl;
      destruct (fs (world s0) !! filename) as [[data|fd chunks]|];
      try discriminate; intros [= E]; subst se; simpl in Ho; try discriminate;
      (split; [split; reflexivity | apply TagFacts.clean_tidy; split; reflexivity]). }
  bind_inv H as u4 sg Rg.
  pose proof (stable_Ret _ _ _ _ _ (check_magic_between Tag.PANGO_MAGIC) Hse Rg) as Hsg.
  bind_inv H as u5 sh Rh.
  pose proof (hoare_Ret _ _ _ _ _ _ SetupIndex_between (proj1 Hsg) Rh) as Hsh.
  bind_inv H as u6 si Ri.
  pose proof (hoare_Ret _ _ _ _ _ _ (ParseHeader_between picojson_parse) Hsh Ri) as Hsi.
  exact (hoare_Ret _ _ _ _ _ _ (parse_leading_sources_between fuel) Hsi H).
Qed.

(** A payload read or skipped to its end leaves the session between two
    records again. *)
Lemma ReadRaw_between len s payload s' :
  on_file s → ReadRaw len s = Ret payload s' →
  PacketStream.data_len (_stream s') = 0 → between_records s'.
Proof.
  intros Hs H Hd. split.
  - exact (stable_Ret _ _ _ _ _ (ReadRaw_on_file len) Hs H).
  - apply TagFacts.clean_tidy. split; [|exact Hd].
    unfold ReadRaw in H.
    bind_inv H as remain sa Ra. injection Ra as <- <-.
    bind_inv H as len' sb Rb.
    bind_inv H as r sc Rc. apply on_stream_Ret_inv in Rc as [Hread _].
    bind_inv H as remain' sd Rd. injection Rd as <- <-.
    bind_inv H as u se Re. injection H as _ <-.
    assert (Ht : PacketStream._tag (_stream sc) = 0).
    { unfold PacketStream.read in Hread.
      pose proof (base_read_spec len' (PacketStream.set_tag 0 (_stream sb))) as Hspec.
      destruct (PacketStream.base_read len' _) as [bs st1].
      injection Hread as _ <-. simpl. apply Hspec. }
    destruct (PacketStream.data_len (_stream sc) =? 0).
    + unfold Unlock in Re. destruct (_mutex sc); [discriminate|].
      injection Re as _ <-. exact Ht.
    + injection Re as _ <-. exact Ht.
Qed.

End Reaching.

(** ** Seeking to a frame: what the claim says, and a frame with metadata *)

(** C1, as it is stated, fails: on the three-frame stream, reading forward
    to the frame of source 0 with sequence number 1 and consuming it gives
    its sixteen bytes; [Seek] to that frame returns its descriptor, and the
    [ReadRaw] that follows finds no data window and throws, with no byte
    returned. *)
Lemma Seek_then_ReadRaw_returns_no_payload :
  let s := Sample.opened Sample.three_frames in
  value_of ((NextFrame Json.parse 10 0;; ReadRaw 16;;
             NextFrame Json.parse 10 0;; ReadRaw 16) s)
  = Some (Sample.payload x02 16) ∧
  FrameInfo.sequence_num <$> value_of (Seek Json.parse 10 0 1 s) = Some 1 ∧
  value_of ((Seek Json.parse 10 0 1;; ReadRaw 16) s) = None ∧
  exception_of ((Seek Json.parse 10 0 1;; ReadRaw 16) s) = Some InvalidState.
Proof.
  intros s.
  repeat lazymatch goal with |- _ ∧ _ => split; [vm_compute; reflexivity|] end.
  vm_compute; reflexivity.
Qed.

(** Why the index has to hold the position of the packet marker: a frame
    that metadata precedes is entered by the dispatcher under the position
    of the metadata.  [Seek] to it returns the frame and leaves the stream at
    the packet marker; the [NextFrame] after it finds the frame starting
    there, at neither of the positions that [PANGO_ENSURE] accepts for the
    index entry, and the process stops. *)
Lemma Seek_to_frame_with_metadata_then_NextFrame_stops :
  let s := Sample.after ((NextFrame Json.parse 10 0;; ReadRaw 4)
                           (Sample.opened Sample.with_metadata)) in
  (FrameInfo.frame_streampos <$> value_of (Seek Json.parse 10 0 0 s),
   FrameInfo.packet_streampos <$> value_of (Seek Json.parse 10 0 0 s))
  = (Some 151, Some 165) ∧
  PacketIndex.position (_index s) 0 0 = Some 151 ∧
  (Seek Json.parse 10 0 0;; NextFrame Json.parse 10 0) s = Abort.
Proof.
  intros s.
  repeat lazymatch goal with |- _ ∧ _ => split; [vm_compute; reflexivity|] end.
  vm_compute; reflexivity.
Qed.

(** * Further properties of the reader *)

(** ** A source record registers one source or nothing *)

Lemma post_bind_stable {A B} (P : PacketStreamReader → Prop) (m : M A) (f : A → M B)
    (Q : B → PacketStreamReader → Prop) s :
  stable P m → P s →
  (∀ a s1, P s1 → post (f a s1) Q (λ _, P)) →
  post ((m ≫= f) s) Q (λ _, P).
Proof.
  intros Hm Hs Hf. apply post_bind.
  eapply post_mono; [apply Hm, Hs | | auto].
  intros a s1 Hs1. apply Hf, Hs1.
Qed.

(** The registration proper: what [register_source] does to the registry
    and to the counters. *)
Lemma register_source_post pss s :
  post (register_source pss s)
    (λ _ s',
       _sources s' = _sources s ++ [pss] ∧
       PacketStreamSource.id pss = Z.of_nat (length (_sources s)) ∧
       vec_at (_next_packet_framenum s') (PacketStreamSource.id pss) = Some 0 ∧
       ∀ x, x ≠ PacketStreamSource.id pss →
            0 ≤ x < Z.of_nat (length (_next_packet_framenum s)) →
            vec_at (_next_packet_framenum s') x = vec_at (_next_packet_framenum s) x)
    (λ _ s',
       _sources s' = _sources s ∧
       _next_packet_framenum s' = _next_packet_framenum s).
Proof.
  unfold register_source. mrun.
  set (i := PacketStreamSource.id pss).
  destruct (Z.eqb_spec (Z.of_nat (length (_sources s))) i) as [Hi|Hi]; simpl;
    [|split; reflexivity].
  destruct (Z.ltb_spec (Z.of_nat (length (_next_packet_framenum s))) (wrap64 (i + 1)));
    mrun.
  - rewrite vec_resize_length by lia.
    destruct (Z.leb_spec 0 i); simpl; [|exact I].
    destruct (Z.ltb_spec i (wrap64 (i + 1))); simpl; [|exact I].
    split; [reflexivity|]. split; [symmetry; exact Hi|]. split.
    + apply vec_at_set_eq. rewrite vec_resize_length; lia.
    + intros x Hx Hr. rewrite vec_at_set_ne by congruence.
      apply vec_at_resize_grow; lia.
  - destruct (Z.leb_spec 0 i); simpl; [|exact I].
    destruct (Z.ltb_spec i (Z.of_nat (length (_next_packet_framenum s)))); simpl;
      [|exact I].
    split; [reflexivity|]. split; [symmetry; exact Hi|]. split.
    + apply vec_at_set_eq. lia.
    + intros x Hx Hr. apply vec_at_set_ne. congruence.
Qed.

Section RegisterOne.

Variable picojson_parse : list byte → option (json * nat).

(** X1: [ParseNewSource] either registers exactly one source or changes
    neither the registry nor the counters.  When it returns, one descriptor
    has been appended, its id is the position it takes in the registry, its
    counter is 0 and the counters there were are as before; when it throws --
    on a tag that is not the one of a source record, on a blob that lacks a
    field or has one of the wrong type, on an id that is not the next free
    one -- the registry and the counters are those it found. *)
Theorem ParseNewSource_registers_one_source_or_nothing s :
  post (ParseNewSource picojson_parse s)
    (λ _ s',
       ∃ pss,
         _sources s' = _sources s ++ [pss] ∧
         PacketStreamSource.id pss = Z.of_nat (length (_sources s)) ∧
         vec_at (_next_packet_framenum s') (PacketStreamSource.id pss) = Some 0 ∧
         ∀ x, x ≠ PacketStreamSource.id pss →
              0 ≤ x < Z.of_nat (length (_next_packet_framenum s)) →
              vec_at (_next_packet_framenum s') x
              = vec_at (_next_packet_framenum s) x)
    (λ _ s',
       _sources s' = _sources s ∧
       _next_packet_framenum s' = _next_packet_framenum s).
Proof.
  assert (Hgen : ∀ S0 C0 s1,
    _sources s1 = S0 ∧ _next_packet_framenum s1 = C0 →
    post (ParseNewSource picojson_parse s1)
      (λ _ s',
         ∃ pss,
           _sources s' = S0 ++ [pss] ∧
           PacketStreamSource.id pss = Z.of_nat (length S0) ∧
           vec_at (_next_packet_framenum s') (PacketStreamSource.id pss) = Some 0 ∧
           ∀ x, x ≠ PacketStreamSource.id pss →
                0 ≤ x < Z.of_nat (length C0) →
                vec_at (_next_packet_framenum s') x = vec_at C0 x)
      (λ _ s', _sources s' = S0 ∧ _next_packet_framenum s' = C0)).
  { intros S0 C0 s1 H1.
    pose proof (registry_frameable S0 C0) as HP0.
    unfold ParseNewSource.
    repeat (lazymatch goal with |- post (mbind _ _ _) _ _ => idtac end;
            apply (post_bind_stable
                     (λ s', _sources s' = S0 ∧ _next_packet_framenum s' = C0));
            [solve [framed_with HP0] | assumption |];
            clear s1 H1; intros ? s1 H1).
    destruct H1 as [Hs Hc].
    eapply post_mono; [apply register_source_post | |].
    - cbv beta. intros _ s' (Hs' & Hid & Hz & Hother).
      rewrite Hs, Hc in *. eauto.
    - cbv beta. intros _ s' [Hs' Hc']. split; congruence. }
  apply Hgen. split; reflexivity.
Qed.

End RegisterOne.

(** ** The registry is kept in order *)

Lemma well_registered_frameable : frameable well_registered.
Proof. split; intros; assumption. Qed.

Lemma post_lock_guard {A} (P : PacketStreamReader → Prop) (m : M A) s :
  frameable P →
  post (m (set_mutex (S (_mutex s)) s)) (λ _, P) (λ _, P) →
  post (lock_guard m s) (λ _, P) (λ _, P).
Proof.
  intros HP Hm. unfold lock_guard.
  destruct (m _) as [a s'|e s'| | |]; simpl in *; auto;
    destruct (_mutex s'); simpl; auto; apply (fr_mutex _ HP); exact Hm.
Qed.

Lemma stable_lock_guard {A} (P : PacketStreamReader → Prop) (m : M A) :
  frameable P → stable P m → stable P (lock_guard m).
Proof.
  intros HP Hm s Hs. apply post_lock_guard; [exact HP|].
  apply Hm, (fr_mutex _ HP), Hs.
Qed.

Lemma register_source_well_registered pss :
  stable well_registered (register_source pss).
Proof.
  intros s [Hid Hlen].
  eapply post_mono; [apply register_source_post | |]; cbv beta.
  - intros _ s' (Hs' & Hi & Hz & _). split.
    + intros i p. rewrite Hs'. intros Hp.
      apply lookup_app_Some in Hp as [Hp|[Hge Hp]]; [apply Hid, Hp|].
      apply list_lookup_singleton_Some in Hp as [Hi0 <-].
      rewrite Hi. f_equal. lia.
    + rewrite Hs', length_app. simpl.
      apply vec_at_Some in Hz as [Hz _]. lia.
  - intros _ s' [Hs' Hc']. split.
    + rewrite Hs'. exact Hid.
    + rewrite Hs', Hc'. exact Hlen.
Qed.

Section Registry.

Variable picojson_parse : list byte → option (json * nat).

Let HP := well_registered_frameable.

Ltac registry_leaf :=
  first
    [ assumption
    | solve [eauto with framed]
    | framed_leaf HP
    | apply stable_modify; intros ? Hs; exact Hs
    | apply stable_upd_stream; intros ? Hs; exact Hs
    | apply stable_on_stream; intros ? Hs; exact Hs ].

Ltac registry := repeat first [stable_step | registry_leaf].

Lemma ParseNewSource_well_registered :
  stable well_registered (ParseNewSource picojson_parse).
Proof.
  unfold ParseNewSource.
  repeat first
    [ apply register_source_well_registered | stable_step | framed_leaf HP ].
Qed.

Lemma Close_well_registered s : post (Close s) (λ _, well_registered) (λ _, well_registered).
Proof.
  rewrite Close_spec. simpl. split.
  - destruct (negb (_pipe_fd s =? -1)); simpl; intros i pss Hl;
      rewrite lookup_nil in Hl; discriminate.
  - destruct (negb (_pipe_fd s =? -1)); simpl; lia.
Qed.

Lemma stream_open_well_registered filename :
  stable well_registered (stream_open filename).
Proof. intros s Hs. unfold stream_open. repeat case_match; exact Hs. Qed.

Lemma check_magic_well_registered magic :
  stable well_registered (check_magic magic).
Proof. induction magic as [|i rest IH]; simpl; registry. Qed.

Lemma SetupIndex_well_registered :
  stable well_registered (SetupIndex picojson_parse).
Proof. unfold SetupIndex, ParseFooter. registry. Qed.

Lemma parse_leading_sources_well_registered fuel :
  stable well_registered (parse_leading_sources picojson_parse fuel).
Proof.
  pose proof ParseNewSource_well_registered.
  induction fuel as [|f IH]; simpl; registry.
Qed.

(** [Open], from whatever state: it starts by emptying the registry. *)
Lemma Open_well_registered fuel filename s :
  post (Open picojson_parse fuel filename s)
    (λ _, well_registered) (λ _, well_registered).
Proof.
  unfold Open. apply post_lock_guard; [exact HP|].
  apply post_bind. pose proof (Close_well_registered (set_mutex (S (_mutex s)) s)) as Hc.
  eapply post_mono; [exact Hc | | auto]. cbv beta.
  intros _ s1 Hs1. revert s1 Hs1.
  change (stable well_registered
            (modify (set_filename filename);;
             pipe ← gets (λ s, IsPipe (world s) filename);
             modify (set_is_pipe pipe);;
             stream_open filename;;
             opened ← ask_stream PacketStream.is_open;
             if negb opened then throw CannotOpenStream
             else
               check_magic Tag.PANGO_MAGIC;;
               SetupIndex picojson_parse;;
               ParseHeader picojson_parse;;
               parse_leading_sources picojson_parse fuel)).
  pose proof stream_open_well_registered.
  pose proof check_magic_well_registered.
  pose proof SetupIndex_well_registered.
  pose proof parse_leading_sources_well_registered.
  registry.
Qed.

Lemma Open_stable_well_registered fuel filename :
  stable well_registered (Open picojson_parse fuel filename).
Proof. intros s _. apply Open_well_registered. Qed.

Lemma GoodToRead_well_registered fuel :
  stable well_registered (GoodToRead picojson_parse fuel).
Proof.
  pose proof Open_stable_well_registered.
  unfold GoodToRead, os_close. registry.
Qed.

Lemma _nextFrame_well_registered fuel :
  stable well_registered (_nextFrame picojson_parse fuel).
Proof.
  pose proof ParseNewSource_well_registered.
  pose proof GoodToRead_well_registered.
  induction fuel as [|f IH]; simpl; registry.
Qed.

Lemma NextFrame_dispatch_well_registered fuel :
  stable well_registered (NextFrame_dispatch picojson_parse fuel).
Proof.
  intros s Hs. unfold NextFrame_dispatch. apply post_bind.
  eapply post_mono; [apply _nextFrame_well_registered, Hs | | auto]. cbv beta.
  intros fi s1 [Hid Hlen].
  destruct (negb (FrameInfo.to_bool fi)); [split; assumption|].
  mrun. destruct (vec_at (_next_packet_framenum s1) (FrameInfo.src fi)) as [k|] eqn:Hk;
    [|exact I].
  mrun.
  set (s2 := set_next_packet_framenum _ s1).
  assert (Hs2 : well_registered s2).
  { split; [exact Hid|]. subst s2. simpl. rewrite vec_set_length. exact Hlen. }
  clearbody s2. revert s2 Hs2.
  change (stable well_registered
    ((if PacketStream.seekable (_stream s1) then
         idx ← gets _index;
         if negb (PacketIndex.has idx (FrameInfo.src fi) (FrameInfo.sequence_num fi))
         then
           modify (set_index (PacketIndex.add idx (FrameInfo.src fi)
                                (FrameInfo.sequence_num fi)
                                (FrameInfo.frame_streampos fi)))
         else
           pos ← index_position (FrameInfo.src fi) (FrameInfo.sequence_num fi);
           if negb (pos =? FrameInfo.frame_streampos fi) then
             pos' ← index_position (FrameInfo.src fi) (FrameInfo.sequence_num fi);
             PANGO_ENSURE (pos' =? FrameInfo.packet_streampos fi);;
             warned ← gets (λ s, warned_already (world s));
             if negb warned then
               pango_print_warn WarnOldFile;;
               modify (λ s, set_world (set_warned_already true (world s)) s)
             else mret tt
           else mret tt
       else mret tt);;
      upd_stream (PacketStream.set_data_len (FrameInfo.size fi));;
      mret fi)).
  registry.
Qed.

Lemma NextFrame_loop_well_registered fuel src :
  stable well_registered (NextFrame_loop picojson_parse fuel src).
Proof.
  pose proof NextFrame_dispatch_well_registered.
  induction fuel as [|f IH]; simpl; registry.
Qed.

Lemma NextFrame_well_registered fuel src :
  stable well_registered (NextFrame picojson_parse fuel src).
Proof.
  pose proof NextFrame_loop_well_registered.
  unfold NextFrame. registry.
Qed.

Lemma ReadRaw_well_registered len : stable well_registered (ReadRaw len).
Proof. unfold ReadRaw. registry. Qed.

Lemma Skip_well_registered len : stable well_registered (Skip len).
Proof. unfold Skip. registry. Qed.

Lemma seek_read_ahead_well_registered fuel src framenum :
  stable well_registered (seek_read_ahead picojson_parse fuel src framenum).
Proof.
  pose proof NextFrame_well_registered.
  induction fuel as [|f IH]; simpl; registry.
Qed.

Lemma Seek_well_registered fuel src framenum :
  stable well_registered (Seek picojson_parse fuel src framenum).
Proof.
  rewrite Seek_unfold. apply stable_lock_guard; [exact HP|].
  pose proof Skip_well_registered.
  pose proof seek_read_ahead_well_registered.
  unfold Seek_body, index_position.
  apply stable_bind; [registry | intros seekable].
  destruct (negb seekable); [registry|].
  apply stable_bind; [registry | intros sources].
  destruct (Z.of_nat (length sources) <? src); [registry|].
  do 5 (apply stable_bind; [solve [registry] | intros ?]).
  intros s0 Hs0. apply post_bind. unfold gets. simpl. apply post_bind.
  destruct ((0 <=? src) && (src <? Z.of_nat (length (_next_packet_framenum s0))));
    simpl; [|exact I].
  match goal with
  | |- post (?m ?s1) _ _ =>
      assert (Hs1 : well_registered s1)
        by (destruct Hs0 as [Hid Hlen]; split;
            [exact Hid | simpl; rewrite vec_set_length; exact Hlen]);
      revert Hs1; generalize s1
  end.
  change (stable well_registered
            (r ← readFrameHeader picojson_parse;
             upd_stream (PacketStream.seekg (FrameInfo.packet_streampos r));;
             mret r)).
  registry.
Qed.

(** X2: when [Open] returns, the registry is in order and every source
    starts at 0: the descriptor at position [src] carries the id [src], and
    [GetPacketIndex] for it returns 0 and does not throw.  This holds from
    whatever state the reader was in, also one left by an earlier session. *)
Theorem Open_registers_sources_under_their_positions fuel filename s0 s src pss :
  Open picojson_parse fuel filename s0 = Ret tt s →
  vec_at (_sources s) src = Some pss →
  PacketStreamSource.id pss = src ∧ GetPacketIndex src s = Ret 0 s.
Proof.
  intros H Hsrc.
  pose proof (Open_well_registered fuel filename s0) as Hwr. rewrite H in Hwr.
  destruct Hwr as [Hid _].
  apply vec_at_Some in Hsrc as [Hr Hl]. split.
  - rewrite (Hid _ _ Hl). lia.
  - destruct (Open_counters picojson_parse _ _ _ _ H) as [Hc _].
    unfold GetPacketIndex. mrun. rewrite (Hc src Hr). reflexivity.
Qed.

(** X3: the order of the registry is kept by every operation on the
    session, on return and on throw: after [NextFrame], [Seek], [ReadRaw],
    [Skip] or [Close] the descriptor at each position still carries that
    position as its id, and each registered source has a counter, so that
    [GetPacketIndex] for a registered source does not throw. *)
Theorem registry_stays_in_order fuel src framenum len s :
  well_registered s →
  post (NextFrame picojson_parse fuel src s)
    (λ _, well_registered) (λ _, well_registered) ∧
  post (Seek picojson_parse fuel src framenum s)
    (λ _, well_registered) (λ _, well_registered) ∧
  post (ReadRaw len s) (λ _, well_registered) (λ _, well_registered) ∧
  post (Skip len s) (λ _, well_registered) (λ _, well_registered) ∧
  post (Close s) (λ _, well_registered) (λ _, well_registered) ∧
  (∀ x pss, vec_at (_sources s) x = Some pss →
     PacketStreamSource.id pss = x ∧ ∃ n, GetPacketIndex x s = Ret n s).
Proof.
  intros Hs.
  split; [apply NextFrame_well_registered, Hs|].
  split; [apply Seek_well_registered, Hs|].
  split; [apply ReadRaw_well_registered, Hs|].
  split; [apply Skip_well_registered, Hs|].
  split; [apply Close_well_registered|].
  intros x pss Hx. destruct Hs as [Hid Hlen].
  apply vec_at_Some in Hx as [Hr Hl]. split.
  - rewrite (Hid _ _ Hl). lia.
  - unfold GetPacketIndex. mrun.
    destruct (vec_at (_next_packet_framenum s) x) as [n|] eqn:Hn; [eauto|].
    exfalso. rewrite vec_at_in_range in Hn by lia.
    apply lookup_ge_None in Hn. lia.
Qed.

End Registry.

(** The three-frame stream just opened: its one source. *)
Lemma Open_registers_witness :
  ∃ pss,
    vec_at (_sources (Sample.opened Sample.three_frames)) 0 = Some pss ∧
    PacketStreamSource.id pss = 0 ∧
    GetPacketIndex 0 (Sample.opened Sample.three_frames)
    = Ret 0 (Sample.opened Sample.three_frames).
Proof.
  eexists. split; [vm_compute; reflexivity|].
  refine (Open_registers_sources_under_their_positions Json.parse 10 Sample.path
            (new_reader (Sample.file_world Sample.three_frames))
            (Sample.opened Sample.three_frames) 0 _ _ _).
  - vm_compute; reflexivity.
  - vm_compute; reflexivity.
Defined.

(** The three-frame stream just opened. *)
Lemma registry_stays_witness :
  well_registered (Sample.opened Sample.three_frames) ∧
  post (NextFrame Json.parse 10 0 (Sample.opened Sample.three_frames))
    (λ _, well_registered) (λ _, well_registered).
Proof.
  assert (H : well_registered (Sample.opened Sample.three_frames)).
  { pose proof (Open_well_registered Json.parse 10 Sample.path
                  (new_reader (Sample.file_world Sample.three_frames))) as H.
    unfold Sample.opened, Sample.after.
    destruct (Open Json.parse 10 Sample.path _); simpl in H; try exact H;
      (split; [intros i pss Hl; cbn in Hl; rewrite lookup_nil in Hl; discriminate
             | simpl; lia]). }
  split; [exact H|].
  exact (proj1 (registry_stays_in_order Json.parse 10 0 0 0
                  (Sample.opened Sample.three_frames) H)).
Defined.

(** ** What [Open] turns down *)

Lemma lock_guard_throw {A} (m : M A) s e s1 n :
  m (set_mutex (S (_mutex s)) s) = Throw e s1 → _mutex s1 = S n →
  lock_guard m s = Throw e (set_mutex n s1).
Proof. intros H Hn. unfold lock_guard. rewrite H, Hn. reflexivity. Qed.

Module MagicFacts.

Import PacketStream.

(** One [get] on a stream with no look-ahead: the next byte, or the
    end-of-file value and a failed stream. *)
Lemma get_next st :
  is_open st = true → good st = true → _tag st = 0 → 0 ≤ gpos st →
  match remaining st with
  | b :: r =>
      get st = (b, set_gpos (gpos st + 1) st) ∧
      remaining (set_gpos (gpos st + 1) st) = r
  | [] => (get st).1 = xff ∧ good (get st).2 = false
  end.
Proof.
  intros Ho Hg Ht Hp.
  assert (Hst : set_tag 0 st = st).
  { destruct st; simpl in *; subst; reflexivity. }
  unfold get, base_get, base_read. rewrite Hst, Ho, Hg. simpl.
  destruct (remaining st) as [|b r] eqn:Hr; simpl; [auto|].
  replace (Z.to_nat (1 `min` Z.of_nat (S (length r)))) with 1%nat by lia.
  simpl. split; [reflexivity|].
  unfold remaining in *. simpl.
  destruct (Z.leb_spec 0 (gpos st)); [|lia].
  destruct (Z.ltb_spec (gpos st) (size st)); simpl in Hr; [|discriminate].
  destruct (Z.leb_spec 0 (gpos st + 1)); [|lia].
  assert (Hd : drop (Z.to_nat (gpos st + 1)) (content st) = r).
  { replace (Z.to_nat (gpos st + 1)) with (Z.to_nat (gpos st) + 1)%nat by lia.
    rewrite <- drop_drop, Hr. reflexivity. }
  change (size (set_gpos (gpos st + 1) st)) with (size st).
  destruct (Z.ltb_spec (gpos st + 1) (size st)); simpl; [exact Hd|].
  rewrite <- Hd. symmetry. apply drop_ge. unfold size in *. lia.
Qed.

End MagicFacts.

(** The magic loop accepts the stream exactly when the bytes ahead begin
    with the magic, and otherwise throws on the first byte that differs or is
    missing. *)
Lemma check_magic_run magic : ∀ s,
  Forall (λ b, b ≠ xff) magic →
  PacketStream.is_open (_stream s) = true →
  PacketStream.good (_stream s) = true →
  PacketStream._tag (_stream s) = 0 →
  0 ≤ PacketStream.gpos (_stream s) →
  (magic `prefix_of` PacketStream.remaining (_stream s) →
   ∃ st, check_magic magic s = Ret tt (set_stream st s) ∧
         PacketStream.medium st = PacketStream.medium (_stream s)) ∧
  (¬ magic `prefix_of` PacketStream.remaining (_stream s) →
   ∃ st, check_magic magic s
         = Throw (FormatError UnrecognisedFileHeader) (set_stream st s) ∧
         PacketStream.medium st = PacketStream.medium (_stream s)).
Proof.
  induction magic as [|i rest IH]; intros s Hff Ho Hg Ht Hp.
  { split.
    - intros _. exists (_stream s). split; [destruct s; reflexivity | reflexivity].
    - intros Hn. exfalso. apply Hn, prefix_nil. }
  apply Forall_cons in Hff as [Hi Hrest].
  pose proof (MagicFacts.get_next (_stream s) Ho Hg Ht Hp) as Hget.
  destruct (PacketStream.remaining (_stream s)) as [|b r] eqn:Hr.
  - destruct Hget as [Hc Hbad]. split.
    { intros Hpre. apply prefix_nil_inv in Hpre. discriminate. }
    intros _. simpl check_magic.
    unfold mbind, M_bind, on_stream.
    pose proof (StreamFacts.get_medium (_stream s)) as Hm.
    destruct (PacketStream.get (_stream s)) as [c st1]. simpl in *. subst c.
    destruct (Byte.eqb xff i) eqn:He.
    { apply Byte.byte_dec_bl in He. congruence. }
    simpl. exists st1. split; [reflexivity | exact Hm].
  - destruct Hget as [Hget Hnext].
    set (s1 := set_stream (PacketStream.set_gpos (PacketStream.gpos (_stream s) + 1)
                             (_stream s)) s).
    assert (Hrun0 : check_magic (i :: rest) s
                    = if Byte.eqb b i then check_magic rest s1
                      else Throw (FormatError UnrecognisedFileHeader) s1).
    { simpl check_magic. unfold mbind at 1, M_bind at 1, on_stream at 1. rewrite Hget.
      destruct (Byte.eqb b i); simpl; [|reflexivity].
      unfold mbind at 1, M_bind at 1, ask_stream at 1. simpl. rewrite Hg. reflexivity. }
    rewrite Hrun0. clear Hrun0.
    destruct (Byte.eqb b i) eqn:He.
    + apply Byte.byte_dec_bl in He. subst b.
      specialize (IH s1 Hrest). simpl in IH. rewrite Hnext in IH.
      destruct (IH Ho Hg Ht ltac:(lia)) as [IH1 IH2]. split.
      * intros Hpre. apply prefix_cons_inv_2 in Hpre.
        destruct (IH1 Hpre) as (st & Hrun & Hm). exists st. split; [exact Hrun | exact Hm].
      * intros Hn.
        destruct (IH2 (λ Hpre, Hn (prefix_cons _ _ _ Hpre))) as (st & Hrun & Hm).
        exists st. split; [exact Hrun | exact Hm].
    + split.
      { intros Hpre. apply prefix_cons_inv_1 in Hpre.
        rewrite (Byte.byte_dec_lb (eq_sym Hpre)) in He. discriminate. }
      intros _. eexists. split; [reflexivity | reflexivity].
Qed.

Section OpenErrors.

Variable picojson_parse : list byte → option (json * nat).

(** [Open] up to the point where the stream is opened: the earlier session
    is closed, and the path and its kind are noted. *)
Lemma Open_unfold fuel filename s0 :
  Open picojson_parse fuel filename s0
  = lock_guard
      (Close;;
       modify (set_filename filename);;
       pipe ← gets (λ s, IsPipe (world s) filename);
       modify (set_is_pipe pipe);;
       stream_open filename;;
       opened ← ask_stream PacketStream.is_open;
       if negb opened then throw CannotOpenStream
       else
         check_magic Tag.PANGO_MAGIC;;
         SetupIndex picojson_parse;;
         ParseHeader picojson_parse;;
         parse_leading_sources picojson_parse fuel) s0.
Proof. reflexivity. Qed.

Lemma Open_to_stream fuel filename s0 :
  ∃ sc,
    Open picojson_parse fuel filename s0
    = lock_guard
        (λ _,
           (stream_open filename;;
            opened ← ask_stream PacketStream.is_open;
            if negb opened then throw CannotOpenStream
            else
              check_magic Tag.PANGO_MAGIC;;
              SetupIndex picojson_parse;;
              ParseHeader picojson_parse;;
              parse_leading_sources picojson_parse fuel) sc) s0 ∧
    fs (world sc) = fs (world s0) ∧
    _sources sc = [] ∧
    _mutex sc = S (_mutex s0) ∧
    _filename sc = filename ∧
    _is_pipe sc = IsPipe (world s0) filename ∧
    _index sc = _index s0 ∧
    _pipe_fd sc = _pipe_fd s0 ∧
    os_closed (world sc)
    = (if negb (_pipe_fd s0 =? -1) then [_pipe_fd s0] else []) ++ os_closed (world s0).
Proof.
  rewrite Open_unfold. unfold lock_guard.
  unfold mbind at 1, M_bind at 1. rewrite Close_spec.
  unfold mbind at 1, M_bind at 1, modify at 1.
  unfold mbind at 1, M_bind at 1, gets at 1.
  unfold mbind at 1, M_bind at 1, modify at 1.
  eexists. split; [reflexivity|].
  unfold IsPipe. simpl. destruct (negb (_pipe_fd s0 =? -1)); simpl; repeat split; reflexivity.
Qed.

(** X4: [Open] on a path that cannot be opened throws the cannot-open
    error.  The lock is released, and the earlier session is gone: the stream
    is closed and the registry empty. *)
Theorem Open_of_a_missing_path_throws fuel filename s0 :
  fs (world s0) !! filename = None →
  ∃ s,
    Open picojson_parse fuel filename s0 = Throw CannotOpenStream s ∧
    _mutex s = _mutex s0 ∧
    _sources s = [] ∧
    PacketStream.is_open (_stream s) = false.
Proof.
  intros Hnone.
  destruct (Open_to_stream fuel filename s0)
    as (sc & -> & Hfs & Hsrc & Hm & _).
  unfold lock_guard, mbind, M_bind, stream_open. rewrite Hfs, Hnone. simpl.
  rewrite Hm. eexists. split; [reflexivity|]. simpl. auto.
Qed.

(** X5: [Open] on a regular file that does not begin with the five bytes
    of the magic -- an empty file, a shorter one, one that differs in one of
    them -- throws the unrecognised-header error, with the lock released and
    the registry empty. *)
Theorem Open_without_the_magic_throws fuel filename s0 data :
  fs (world s0) !! filename = Some (RegularFile data) →
  ¬ Tag.PANGO_MAGIC `prefix_of` data →
  ∃ s,
    Open picojson_parse fuel filename s0
    = Throw (FormatError UnrecognisedFileHeader) s ∧
    _mutex s = _mutex s0 ∧
    _sources s = [].
Proof.
  intros Hfile Hpre.
  destruct (Open_to_stream fuel filename s0)
    as (sc & -> & Hfs & Hsrc & Hm & _).
  unfold lock_guard.
  unfold mbind at 1, M_bind at 1, stream_open at 1. rewrite Hfs, Hfile.
  unfold mbind at 1, M_bind at 1, ask_stream at 1. simpl negb. cbv iota.
  set (s1 := set_stream _ sc).
  assert (Hrem : PacketStream.remaining (_stream s1) = data).
  { subst s1. unfold PacketStream.remaining, PacketStream.size. simpl.
    destruct data as [|b data]; reflexivity. }
  destruct (check_magic_run Tag.PANGO_MAGIC s1) as [_ Hthrow];
    try reflexivity; try (simpl; lia).
  { repeat constructor; discriminate. }
  rewrite Hrem in Hthrow. destruct (Hthrow Hpre) as (st & Hrun & _).
  change (PacketStream.is_open (_stream s1)) with true. cbn [negb].
  unfold mbind at 1, M_bind at 1. rewrite Hrun. simpl. rewrite Hm.
  eexists. split; [reflexivity|]. simpl. auto.
Qed.

End OpenErrors.

(** A reader made on a path that nothing is at. *)
Lemma Open_missing_path_witness :
  ∃ s, new_reader_open Json.parse 10 "nowhere"
         (Sample.file_world Sample.three_frames)
       = Throw CannotOpenStream s ∧
       _mutex s = 0%nat ∧ _sources s = [] ∧
       PacketStream.is_open (_stream s) = false.
Proof.
  apply (Open_of_a_missing_path_throws Json.parse 10 "nowhere"
           (new_reader (Sample.file_world Sample.three_frames))).
  vm_compute; reflexivity.
Defined.

(** A reader made on an empty file. *)
Lemma Open_without_magic_witness :
  ∃ s, new_reader_open Json.parse 10 Sample.path (Sample.file_world [])
       = Throw (FormatError UnrecognisedFileHeader) s ∧
       _mutex s = 0%nat ∧ _sources s = [].
Proof.
  apply (Open_without_the_magic_throws Json.parse 10 Sample.path
           (new_reader (Sample.file_world [])) []).
  - vm_compute; reflexivity.
  - intros Hpre. apply prefix_nil_inv in Hpre. discriminate.
Defined.

(** ** Looking for the index *)

Section IndexSetup.

Variable picojson_parse : list byte → option (json * nat).




End IndexSetup.


(** ** The index outlives the session *)

Module FooterFacts.

Import PacketStream.

Lemma peek_failed st :
  _tag st = 0 → good st = false → (peekTag st).1 = Tag.TAG_END.
Proof.
  intros Ht Hg. unfold peekTag, base_read. rewrite Ht. simpl. rewrite Hg, andb_false_r. reflexivity.
Qed.

(** Where the footer would be, a file that does not end with one shows
    another tag, or the end of the stream when it is too short. *)
Lemma no_footer_peek st data :
  medium st = (data, true, false) → ends_with_footer data = false →
  (peekTag (seekg_end (- (8 + Tag.TAG_LENGTH)) st)).1 ≠ Tag.TAG_PANGO_FOOTER.
Proof.
  intros Hm Hnf. unfold medium in Hm. injection Hm as Hc Ho Hp.
  unfold seekg_end, seekable. rewrite Ho, Hp. simpl.
  unfold base_seekg, cclear. simpl. rewrite Ho. simpl.
  assert (Hend : Tag.TAG_END ≠ Tag.TAG_PANGO_FOOTER) by (vm_compute; discriminate).
  destruct (good st) eqn:Hg.
  2:{ rewrite peek_failed; [exact Hend | reflexivity | exact Hg]. }
  unfold size, Tag.TAG_LENGTH in *. rewrite Hc.
  destruct (Z.ltb_spec (Z.of_nat (length data) + - (8 + 3)) 0) as [Hlt|Hge].
  { rewrite peek_failed; [exact Hend | reflexivity | reflexivity]. }
  unfold ends_with_footer, Tag.TAG_LENGTH in Hnf.
  destruct (Z.leb_spec (8 + 3) (Z.of_nat (length data))); [|lia]. simpl in Hnf.
  apply Z.eqb_neq in Hnf.
  destruct (peekTag _) as [x st1] eqn:Hpk. simpl.
  unfold peekTag in Hpk. simpl in Hpk.
  destruct (base_read Tag.TAG_LENGTH _) as [bs st2] eqn:Hr.
  injection Hpk as <- _.
  destruct (good st2) eqn:Hg2; [|exact Hend].
  destruct (TagFacts.base_read_3_good _ _ _ Hr Hg2) as (_ & _ & _ & _ & Hbs & _).
  simpl in Hbs. rewrite Hc in Hbs. rewrite Hbs.
  replace (Z.to_nat (Z.of_nat (length data) + - (8 + 3))) with (length data - 11)%nat
    by lia.
  exact Hnf.
Qed.

End FooterFacts.

Lemma post_lock_guard_mutex {A} (P : PacketStreamReader → Prop) (m : M A) s :
  (∀ s n, P s → P (set_mutex n s)) →
  post (m (set_mutex (S (_mutex s)) s)) (λ _, P) (λ _, P) →
  post (lock_guard m s) (λ _, P) (λ _, P).
Proof.
  intros HP Hm. unfold lock_guard.
  destruct (m _) as [a s'|e s'| | |]; simpl in *; auto;
    destruct (_mutex s'); simpl; auto; apply HP; exact Hm.
Qed.

Section IndexKept.

Variable picojson_parse : list byte → option (json * nat).

Context (I0 : gmap Z (gmap Z Z)) (M0 : list byte * bool * bool).

Ltac kept_leaf :=
  first
    [ assumption
    | apply stable_on_stream; intros ? [? Hmed]; split;
        [assumption | simpl; rewrite <- Hmed; solve [auto with medium]]
    | apply stable_upd_stream; intros ? [? Hmed]; split;
        [assumption | simpl; rewrite <- Hmed; solve [auto with medium]]
    | apply stable_modify; intros ? Hs; exact Hs ].

Ltac kept := repeat first [stable_step | kept_leaf].

Lemma parse_value_kept :
  stable (index_and_medium I0 M0) (parse_value_from_stream picojson_parse).
Proof.
  intros s [Hi Hm]. unfold parse_value_from_stream.
  repeat case_match; simpl; split; assumption.
Qed.

Lemma check_magic_kept magic : stable (index_and_medium I0 M0) (check_magic magic).
Proof. induction magic as [|i rest IH]; simpl; kept. Qed.

Lemma ParseHeader_kept : stable (index_and_medium I0 M0) (ParseHeader picojson_parse).
Proof.
  pose proof parse_value_kept.
  unfold ParseHeader, readTag_expect, json_field, json_checked. kept.
Qed.

Lemma ParseNewSource_kept :
  stable (index_and_medium I0 M0) (ParseNewSource picojson_parse).
Proof.
  pose proof parse_value_kept.
  unfold ParseNewSource, register_source, readTag_expect, json_field, json_checked.
  kept.
Qed.

Lemma parse_leading_sources_kept fuel :
  stable (index_and_medium I0 M0) (parse_leading_sources picojson_parse fuel).
Proof.
  pose proof ParseNewSource_kept.
  induction fuel as [|f IH]; simpl; kept.
Qed.

Lemma SetupIndex_kept :
  (M0.2 = true ∨ M0.1.2 = false ∨
   ∃ data, M0 = (data, true, false) ∧ ends_with_footer data = false) →
  stable (index_and_medium I0 M0) (SetupIndex picojson_parse).
Proof.
  intros Hnf s [Hi Hm]. unfold SetupIndex.
  unfold mbind at 1, M_bind at 1, ask_stream at 1.
  destruct (PacketStream.seekable (_stream s)) eqn:Hseek; simpl;
    [|split; assumption].
  destruct Hnf as [Hp|[Ho|(data & -> & Hnf)]].
  { unfold PacketStream.seekable in Hseek. unfold PacketStream.medium in Hm.
    rewrite <- Hm in Hp. simpl in Hp. rewrite Hp, andb_false_r in Hseek.
    discriminate. }
  { unfold PacketStream.seekable in Hseek. unfold PacketStream.medium in Hm.
    rewrite <- Hm in Ho. simpl in Ho. rewrite Ho in Hseek. discriminate. }
  pose proof (FooterFacts.no_footer_peek _ _ Hm Hnf) as Hpk.
  unfold mbind at 1, M_bind at 1, ask_stream at 1.
  unfold mbind at 1, M_bind at 1, upd_stream at 1.
  unfold mbind at 1, M_bind at 1, on_stream at 1. simpl _stream.
  pose proof (StreamFacts.peekTag_medium
                (PacketStream.seekg_end (- (8 + Tag.TAG_LENGTH)) (_stream s))) as Hm1.
  destruct (PacketStream.peekTag _) as [x st1]. simpl in Hpk, Hm1.
  apply Z.eqb_neq in Hpk. rewrite Hpk.
  unfold mbind, M_bind, mret, M_ret, upd_stream. simpl. split; [exact Hi|].
  rewrite StreamFacts.seekg_medium. unfold PacketStream.clear.
  rewrite StreamFacts.seekg_end_medium in Hm1.
  unfold PacketStream.medium in *. simpl. congruence.
Qed.

End IndexKept.

Section IndexOutlives.

Variable picojson_parse : list byte → option (json * nat).

(** X7: [Open] does not reset the Packet Index.  On a pipe, and on a
    regular file that does not end with a footer, the index after [Open] --
    returned or thrown -- is the index the reader held before, entries of an
    earlier session included. *)
Theorem Open_keeps_the_index_of_the_session_before fuel filename s0 :
  (IsPipe (world s0) filename = true ∨
   ∃ data, fs (world s0) !! filename = Some (RegularFile data) ∧
           ends_with_footer data = false) →
  post (Open picojson_parse fuel filename s0)
    (λ _ s, _index s = _index s0) (λ _ s, _index s = _index s0).
Proof.
  intros Hkind.
  destruct (Open_to_stream picojson_parse fuel filename s0)
    as (sc & -> & Hfs & _ & _ & _ & _ & Hidx & _).
  assert (Hin : ∃ M0,
            (M0.2 = true ∨ M0.1.2 = false ∨
             ∃ data, M0 = (data, true, false) ∧ ends_with_footer data = false) ∧
            post (stream_open filename sc)
              (λ _, index_and_medium (_index s0) M0)
              (λ _, index_and_medium (_index s0) M0)).
  { unfold stream_open, IsPipe in *. rewrite Hfs.
    destruct Hkind as [Hpipe|(data & Hfile & Hnf)].
    - destruct (fs (world s0) !! filename) as [[data|fd [|chunk chunks]]|];
        try discriminate.
      + exists ([], true, true). split; [left; reflexivity|]. simpl. auto.
      + exists (chunk, true, true). split; [left; reflexivity|]. simpl. auto.
    - rewrite Hfile. exists (data, true, false). split; [eauto|]. simpl. auto. }
  destruct Hin as (M0 & HM0 & Hopen).
  apply (post_lock_guard_mutex (λ s, _index s = _index s0));
    [intros ? ? Hs; exact Hs|].
  eapply post_mono with (Q := λ _, index_and_medium (_index s0) M0)
                        (E := λ _, index_and_medium (_index s0) M0);
    [|cbv beta; tauto|cbv beta; tauto].
  apply post_bind. eapply post_mono; [exact Hopen | | cbv beta; tauto].
  cbv beta. intros _ s1 Hs1. revert s1 Hs1.
  change (stable (index_and_medium (_index s0) M0)
            (opened ← ask_stream PacketStream.is_open;
             if negb opened then throw CannotOpenStream
             else
               check_magic Tag.PANGO_MAGIC;;
               SetupIndex picojson_parse;;
               ParseHeader picojson_parse;;
               parse_leading_sources picojson_parse fuel)).
  pose proof (check_magic_kept (_index s0) M0).
  pose proof (SetupIndex_kept picojson_parse (_index s0) M0 HM0).
  pose proof (ParseHeader_kept picojson_parse (_index s0) M0).
  pose proof (parse_leading_sources_kept picojson_parse (_index s0) M0).
  repeat first [stable_step | assumption | solve [eauto]].
Qed.

End IndexOutlives.

(** The three-frame stream, read to its end and opened once more: the
    entries that the reading made are still there. *)
Lemma Open_keeps_the_index_witness :
  PacketIndex.position (_index Sample.read_to_end) 0 2 = Some 214 ∧
  post (Open Json.parse 10 Sample.path Sample.read_to_end)
    (λ _ s, _index s = _index Sample.read_to_end)
    (λ _ s, _index s = _index Sample.read_to_end).
Proof.
  split; [vm_compute; reflexivity|].
  apply (Open_keeps_the_index_of_the_session_before Json.parse 10 Sample.path
           Sample.read_to_end).
  right. exists Sample.three_frames. split; vm_compute; reflexivity.
Defined.

(** ** The descriptor of a pipe *)

Section Descriptor.

Variable picojson_parse : list byte → option (json * nat).

Context (L : list Z).

Ltac fd_leaf :=
  first
    [ assumption
    | apply stable_on_stream; intros ? Hs; exact Hs
    | apply stable_upd_stream; intros ? Hs; exact Hs
    | apply stable_modify; intros ? Hs; exact Hs ].

Ltac fd_tac := repeat first [stable_step | fd_leaf].

Lemma parse_value_closed_only :
  stable (closed_only L) (parse_value_from_stream picojson_parse).
Proof.
  intros s Hs. unfold parse_value_from_stream. repeat case_match; exact Hs.
Qed.

Lemma stream_open_closed_only filename : stable (closed_only L) (stream_open filename).
Proof. intros s Hs. unfold stream_open. repeat case_match; exact Hs. Qed.

Lemma check_magic_closed_only magic : stable (closed_only L) (check_magic magic).
Proof. induction magic as [|i rest IH]; simpl; fd_tac. Qed.

Lemma SetupIndex_closed_only : stable (closed_only L) (SetupIndex picojson_parse).
Proof.
  pose proof parse_value_closed_only.
  unfold SetupIndex, ParseFooter, ParseIndex, readTag_expect, json_field, json_checked.
  fd_tac.
Qed.

Lemma ParseHeader_closed_only : stable (closed_only L) (ParseHeader picojson_parse).
Proof.
  pose proof parse_value_closed_only.
  unfold ParseHeader, readTag_expect, json_field, json_checked. fd_tac.
Qed.

Lemma parse_leading_sources_closed_only fuel :
  stable (closed_only L) (parse_leading_sources picojson_parse fuel).
Proof.
  pose proof parse_value_closed_only.
  induction fuel as [|f IH]; simpl;
    unfold ParseNewSource, register_source, readTag_expect, json_field, json_checked;
    fd_tac.
Qed.

(** [Open] by a reader that holds no descriptor passes nothing to
    [close(2)]. *)
Lemma Open_closed_only fuel filename :
  stable (closed_only L) (Open picojson_parse fuel filename).
Proof.
  intros s0 [Hc Hfd].
  destruct (Open_to_stream picojson_parse fuel filename s0)
    as (sc & -> & _ & _ & _ & _ & _ & _ & Hfd' & Hc').
  rewrite Hfd in Hc'. simpl in Hc'.
  apply (post_lock_guard_mutex (closed_only L)); [intros ? ? Hs; exact Hs|].
  assert (Hsc : closed_only L sc) by (split; congruence).
  revert Hsc. generalize sc.
  change (stable (closed_only L)
            (stream_open filename;;
             opened ← ask_stream PacketStream.is_open;
             if negb opened then throw CannotOpenStream
             else
               check_magic Tag.PANGO_MAGIC;;
               SetupIndex picojson_parse;;
               ParseHeader picojson_parse;;
               parse_leading_sources picojson_parse fuel)).
  pose proof (stream_open_closed_only filename).
  pose proof (check_magic_closed_only Tag.PANGO_MAGIC).
  pose proof SetupIndex_closed_only.
  pose proof ParseHeader_closed_only.
  pose proof (parse_leading_sources_closed_only fuel).
  fd_tac.
Qed.

End Descriptor.

Section DescriptorOnce.

Variable picojson_parse : list byte → option (json * nat).

(** X8: [GoodToRead] passes a descriptor to [close(2)] at most once, and
    only to re-open the pipe; it then no longer holds it.  Whether it returns
    or the re-opening throws, either nothing was closed, or one descriptor
    was, which is not -1, and the reader's descriptor is -1 again. *)
Theorem GoodToRead_closes_a_descriptor_once_and_forgets_it fuel s :
  let closed_at_most_once s' :=
    os_closed (world s') = os_closed (world s) ∨
    ∃ fd, fd ≠ -1 ∧ os_closed (world s') = fd :: os_closed (world s) ∧
          _pipe_fd s' = -1 in
  post (GoodToRead picojson_parse fuel s)
    (λ _, closed_at_most_once) (λ _, closed_at_most_once).
Proof.
  intros Q.
  assert (Hreopen : ∀ fd s1,
            fd ≠ -1 → os_closed (world s1) = fd :: os_closed (world s) →
            _pipe_fd s1 = -1 →
            post (Open picojson_parse fuel (_filename s) s1) (λ _, Q) (λ _, Q)).
  { intros fd s1 Hfd Hc Hp.
    eapply post_mono;
      [apply (Open_closed_only picojson_parse (fd :: os_closed (world s)));
       split; assumption | |]; cbv beta.
    - intros _ s2 [Hc2 Hp2]. right. exists fd. auto.
    - intros _ s2 [Hc2 Hp2]. right. exists fd. auto. }
  assert (Hsame : Q s) by (left; reflexivity).
  unfold GoodToRead, mbind, M_bind, ask_stream, gets, modify, os_close, modify.
  simpl.
  destruct (PacketStream.good (_stream s)); simpl; [exact Hsame|].
  destruct (_is_pipe s); simpl; [|exact Hsame].
  destruct (Z.eqb_spec (_pipe_fd s) (-1)) as [Hfd|Hfd]; simpl.
  - destruct (Z.eqb_spec (ReadablePipeFileDescriptor (world s) (_filename s)) (-1))
      as [Hr|Hr]; simpl; [left; reflexivity|].
    destruct (PipeHasDataToRead (world s) (_filename s)); simpl; [|left; reflexivity].
    match goal with
    | |- context [Open picojson_parse fuel (_filename s) ?s1] =>
        pose proof (Hreopen (ReadablePipeFileDescriptor (world s) (_filename s)) s1
                      Hr eq_refl eq_refl) as Ho;
        destruct (Open picojson_parse fuel (_filename s) s1); simpl in *; exact Ho
    end.
  - destruct (Z.eqb_spec (_pipe_fd s) (-1)) as [Hfd'|_]; [contradiction|]. simpl.
    destruct (PipeHasDataToRead (world s) (_filename s)); simpl; [|exact Hsame].
    match goal with
    | |- context [Open picojson_parse fuel (_filename s) ?s1] =>
        pose proof (Hreopen (_pipe_fd s) s1 Hfd eq_refl eq_refl) as Ho;
        destruct (Open picojson_parse fuel (_filename s) s1); simpl in *; exact Ho
    end.
Qed.

End DescriptorOnce.

(** ** The end of the stream *)

Section EndOfStream.

Variable picojson_parse : list byte → option (json * nat).

Lemma _nextFrame_at_end fuel s x st1 :
  PacketStream.good (_stream s) = true →
  PacketStream.peekTag (_stream s) = (x, st1) →
  x = Tag.TAG_END ∨ x = Tag.TAG_PANGO_FOOTER →
  _nextFrame picojson_parse (S fuel) s = Ret FrameInfo.none (set_stream st1 s).
Proof.
  intros Hg Hp Hx. rewrite _nextFrame_S.
  rewrite (bind_run _ _ _ _ _ (GoodToRead_good picojson_parse fuel s Hg)).
  cbv beta iota.
  rewrite (bind_run _ _ _ _ _ (on_stream_run _ s _ _ Hp)). cbv beta.
  destruct Hx as [-> | ->]; reflexivity.
Qed.

Lemma NextFrame_none_run fuel src s s1 :
  _nextFrame picojson_parse (S fuel) (set_mutex (S (_mutex s)) s)
  = Ret FrameInfo.none (set_mutex (S (_mutex s)) s1) →
  _mutex s1 = _mutex s →
  NextFrame picojson_parse (S (S fuel)) src s = Ret FrameInfo.none s1.
Proof.
  intros H Hm. apply NextFrame_loop_run. rewrite NextFrame_loop_S.
  assert (Hd : NextFrame_dispatch picojson_parse (S fuel) (set_mutex (S (_mutex s)) s)
               = Ret FrameInfo.none (set_mutex (S (_mutex s)) s1)).
  { unfold NextFrame_dispatch. rewrite (bind_run _ _ _ _ _ H). reflexivity. }
  rewrite (bind_run _ _ _ _ _ Hd). cbv beta.
  change (negb (FrameInfo.to_bool FrameInfo.none)) with true. cbv iota.
  unfold mbind, M_bind, Unlock. simpl. rewrite <- Hm.
  destruct s1; reflexivity.
Qed.

(** X9: at the end of the stream [NextFrame] answers with the "no frame"
    sentinel as often as it is asked.  With the END or the FOOTER marker
    ahead on a file, it returns the sentinel and leaves the session as it was
    but for the marker now being the look-ahead; the lock is released; and
    called again in the state it left, it returns the sentinel again and
    leaves that state unchanged. *)
Theorem NextFrame_at_the_end_returns_no_frame_again_and_again fuel src s x st1 :
  _is_pipe s = false →
  PacketStream.good (_stream s) = true →
  PacketStream.peekTag (_stream s) = (x, st1) →
  x = Tag.TAG_END ∨ x = Tag.TAG_PANGO_FOOTER →
  NextFrame picojson_parse (S (S fuel)) src s
  = Ret FrameInfo.none (set_stream st1 s) ∧
  NextFrame picojson_parse (S (S fuel)) src (set_stream st1 s)
  = Ret FrameInfo.none (set_stream st1 s).
Proof.
  intros Hpipe Hg Hp Hx. split.
  - apply NextFrame_none_run; [|reflexivity].
    apply (_nextFrame_at_end fuel (set_mutex (S (_mutex s)) s) x st1 Hg Hp Hx).
  - assert (Hx0 : x ≠ 0) by (destruct Hx as [-> | ->]; vm_compute; discriminate).
    pose proof (peekTag_again _ _ _ Hp Hx0) as Hp1.
    destruct (PacketStream.good st1) eqn:Hg1.
    + apply NextFrame_none_run; [|reflexivity].
      apply (_nextFrame_at_end fuel (set_mutex (S (_mutex s)) (set_stream st1 s))
               x st1 Hg1 Hp1 Hx).
    + apply NextFrame_none_run; [|reflexivity].
      rewrite _nextFrame_S.
      assert (Hgr : GoodToRead picojson_parse fuel
                      (set_mutex (S (_mutex s)) (set_stream st1 s))
                    = Ret false (set_mutex (S (_mutex s)) (set_stream st1 s))).
      { unfold GoodToRead, mbind, M_bind, ask_stream, gets. simpl.
        rewrite Hg1. simpl. rewrite Hpipe. reflexivity. }
      rewrite (bind_run _ _ _ _ _ Hgr). reflexivity.
Qed.

End EndOfStream.

(** The three-frame stream with its three frames read: END is ahead. *)
Lemma NextFrame_at_the_end_witness :
  let s := Sample.read_to_end in
  let st1 := (PacketStream.peekTag (_stream s)).2 in
  NextFrame Json.parse 10 0 s = Ret FrameInfo.none (set_stream st1 s) ∧
  NextFrame Json.parse 10 0 (set_stream st1 s) = Ret FrameInfo.none (set_stream st1 s).
Proof.
  intros s st1.
  apply (NextFrame_at_the_end_returns_no_frame_again_and_again Json.parse 8 0 s
           Tag.TAG_END st1).
  - vm_compute; reflexivity.
  - vm_compute; reflexivity.
  - vm_compute; reflexivity.
  - left. reflexivity.
Defined.

(** ** The frame that [NextFrame] returns *)

Lemma hoare_any {A} (P : PacketStreamReader → Prop) (m : M A) :
  hoare P m (λ _ _, True).
Proof. intros s _. destruct (m s); exact I. Qed.

Section FrameFacts.

Variable picojson_parse : list byte → option (json * nat).

(** A frame that the dispatcher finds was parsed by [readFrameHeader], and
    the session is left as that left it. *)
Lemma _nextFrame_from_header fuel :
  hoare (λ _, True) (_nextFrame picojson_parse fuel)
    (λ fi s1,
       FrameInfo.to_bool fi = true →
       ∃ sA, readFrameHeader picojson_parse sA = Ret fi s1).
Proof.
  induction fuel as [|f IH]; [intros s _; exact I|].
  rewrite _nextFrame_S.
  eapply hoare_bind; [apply hoare_any|]. intros ready. cbv beta.
  destruct ready; [|apply hoare_mret; intros s _ Hb; discriminate Hb].
  eapply hoare_bind; [apply hoare_any|]. intros x. cbv beta.
  assert (Hrec : ∀ m : M unit,
             hoare (λ _, True) (m;; _nextFrame picojson_parse f)
               (λ fi s1,
                  FrameInfo.to_bool fi = true →
                  ∃ sA, readFrameHeader picojson_parse sA = Ret fi s1)).
  { intros m. eapply hoare_bind; [apply hoare_any|]. intros ?. exact IH. }
  repeat lazymatch goal with
         | |- hoare _ (if ?b then _ else _) _ => destruct b
         end;
    try apply Hrec;
    try (apply hoare_mret; intros s _ Hb; discriminate Hb).
  intros s _.
  destruct (readFrameHeader picojson_parse s) as [fi s1| | | |] eqn:E;
    simpl; auto. intros _. exists s. exact E.
Qed.

(** The payload size in a header is the declared size of the source when
    that is not zero. *)
Lemma readFrameHeader_size s fi s1 :
  readFrameHeader picojson_parse s = Ret fi s1 →
  ∃ pss, vec_at (_sources s1) (FrameInfo.src fi) = Some pss ∧
         (PacketStreamSource.data_size_bytes pss ≠ 0 →
          FrameInfo.size fi = PacketStreamSource.data_size_bytes pss).
Proof.
  intros H.
  pose proof (registry_frameable (_sources s) (_next_packet_framenum s)) as HP0.
  set (P0 := λ s' : PacketStreamReader,
         _sources s' = _sources s ∧ _next_packet_framenum s' = _next_packet_framenum s)
    in HP0.
  assert (H0 : P0 s) by (split; reflexivity).
  assert (Hall : P0 s1).
  { eapply stable_Ret; [|exact H0|exact H]. apply readFrameHeader_framed, HP0. }
  destruct Hall as [Hs1 _]. rewrite Hs1.
  unfold readFrameHeader, read_packet_header in H.
  bind_inv H as pos0 sa Ra. injection Ra as <- <-.
  bind_inv H as x sb Rb.
  assert (Hb : P0 sb) by (eapply stable_Ret; [|exact H0|exact Rb]; framed_with HP0).
  bind_inv H as [src0 meta0] sc Rc.
  assert (Hc : P0 sc) by (eapply stable_Ret; [|exact Hb|exact Rc]; framed_with HP0).
  bind_inv H as pos1 sd Rd. injection Rd as <- <-.
  bind_inv H as t0 se Re.
  assert (He : P0 se) by (eapply stable_Ret; [|exact Hc|exact Re]; framed_with HP0).
  bind_inv H as time sf Rf.
  assert (Hf : P0 sf) by (eapply stable_Ret; [|exact He|exact Rf]; framed_with HP0).
  bind_inv H as src sg Rg.
  assert (Hg : P0 sg) by (eapply stable_Ret; [|exact Hf|exact Rg]; framed_with HP0).
  bind_inv H as sources sh Rh. injection Rh as <- <-.
  destruct (vec_at (_sources sg) src) as [pss|] eqn:Hpss; [|discriminate].
  bind_inv H as size si Ri.
  bind_inv H as k sj Rj. injection H as <- <-. simpl.
  destruct Hg as [Hg1 _]. rewrite Hg1 in Hpss.
  exists pss. split; [exact Hpss|]. intros Hnz.
  destruct (Z.eqb_spec (PacketStreamSource.data_size_bytes pss) 0) as [Hz|_];
    [contradiction|].
  injection Ri as <- _. reflexivity.
Qed.

Lemma NextFrame_dispatch_frame fuel s fi s1 :
  NextFrame_dispatch picojson_parse fuel s = Ret fi s1 →
  FrameInfo.to_bool fi = true →
  PacketStream.data_len (_stream s1) = FrameInfo.size fi ∧
  ∃ pss, vec_at (_sources s1) (FrameInfo.src fi) = Some pss ∧
         (PacketStreamSource.data_size_bytes pss ≠ 0 →
          FrameInfo.size fi = PacketStreamSource.data_size_bytes pss).
Proof.
  intros H Hfi. unfold NextFrame_dispatch in H. bind_inv H as fi0 sa Ra.
  destruct (FrameInfo.to_bool fi0) eqn:Hb; simpl in H.
  2:{ injection H as <- <-. congruence. }
  destruct (hoare_Ret _ _ _ _ _ _ (_nextFrame_from_header fuel) I Ra Hb) as [sA HsA].
  destruct (readFrameHeader_size _ _ _ HsA) as (pss & Hpss & Hsize).
  bind_inv H as cnt sb Rb. injection Rb as <- <-.
  destruct (vec_at (_next_packet_framenum sa) (FrameInfo.src fi0)) as [k|] eqn:Hk;
    [|discriminate].
  bind_inv H as u sc Rc. injection Rc as _ <-.
  bind_inv H as seekable sd Rd. injection Rd as <- <-.
  bind_inv H as u1 se Re.
  assert (Hse : _sources se = _sources sa).
  { eapply (stable_Ret (λ s', _sources s' = _sources sa)); [| |exact Re].
    - unfold index_position, PANGO_ENSURE, pango_print_warn.
      repeat first [stable_step | apply stable_modify; intros ? Hs'; exact Hs'].
    - reflexivity. }
  bind_inv H as u2 sf Rf. injection Rf as _ <-. injection H as <- <-.
  split; [reflexivity|]. exists pss. simpl. rewrite Hse. auto.
Qed.

Lemma NextFrame_loop_frame fuel src : ∀ s fi s1,
  NextFrame_loop picojson_parse fuel src s = Ret fi s1 →
  FrameInfo.to_bool fi = true →
  FrameInfo.src fi = src ∧
  PacketStream.data_len (_stream s1) = FrameInfo.size fi ∧
  ∃ pss, vec_at (_sources s1) src = Some pss ∧
         (PacketStreamSource.data_size_bytes pss ≠ 0 →
          FrameInfo.size fi = PacketStreamSource.data_size_bytes pss).
Proof.
  induction fuel as [|f IH]; intros s fi s1 H Hfi; [discriminate|].
  rewrite NextFrame_loop_S in H. bind_inv H as fi0 sa Ra.
  destruct (FrameInfo.to_bool fi0) eqn:Hb; simpl in H.
  2:{ bind_inv H as u sb Rb. injection H as <- <-. congruence. }
  destruct (Z.eqb_spec (FrameInfo.src fi0) src) as [Hsrc|Hsrc].
  - injection H as <- <-.
    destruct (NextFrame_dispatch_frame _ _ _ _ Ra Hb) as (Hw & pss & Hpss & Hsz).
    rewrite Hsrc in Hpss. eauto.
  - bind_inv H as u sb Rb. exact (IH _ _ _ H Hfi).
Qed.

(** What holds of a frame that [NextFrame] returns. *)
Lemma NextFrame_frame fuel src s fi s1 :
  NextFrame picojson_parse fuel src s = Ret fi s1 →
  FrameInfo.to_bool fi = true →
  FrameInfo.src fi = src ∧
  _mutex s1 = S (_mutex s) ∧
  PacketStream.data_len (_stream s1) = FrameInfo.size fi ∧
  ∃ pss, vec_at (_sources s1) src = Some pss ∧
         (PacketStreamSource.data_size_bytes pss ≠ 0 →
          FrameInfo.size fi = PacketStreamSource.data_size_bytes pss).
Proof.
  intros H Hfi. unfold NextFrame in H. bind_inv H as u s0 R0.
  injection R0 as _ <-. unfold try_catch in H.
  pose proof (NextFrame_loop_lock picojson_parse fuel src
                (set_mutex (S (_mutex s)) s) (_mutex s) eq_refl) as Hl.
  destruct (NextFrame_loop picojson_parse fuel src (set_mutex (S (_mutex s)) s))
    as [fi' s'|e s'| | |] eqn:E; try discriminate.
  - injection H as <- <-. rewrite Hfi in Hl. destruct Hl as [_ Hm].
    destruct (NextFrame_loop_frame _ _ _ _ _ E Hfi) as (Hsrc & Hw & Hpss).
    auto.
  - unfold mbind, M_bind, Unlock in H. rewrite Hl in H. discriminate.
Qed.

(** X10: a frame that [NextFrame] returns is one of the source asked for,
    that source is registered, the data window is declared on the frame's
    payload size, and for a source of fixed (non-zero) payload size that is
    the size the source declared. *)
Theorem NextFrame_returns_a_frame_of_the_source_asked_for fuel src s fi s1 :
  NextFrame picojson_parse fuel src s = Ret fi s1 →
  FrameInfo.to_bool fi = true →
  FrameInfo.src fi = src ∧
  PacketStream.data_len (_stream s1) = FrameInfo.size fi ∧
  ∃ pss, vec_at (_sources s1) src = Some pss ∧
         (PacketStreamSource.data_size_bytes pss ≠ 0 →
          FrameInfo.size fi = PacketStreamSource.data_size_bytes pss).
Proof.
  intros H Hfi.
  destruct (NextFrame_frame _ _ _ _ _ H Hfi) as (Hsrc & _ & Hw & Hpss). auto.
Qed.

(** X11: a frame with an empty payload cannot be consumed.  When
    [NextFrame] returns a frame of size zero, [ReadRaw] and [Skip] of any
    length throw and change nothing, so the hold of the mutex that
    [NextFrame] took for the frame stays. *)
Theorem frame_with_empty_payload_keeps_the_lock fuel src s fi s1 len :
  NextFrame picojson_parse fuel src s = Ret fi s1 →
  FrameInfo.to_bool fi = true →
  FrameInfo.size fi = 0 →
  ReadRaw len s1 = Throw InvalidState s1 ∧
  Skip len s1 = Throw InvalidState s1 ∧
  _mutex s1 = S (_mutex s).
Proof.
  intros H Hfi Hz.
  destruct (NextFrame_frame _ _ _ _ _ H Hfi) as (_ & Hm & Hw & _).
  rewrite Hz in Hw.
  unfold ReadRaw, Skip, mbind, M_bind, ask_stream. rewrite Hw. auto.
Qed.

(** X12: consuming the whole payload of a frame gives the lock back.
    After [NextFrame] has returned a frame with a payload, a [Skip] of the
    payload size returns with the mutex as it was before [NextFrame]; and a
    [ReadRaw] or a [Skip] of any length returns with the mutex as it was
    before [NextFrame] if it has used up the window, and held once more
    otherwise. *)
Theorem consuming_the_payload_gives_the_lock_back fuel src s fi s1 :
  NextFrame picojson_parse fuel src s = Ret fi s1 →
  FrameInfo.to_bool fi = true →
  0 < FrameInfo.size fi →
  (∃ s2, Skip (FrameInfo.size fi) s1 = Ret (FrameInfo.size fi) s2 ∧
         PacketStream.data_len (_stream s2) = 0 ∧ _mutex s2 = _mutex s) ∧
  (∀ len n s2, Skip len s1 = Ret n s2 →
     _mutex s2 = if PacketStream.data_len (_stream s2) =? 0
                 then _mutex s else S (_mutex s)) ∧
  (∀ len bs s2, ReadRaw len s1 = Ret bs s2 →
     _mutex s2 = if PacketStream.data_len (_stream s2) =? 0
                 then _mutex s else S (_mutex s)).
Proof.
  intros H Hfi Hpos.
  destruct (NextFrame_frame _ _ _ _ _ H Hfi) as (_ & Hm & Hw & _).
  assert (Hnz : (PacketStream.data_len (_stream s1) =? 0) = false) by lia.
  split; [|split].
  - unfold Skip, mbind, M_bind, ask_stream. rewrite Hnz, Hw.
    rewrite Z.ltb_irrefl. simpl.
    unfold on_stream, PacketStream.skip. simpl.
    set (st1 := if PacketStream.seekable _ then _ else _).
    assert (Hd : PacketStream._data_len st1 = FrameInfo.size fi).
    { subst st1. unfold PacketStream.base_seekg, PacketStream.base_ignore.
      repeat match goal with |- context [if ?b then _ else _] => destruct b end;
        simpl; exact Hw. }
    simpl. rewrite Hd, Z.sub_diag. simpl. unfold Unlock. simpl. rewrite Hm.
    eexists. split; [reflexivity|]. split; reflexivity.
  - intros len n s2 R. unfold Skip in R.
    bind_inv R as remain sa Ra. injection Ra as <- <-.
    bind_inv R as len' sb Rb.
    assert (Hsb : _mutex sb = _mutex s1 ∧ True).
    { split; [|exact I]. rewrite Hnz in Rb.
      destruct (_ <? _) in Rb; [bind_inv Rb as u sc Rc; injection Rc as _ <-|];
        injection Rb as _ <-; reflexivity. }
    destruct Hsb as [Hsb _].
    bind_inv R as r sc Rc. unfold on_stream in Rc.
    destruct (PacketStream.skip len' (_stream sb)) as [r' st'] eqn:Esk.
    injection Rc as -> <-.
    bind_inv R as remain' sd Rd. injection Rd as <- <-.
    bind_inv R as u se Re. injection R as _ <-. simpl in Re.
    destruct (PacketStream.data_len st' =? 0) eqn:E0.
    + unfold Unlock in Re. simpl in Re. rewrite Hsb, Hm in Re.
      injection Re as _ <-. simpl. rewrite E0. reflexivity.
    + injection Re as _ <-. simpl. rewrite E0. congruence.
  - intros len bs s2 R. unfold ReadRaw in R.
    bind_inv R as remain sa Ra. injection Ra as <- <-.
    bind_inv R as len' sb Rb.
    assert (Hsb : _mutex sb = _mutex s1).
    { rewrite Hnz in Rb.
      destruct (_ <? _) in Rb; [bind_inv Rb as u sc Rc; injection Rc as _ <-|];
        injection Rb as _ <-; reflexivity. }
    bind_inv R as r sc Rc. unfold on_stream in Rc.
    destruct (PacketStream.read len' (_stream sb)) as [r' st'] eqn:Esk.
    injection Rc as -> <-.
    bind_inv R as remain' sd Rd. injection Rd as <- <-.
    bind_inv R as u se Re. injection R as _ <-. simpl in Re.
    destruct (PacketStream.data_len st' =? 0) eqn:E0.
    + unfold Unlock in Re. simpl in Re. rewrite Hsb, Hm in Re.
      injection Re as _ <-. simpl. rewrite E0. reflexivity.
    + injection Re as _ <-. simpl. rewrite E0. congruence.
Qed.

End FrameFacts.

(** The first frame of the three-frame stream. *)
Lemma NextFrame_frame_witness :
  let s := Sample.opened Sample.three_frames in
  let fi := Sample.returned FrameInfo.none (NextFrame Json.parse 10 0 s) in
  FrameInfo.src fi = 0 ∧
  PacketStream.data_len (_stream Sample.at_first_payload) = FrameInfo.size fi ∧
  ∃ pss, vec_at (_sources Sample.at_first_payload) 0 = Some pss ∧
         (PacketStreamSource.data_size_bytes pss ≠ 0 →
          FrameInfo.size fi = PacketStreamSource.data_size_bytes pss).
Proof.
  intros s fi.
  apply (NextFrame_returns_a_frame_of_the_source_asked_for Json.parse 10 0 s fi
           Sample.at_first_payload).
  - vm_compute; reflexivity.
  - vm_compute; reflexivity.
Defined.

(** The stream whose first frame is empty: the frame is returned, and then
    neither [ReadRaw] nor [Skip] takes it. *)
Lemma empty_payload_witness :
  let s := Sample.opened Edge.empty_frame in
  let s1 := Sample.after (NextFrame Json.parse 10 0 s) in
  ReadRaw 1 s1 = Throw InvalidState s1 ∧
  Skip 1 s1 = Throw InvalidState s1 ∧
  _mutex s1 = S (_mutex s).
Proof.
  intros s s1.
  apply (frame_with_empty_payload_keeps_the_lock Json.parse 10 0 s
           (Sample.returned FrameInfo.none (NextFrame Json.parse 10 0 s)) s1 1).
  - vm_compute; reflexivity.
  - vm_compute; reflexivity.
  - vm_compute; reflexivity.
Defined.

(** The first frame of the three-frame stream, skipped whole. *)
Lemma consuming_the_payload_witness :
  let s := Sample.opened Sample.three_frames in
  ∃ s2, Skip 16 Sample.at_first_payload = Ret 16 s2 ∧
        PacketStream.data_len (_stream s2) = 0 ∧ _mutex s2 = _mutex s.
Proof.
  intros s.
  refine (proj1 (consuming_the_payload_gives_the_lock_back Json.parse 10 0 s
                   (Sample.returned FrameInfo.none (NextFrame Json.parse 10 0 s))
                   Sample.at_first_payload _ _ _)).
  - vm_compute; reflexivity.
  - vm_compute; reflexivity.
  - vm_compute; reflexivity.
Defined.

(** ** The lock across a seek *)

Section SeekLock.

Variable picojson_parse : list byte → option (json * nat).

(** Each frame that the read-ahead of [Seek] makes [NextFrame] return
    leaves one hold of the mutex behind: the payload is passed by a skip of
    the stream, which releases nothing. *)
Lemma seek_read_ahead_lock fuel src framenum : ∀ s s1,
  seek_read_ahead picojson_parse fuel src framenum s = Ret tt s1 →
  (PacketIndex.has (_index s) src framenum = true → s1 = s) ∧
  (PacketIndex.has (_index s) src framenum = false → (_mutex s < _mutex s1)%nat) ∧
  (_mutex s ≤ _mutex s1)%nat.
Proof.
  induction fuel as [|f IH]; intros s s1 H; [discriminate|].
  simpl in H. bind_inv H as idx sa Ra. injection Ra as <- <-.
  destruct (PacketIndex.has (_index s) src framenum) eqn:Hhas; simpl in H.
  { injection H as <-. split; [reflexivity|]. split; [discriminate|lia]. }
  bind_inv H as u sb Rb. injection Rb as _ <-.
  bind_inv H as remain sc Rc. injection Rc as <- <-.
  bind_inv H as u1 sd Rd.
  assert (Hsd : _mutex sd = _mutex s).
  { destruct (negb _) in Rd.
    - bind_inv Rd as u2 se Re. injection Rd as _ <-. unfold on_stream in Re.
      destruct (PacketStream.skip _ _) in Re. injection Re as _ <-. reflexivity.
    - injection Rd as _ <-. reflexivity. }
  bind_inv H as fi se Re.
  destruct (FrameInfo.to_bool fi) eqn:Hfi; simpl in H; [|discriminate].
  destruct (NextFrame_frame picojson_parse _ _ _ _ _ Re Hfi) as (_ & Hm & _).
  destruct (IH _ _ H) as (_ & _ & Hle).
  split; [discriminate|]. split; [intros _|]; lia.
Qed.

Lemma Seek_tail_neutral src framenum n :
  stable (λ s, _mutex s = n)
    (target_header_start ← index_position src framenum;
     upd_stream (PacketStream.seekg target_header_start);;
     framenums ← gets _next_packet_framenum;
     (if (0 <=? src) && (src <? Z.of_nat (length framenums))
      then modify (set_next_packet_framenum (vec_set framenums src framenum))
      else undefined);;
     r ← readFrameHeader picojson_parse;
     upd_stream (PacketStream.seekg (FrameInfo.packet_streampos r));;
     mret r).
Proof.
  pose proof (index_position_neutral src framenum n).
  pose proof (readFrameHeader_neutral picojson_parse n).
  repeat first
    [ assumption
    | stable_step
    | apply stable_modify; intros ? Hs; exact Hs
    | apply stable_upd_stream; intros ? Hs; exact Hs ].
Qed.

(** X13: a [Seek] that has to read ahead does not give the lock back.  With
    no payload window pending, a [Seek] to a pair the Packet Index holds
    returns with the mutex as it found it; a [Seek] to a pair the index does
    not hold yet, when it returns, leaves the mutex held more often than it
    found it: the holds that [NextFrame] took for the frames read ahead are
    never released. *)
Theorem Seek_that_reads_ahead_returns_holding_the_lock fuel src framenum s r s' :
  PacketStream.data_len (_stream s) = 0 →
  Seek picojson_parse fuel src framenum s = Ret r s' →
  (PacketIndex.has (_index s) src framenum = true → _mutex s' = _mutex s) ∧
  (PacketIndex.has (_index s) src framenum = false → (_mutex s < _mutex s')%nat).
Proof.
  intros Hwin H. rewrite Seek_unfold in H.
  apply lock_guard_Ret_inv in H as (s1 & n & H & Hn & ->).
  bind_inv H as seekable sa Ra. injection Ra as <- <-.
  destruct (PacketStream.seekable _); [|discriminate]. simpl in H.
  bind_inv H as sources sb Rb. injection Rb as <- <-.
  destruct (_ <? src); [discriminate|].
  unfold Seek_body in H.
  bind_inv H as remain sc Rc. injection Rc as <- <-. simpl in H.
  rewrite Hwin in H. simpl in H.
  bind_inv H as u sd Rd. injection Rd as _ <-.
  bind_inv H as u1 se Re. destruct u1.
  destruct (seek_read_ahead_lock _ _ _ _ _ Re) as (Hhit & Hmiss & _).
  simpl in Hhit, Hmiss.
  pose proof (stable_Ret _ _ _ _ _ (Seek_tail_neutral src framenum (_mutex se))
                eq_refl H) as Htail.
  simpl in Htail. simpl. split; intros Hhas.
  - rewrite (Hhit Hhas) in Htail. simpl in Htail. lia.
  - specialize (Hmiss Hhas). lia.
Qed.

(** X14: the descriptor that [Seek] returns carries the sequence number
    asked for, when the frame at the indexed position is one of the source
    asked for; and the counter of that source is left at that number, not
    one past it, so that [GetPacketIndex] answers with it. *)
Theorem Seek_returns_the_sequence_number_asked_for fuel src framenum s r s' :
  Seek picojson_parse fuel src framenum s = Ret r s' →
  GetPacketIndex src s' = Ret framenum s' ∧
  (FrameInfo.src r = src → FrameInfo.sequence_num r = framenum).
Proof.
  intros H. rewrite Seek_unfold in H.
  apply lock_guard_Ret_inv in H as (s1 & n & H & Hn & ->).
  bind_inv H as seekable sa Ra. injection Ra as <- <-.
  destruct (PacketStream.seekable _); [|discriminate]. simpl in H.
  bind_inv H as sources sb Rb. injection Rb as <- <-.
  destruct (_ <? src); [discriminate|].
  unfold Seek_body in H.
  bind_inv H as remain sc Rc. bind_inv H as u sd Rd. bind_inv H as u1 se Re.
  bind_inv H as pos sf Rf. bind_inv H as u2 sg Rg.
  bind_inv H as framenums sh Rh. injection Rh as <- <-.
  bind_inv H as u3 si Ri.
  destruct (Z.leb_spec 0 src) as [H0|]; [|discriminate].
  destruct (Z.ltb_spec src (Z.of_nat (length (_next_packet_framenum sg)))) as [H1|];
    [|discriminate].
  simpl in Ri. injection Ri as _ <-.
  bind_inv H as r0 sj Rj.
  destruct (readFrameHeader_result picojson_parse _ _ _ Rj) as (_ & Hc & _ & Hseq).
  simpl in Hc, Hseq.
  bind_inv H as u4 sk Rk. injection Rk as _ <-. injection H as <- <-.
  assert (Hat : vec_at (vec_set (_next_packet_framenum sg) src framenum) src
                = Some framenum) by (apply vec_at_set_eq; lia).
  split.
  - unfold GetPacketIndex, mbind, M_bind, gets. simpl. rewrite Hc, Hat. reflexivity.
  - intros Hsrc. rewrite Hsrc, Hat in Hseq. congruence.
Qed.

End SeekLock.

(** The three-frame stream just opened: its index is empty, and a seek to
    the second frame reads two frames ahead. *)
Lemma Seek_reads_ahead_witness :
  let s := Sample.opened Sample.three_frames in
  (_mutex s < _mutex (Sample.after (Seek Json.parse 10 0 1 s)))%nat.
Proof.
  intros s.
  refine (proj2 (Seek_that_reads_ahead_returns_holding_the_lock Json.parse 10 0 1 s
                   (Sample.returned FrameInfo.none (Seek Json.parse 10 0 1 s))
                   (Sample.after (Seek Json.parse 10 0 1 s)) _ _) _).
  - vm_compute; reflexivity.
  - vm_compute; reflexivity.
  - vm_compute; reflexivity.
Defined.

(** The same seek: the descriptor has the sequence number 1. *)
Lemma Seek_sequence_number_witness :
  let s := Sample.opened Sample.three_frames in
  let s' := Sample.after (Seek Json.parse 10 0 1 s) in
  GetPacketIndex 0 s' = Ret 1 s' ∧
  FrameInfo.sequence_num (Sample.returned FrameInfo.none (Seek Json.parse 10 0 1 s)) = 1.
Proof.
  intros s s'.
  destruct (Seek_returns_the_sequence_number_asked_for Json.parse 10 0 1 s
              (Sample.returned FrameInfo.none (Seek Json.parse 10 0 1 s)) s')
    as [Hc Hn].
  - vm_compute; reflexivity.
  - split; [exact Hc|]. apply Hn. vm_compute; reflexivity.
Defined.

(** ** The index entry of a frame *)

Lemma position_add idx source packet pos :
  PacketIndex.position (PacketIndex.add idx source packet pos) source packet = Some pos.
Proof.
  unfold PacketIndex.position, PacketIndex.add.
  rewrite lookup_insert_eq. apply lookup_insert_eq.
Qed.

Section FrameIndexed.

Variable picojson_parse : list byte → option (json * nat).

(** A frame that [NextFrame] returns was dispatched, and the session is as
    the dispatch left it. *)
Lemma NextFrame_loop_dispatched fuel src : ∀ s fi s1,
  NextFrame_loop picojson_parse fuel src s = Ret fi s1 →
  FrameInfo.to_bool fi = true →
  ∃ f s0, NextFrame_dispatch picojson_parse f s0 = Ret fi s1.
Proof.
  induction fuel as [|f IH]; intros s fi s1 H Hfi; [discriminate|].
  rewrite NextFrame_loop_S in H. bind_inv H as fi0 sa Ra.
  destruct (FrameInfo.to_bool fi0) eqn:Hb; simpl in H.
  2:{ bind_inv H as u sb Rb. injection H as <- <-. congruence. }
  destruct (FrameInfo.src fi0 =? src).
  - injection H as <- <-. eauto.
  - bind_inv H as u sb Rb. exact (IH _ _ _ H Hfi).
Qed.

Lemma NextFrame_dispatched fuel src s fi s1 :
  NextFrame picojson_parse fuel src s = Ret fi s1 →
  FrameInfo.to_bool fi = true →
  ∃ f s0, NextFrame_dispatch picojson_parse f s0 = Ret fi s1.
Proof.
  intros H Hfi. unfold NextFrame in H. bind_inv H as u s0 R0.
  unfold try_catch in H.
  destruct (NextFrame_loop picojson_parse fuel src s0) as [fi' s'|e s'| | |] eqn:E;
    try discriminate.
  - injection H as <- <-. exact (NextFrame_loop_dispatched _ _ _ _ _ E Hfi).
  - bind_inv H as u1 sb Rb. discriminate.
Qed.

Lemma NextFrame_dispatch_indexed fuel s fi s1 :
  NextFrame_dispatch picojson_parse fuel s = Ret fi s1 →
  FrameInfo.to_bool fi = true →
  PacketStream.seekable (_stream s1) = true →
  ∃ pos,
    PacketIndex.position (_index s1) (FrameInfo.src fi) (FrameInfo.sequence_num fi)
    = Some pos ∧
    (pos = FrameInfo.frame_streampos fi ∨ pos = FrameInfo.packet_streampos fi).
Proof.
  intros H Hfi Hseek. unfold NextFrame_dispatch in H. bind_inv H as fi0 sa Ra.
  destruct (FrameInfo.to_bool fi0) eqn:Hb; simpl in H.
  2:{ injection H as <- <-. congruence. }
  bind_inv H as cnt sb Rb. injection Rb as <- <-.
  destruct (vec_at (_next_packet_framenum sa) (FrameInfo.src fi0)) as [k|] eqn:Hk;
    [|discriminate].
  bind_inv H as u sc Rc. injection Rc as _ <-.
  bind_inv H as seekable sd Rd. injection Rd as <- <-.
  bind_inv H as u1 se Re.
  bind_inv H as u2 sf Rf. injection Rf as _ <-. injection H as <- <-.
  simpl in Hseek |- *.
  assert (Hmed : PacketStream.seekable (_stream se) = PacketStream.seekable (_stream sa)
                 ∧ ∃ pos,
                     PacketIndex.position (_index se) (FrameInfo.src fi0)
                       (FrameInfo.sequence_num fi0) = Some pos ∧
                     (pos = FrameInfo.frame_streampos fi0
                      ∨ pos = FrameInfo.packet_streampos fi0)).
  2:{ apply Hmed. }
  simpl in Re.
  destruct (PacketStream.seekable (_stream sa)) eqn:Hsa.
  2:{ injection Re as _ <-. simpl in Hseek.
      unfold PacketStream.seekable in Hseek, Hsa. simpl in Hseek. congruence. }
  bind_inv Re as idx sg Rg. injection Rg as <- <-. simpl in Re.
  destruct (PacketIndex.has _ _ _) eqn:Hhas; simpl in Re.
  2:{ injection Re as _ <-. simpl. split; [exact Hsa|].
      eexists. split; [apply position_add | left; reflexivity]. }
  bind_inv Re as pos sh Rh. unfold index_position in Rh.
  bind_inv Rh as idx' si Ri. injection Ri as <- <-. simpl in Rh.
  destruct (PacketIndex.position _ _ _) as [p|] eqn:Hp; [|discriminate].
  injection Rh as <- <-.
  destruct (Z.eqb_spec p (FrameInfo.frame_streampos fi0)) as [Heq|Hne]; simpl in Re.
  { injection Re as _ <-. simpl. split; [exact Hsa|]. eauto. }
  bind_inv Re as pos' sj Rj. unfold index_position in Rj.
  bind_inv Rj as idx'' sk Rk. injection Rk as <- <-. simpl in Rj.
  rewrite Hp in Rj. injection Rj as <- <-.
  bind_inv Re as u3 sl Rl. unfold PANGO_ENSURE in Rl.
  destruct (Z.eqb_spec p (FrameInfo.packet_streampos fi0)) as [Heq|_];
    [|discriminate].
  injection Rl as _ <-.
  assert (Hkeep : _index se = _index sa ∧ _stream se = _stream sa).
  { eapply (stable_Ret (λ s', _index s' = _index sa ∧ _stream s' = _stream sa));
      [| |exact Re].
    - unfold pango_print_warn.
      repeat first [stable_step | apply stable_modify; intros ? Hs'; exact Hs'].
    - split; reflexivity. }
  destruct Hkeep as [Hi Hst]. rewrite Hi, Hst. split; [exact Hsa|]. eauto.
Qed.

(** X15: on a seekable medium, a frame that [NextFrame] returns is in the
    Packet Index when the call returns, under its source and its sequence
    number, at the position of its header or at that of its packet
    marker. *)
Theorem NextFrame_leaves_the_frame_in_the_index fuel src s fi s1 :
  NextFrame picojson_parse fuel src s = Ret fi s1 →
  FrameInfo.to_bool fi = true →
  PacketStream.seekable (_stream s1) = true →
  PacketIndex.has (_index s1) (FrameInfo.src fi) (FrameInfo.sequence_num fi) = true ∧
  ∃ pos,
    PacketIndex.position (_index s1) (FrameInfo.src fi) (FrameInfo.sequence_num fi)
    = Some pos ∧
    (pos = FrameInfo.frame_streampos fi ∨ pos = FrameInfo.packet_streampos fi).
Proof.
  intros H Hfi Hseek.
  destruct (NextFrame_dispatched _ _ _ _ _ H Hfi) as (f & s0 & Hd).
  destruct (NextFrame_dispatch_indexed _ _ _ _ Hd Hfi Hseek) as (pos & Hpos & Hor).
  split; [|eauto].
  unfold PacketIndex.has. unfold PacketIndex.position in Hpos.
  destruct (_index s1 !! FrameInfo.src fi); [|discriminate].
  apply bool_decide_eq_true. eauto.
Qed.

End FrameIndexed.

(** The first frame of the three-frame stream: the index was empty. *)
Lemma NextFrame_index_witness :
  let s := Sample.opened Sample.three_frames in
  let fi := Sample.returned FrameInfo.none (NextFrame Json.parse 10 0 s) in
  PacketIndex.has (_index s) 0 0 = false ∧
  PacketIndex.has (_index Sample.at_first_payload) (FrameInfo.src fi)
    (FrameInfo.sequence_num fi) = true.
Proof.
  intros s fi. split; [vm_compute; reflexivity|].
  refine (proj1 (NextFrame_leaves_the_frame_in_the_index Json.parse 10 0 s fi
                   Sample.at_first_payload _ _ _)).
  - vm_compute; reflexivity.
  - vm_compute; reflexivity.
  - vm_compute; reflexivity.
Defined.

(** * Seeking to a frame and reading it again *)

(** ** Calls that do not look at the log or at the lock *)

Lemma blind_bind {A B} (m : M A) (f : A → M B) :
  blind m → (∀ a, blind (f a)) → blind (m ≫= f).
Proof.
  intros Hm Hf s k l. unfold mbind, M_bind. specialize (Hm s k l).
  destruct (m s) as [a s1|e s1| | |]; try exact I.
  - destruct Hm as [l1 ->]. apply Hf.
  - destruct Hm as [l1 ->]. eauto.
Qed.

Lemma blind_ret {A} (a : A) : blind (mret a).
Proof. intros s k l. simpl. eauto. Qed.

Lemma blind_throw {A} (e : exn) : blind (@throw A e).
Proof. intros s k l. simpl. eauto. Qed.

Lemma blind_undefined {A} : blind (@undefined A).
Proof. intros s k l. exact I. Qed.

Lemma blind_abort {A} : blind (@abort A).
Proof. intros s k l. exact I. Qed.

Lemma blind_out_of_fuel {A} : blind (@out_of_fuel A).
Proof. intros s k l. exact I. Qed.

Lemma blind_gets {A} (f : PacketStreamReader → A) :
  (∀ s k l, f (relog k l s) = f s) → blind (gets f).
Proof. intros Hf s k l. unfold gets. rewrite Hf. eauto. Qed.

Lemma blind_ask {A} (f : PacketStream.t → A) : blind (ask_stream f).
Proof. intros s k l. unfold ask_stream. simpl. eauto. Qed.

Lemma blind_on_stream {A} (f : PacketStream.t → A * PacketStream.t) :
  blind (on_stream f).
Proof.
  intros s k l. unfold on_stream. simpl.
  destruct (f (_stream s)) as [a st]. exists l. reflexivity.
Qed.

Lemma blind_upd_stream (f : PacketStream.t → PacketStream.t) : blind (upd_stream f).
Proof. intros s k l. unfold upd_stream. simpl. exists l. reflexivity. Qed.

Lemma blind_modify (g : PacketStreamReader → PacketStreamReader) :
  (∀ s k l, ∃ l', g (relog k l s) = relog k l' (g s)) → blind (modify g).
Proof.
  intros Hg s k l. unfold modify. destruct (Hg s k l) as [l' ->]. eauto.
Qed.

Lemma blind_warn w : blind (pango_print_warn w).
Proof. apply blind_modify. intros s k l. eexists. reflexivity. Qed.

Lemma blind_os_close fd : blind (os_close fd).
Proof. apply blind_modify. intros s k l. exists l. reflexivity. Qed.

Lemma blind_Lock : blind Lock.
Proof. apply blind_modify. intros s k l. exists l. reflexivity. Qed.

Lemma blind_Unlock : blind Unlock.
Proof.
  intros s k l. unfold Unlock. destruct (_mutex s) as [|n] eqn:Hn; [exact I|].
  exists l. simpl. rewrite Hn. reflexivity.
Qed.

Lemma blind_lock_guard {A} (m : M A) : blind m → blind (lock_guard m).
Proof.
  intros Hm s k l. unfold lock_guard.
  specialize (Hm (set_mutex (S (_mutex s)) s) k l).
  change (set_mutex (S (_mutex (relog k l s))) (relog k l s))
    with (relog k l (set_mutex (S (_mutex s)) s)).
  destruct (m (set_mutex (S (_mutex s)) s)) as [a s1|e s1| | |]; try exact I.
  - destruct (_mutex s1) as [|n] eqn:Hn; [exact I|].
    destruct Hm as [l1 ->]. simpl. rewrite Hn. exists l1. reflexivity.
  - destruct (_mutex s1) as [|n] eqn:Hn; [exact I|].
    destruct Hm as [l1 ->]. simpl. rewrite Hn. exists l1. reflexivity.
Qed.

Lemma blind_try_catch {A} (m : M A) (h : exn → M A) :
  blind m → (∀ e, blind (h e)) → blind (try_catch m h).
Proof.
  intros Hm Hh s k l. unfold try_catch. specialize (Hm s k l).
  destruct (m s) as [a s1|e s1| | |]; try exact I.
  - destruct Hm as [l1 ->]. eauto.
  - destruct Hm as [l1 ->]. apply Hh.
Qed.

Lemma blind_json_checked {A} (o : option A) : blind (json_checked o).
Proof. destruct o; [apply blind_ret | apply blind_throw]. Qed.

Lemma blind_parse_value picojson_parse :
  blind (parse_value_from_stream picojson_parse).
Proof.
  intros s k l. unfold parse_value_from_stream. simpl.
  destruct (PacketStream.is_open (_stream s) && PacketStream.good (_stream s)).
  - destruct (picojson_parse _) as [[v n]|]; exists l; reflexivity.
  - exists l; reflexivity.
Qed.

Lemma blind_stream_open filename : blind (stream_open filename).
Proof.
  intros s k l. unfold stream_open. simpl.
  destruct (fs (world s) !! filename) as [[data|fd [|chunk chunks]]|];
    exists l; reflexivity.
Qed.

Create HintDb blind discriminated.

#[global] Hint Resolve blind_ret blind_throw blind_undefined blind_abort
  blind_out_of_fuel blind_ask blind_on_stream blind_upd_stream blind_warn
  blind_os_close blind_Lock blind_Unlock blind_json_checked blind_parse_value
  blind_stream_open : blind.

Ltac blind_tac :=
  repeat first
    [ solve [auto with blind]
    | apply blind_bind; [| intros ?]
    | apply blind_lock_guard
    | apply blind_try_catch; [| intros ?]
    | apply blind_gets; intros ? ? ?; reflexivity
    | apply blind_modify; intros ? ? l0; exists l0; reflexivity
    | lazymatch goal with
      | |- blind (if ?b then _ else _) => destruct b
      | |- blind (match ?x with _ => _ end) => destruct x
      | |- blind (let '(_, _) := ?x in _) => destruct x
      end ].

Section Blind.

Variable picojson_parse : list byte → option (json * nat).

Lemma blind_json_field j key : blind (json_field j key).
Proof. unfold json_field. blind_tac. Qed.

Lemma blind_readTag_expect x : blind (readTag_expect x).
Proof. unfold readTag_expect. blind_tac. Qed.

Hint Resolve blind_json_field blind_readTag_expect : blind.

Lemma blind_Close : blind Close.
Proof. unfold Close. blind_tac. Qed.

Lemma blind_ParseHeader : blind (ParseHeader picojson_parse).
Proof. unfold ParseHeader. blind_tac. Qed.

Lemma blind_register_source pss : blind (register_source pss).
Proof. unfold register_source. blind_tac. Qed.

Hint Resolve blind_Close blind_ParseHeader blind_register_source : blind.

Lemma blind_ParseNewSource : blind (ParseNewSource picojson_parse).
Proof. unfold ParseNewSource. blind_tac. Qed.

Lemma blind_ParseFooter : blind ParseFooter.
Proof. unfold ParseFooter. blind_tac. Qed.

Lemma blind_ParseIndex : blind (ParseIndex picojson_parse).
Proof. unfold ParseIndex. blind_tac. Qed.

Hint Resolve blind_ParseNewSource blind_ParseFooter blind_ParseIndex : blind.

Lemma blind_SetupIndex : blind (SetupIndex picojson_parse).
Proof. unfold SetupIndex. blind_tac. Qed.

Lemma blind_check_magic magic : blind (check_magic magic).
Proof. induction magic as [|i rest IH]; simpl; blind_tac. Qed.

Lemma blind_parse_leading_sources fuel :
  blind (parse_leading_sources picojson_parse fuel).
Proof. induction fuel as [|f IH]; simpl; blind_tac. Qed.

Hint Resolve blind_SetupIndex blind_check_magic blind_parse_leading_sources : blind.

Lemma blind_Open fuel filename : blind (Open picojson_parse fuel filename).
Proof. unfold Open. blind_tac. Qed.

Hint Resolve blind_Open : blind.

Lemma blind_GoodToRead fuel : blind (GoodToRead picojson_parse fuel).
Proof. unfold GoodToRead. blind_tac. Qed.

Lemma blind_skip_to_packet fuel : blind (skip_to_packet fuel).
Proof. induction fuel as [|f IH]; simpl; blind_tac. Qed.

Hint Resolve blind_GoodToRead blind_skip_to_packet : blind.

Lemma blind_SkipSync fuel : blind (SkipSync fuel).
Proof. unfold SkipSync. blind_tac. Qed.

Lemma blind_GetPacketIndex src : blind (GetPacketIndex src).
Proof. unfold GetPacketIndex. blind_tac. Qed.

Hint Resolve blind_SkipSync blind_GetPacketIndex : blind.

Lemma blind_readFrameHeader : blind (readFrameHeader picojson_parse).
Proof. unfold readFrameHeader, read_packet_header. blind_tac. Qed.

Lemma blind_ReSync : blind ReSync.
Proof. unfold ReSync. blind_tac. Qed.

Hint Resolve blind_readFrameHeader blind_ReSync : blind.

Lemma blind__nextFrame fuel : blind (_nextFrame picojson_parse fuel).
Proof. induction fuel as [|f IH]; simpl; blind_tac. Qed.

Lemma blind_index_position source packet : blind (index_position source packet).
Proof. unfold index_position. blind_tac. Qed.

Lemma blind_PANGO_ENSURE c : blind (PANGO_ENSURE c).
Proof. unfold PANGO_ENSURE. blind_tac. Qed.

Hint Resolve blind__nextFrame blind_index_position blind_PANGO_ENSURE : blind.

Lemma blind_NextFrame_dispatch fuel : blind (NextFrame_dispatch picojson_parse fuel).
Proof. unfold NextFrame_dispatch. blind_tac. Qed.

Hint Resolve blind_NextFrame_dispatch : blind.

Lemma blind_NextFrame_loop fuel src : blind (NextFrame_loop picojson_parse fuel src).
Proof. induction fuel as [|f IH]; simpl; blind_tac. Qed.

Hint Resolve blind_NextFrame_loop : blind.

Lemma blind_NextFrame fuel src : blind (NextFrame picojson_parse fuel src).
Proof. unfold NextFrame. blind_tac. Qed.

End Blind.

(** ** More fuel changes nothing *)

Lemma bind_more_fuel {A B} (m m' : M A) (g g' : A → M B) s :
  (m s ≠ OutOfFuel → m' s = m s) →
  (∀ a s1, g a s1 ≠ OutOfFuel → g' a s1 = g a s1) →
  (m ≫= g) s ≠ OutOfFuel → (m' ≫= g') s = (m ≫= g) s.
Proof.
  intros Hm Hg H. unfold mbind, M_bind in *.
  destruct (m s) as [a s1|e s1| | |] eqn:E.
  - rewrite Hm by discriminate. apply Hg, H.
  - rewrite Hm by discriminate. reflexivity.
  - rewrite Hm by discriminate. reflexivity.
  - rewrite Hm by discriminate. reflexivity.
  - contradiction.
Qed.

Lemma try_catch_more_fuel {A} (m m' : M A) (h : exn → M A) s :
  (m s ≠ OutOfFuel → m' s = m s) →
  try_catch m h s ≠ OutOfFuel → try_catch m' h s = try_catch m h s.
Proof.
  intros Hm H. unfold try_catch in *.
  destruct (m s) as [a s1|e s1| | |] eqn:E;
    try (rewrite Hm by discriminate; reflexivity).
  contradiction.
Qed.

Lemma lock_guard_more_fuel {A} (m m' : M A) s :
  (∀ s1, m s1 ≠ OutOfFuel → m' s1 = m s1) →
  lock_guard m s ≠ OutOfFuel → lock_guard m' s = lock_guard m s.
Proof.
  intros Hm H. unfold lock_guard in *.
  destruct (m (set_mutex (S (_mutex s)) s)) as [a s1|e s1| | |] eqn:E;
    try (rewrite Hm by (rewrite E; discriminate); rewrite E; reflexivity).
  contradiction.
Qed.

(** One step of such a proof: the same call on both sides, or a bind. *)
Ltac more_fuel_step :=
  lazymatch goal with
  | |- ?m ?s ≠ OutOfFuel → ?m ?s = ?m ?s => intros _; reflexivity
  | |- (_ ≫= _) _ ≠ OutOfFuel → (_ ≫= _) _ = (_ ≫= _) _ =>
      apply bind_more_fuel; [| intros ? ?]
  | |- (if ?b then _ else _) _ ≠ OutOfFuel → _ => destruct b
  | |- (match ?x with _ => _ end) _ ≠ OutOfFuel → _ => destruct x
  end.

Section MoreFuel.

Variable picojson_parse : list byte → option (json * nat).

Lemma parse_leading_sources_more_fuel : fuel_mono (parse_leading_sources picojson_parse).
Proof.
  intros f. induction f as [|f IH]; intros f' s Hle H; [contradiction|].
  destruct f' as [|f']; [lia|]. revert H. simpl.
  repeat first [more_fuel_step | apply IH; lia].
Qed.

Lemma Open_more_fuel filename :
  fuel_mono (λ f, Open picojson_parse f filename).
Proof.
  intros f f' s Hle. unfold Open. apply lock_guard_more_fuel. intros s1.
  repeat first [more_fuel_step | apply parse_leading_sources_more_fuel; exact Hle].
Qed.

Lemma GoodToRead_more_fuel : fuel_mono (GoodToRead picojson_parse).
Proof.
  intros f f' s Hle. unfold GoodToRead.
  repeat first [more_fuel_step | apply Open_more_fuel; exact Hle].
Qed.

Lemma skip_to_packet_more_fuel : fuel_mono skip_to_packet.
Proof.
  intros f. induction f as [|f IH]; intros f' s Hle H; [contradiction|].
  destruct f' as [|f']; [lia|]. revert H. simpl.
  repeat first [more_fuel_step | apply IH; lia].
Qed.

Lemma SkipSync_more_fuel : fuel_mono SkipSync.
Proof.
  intros f f' s Hle. unfold SkipSync.
  repeat first [more_fuel_step | apply skip_to_packet_more_fuel; exact Hle].
Qed.

Lemma _nextFrame_more_fuel : fuel_mono (_nextFrame picojson_parse).
Proof.
  intros f. induction f as [|f IH]; intros f' s Hle H; [contradiction|].
  destruct f' as [|f']; [lia|]. revert H. simpl.
  assert (Hle' : (f ≤ f')%nat) by lia.
  repeat first
    [ more_fuel_step
    | apply IH; exact Hle'
    | apply GoodToRead_more_fuel; exact Hle'
    | apply SkipSync_more_fuel; exact Hle' ].
Qed.

Lemma NextFrame_dispatch_more_fuel : fuel_mono (NextFrame_dispatch picojson_parse).
Proof.
  intros f f' s Hle. unfold NextFrame_dispatch.
  repeat first [more_fuel_step | apply _nextFrame_more_fuel; exact Hle].
Qed.

Lemma NextFrame_loop_more_fuel src :
  fuel_mono (λ f, NextFrame_loop picojson_parse f src).
Proof.
  intros f. induction f as [|f IH]; intros f' s Hle H; [contradiction|].
  destruct f' as [|f']; [lia|]. revert H. simpl.
  assert (Hle' : (f ≤ f')%nat) by lia.
  repeat first
    [ more_fuel_step
    | apply IH; exact Hle'
    | apply NextFrame_dispatch_more_fuel; exact Hle' ].
Qed.

Lemma NextFrame_more_fuel src : fuel_mono (λ f, NextFrame picojson_parse f src).
Proof.
  intros f f' s Hle. unfold NextFrame.
  apply bind_more_fuel; [intros _; reflexivity | intros ? s1].
  apply try_catch_more_fuel. apply NextFrame_loop_more_fuel. exact Hle.
Qed.

End MoreFuel.

(** ** Reading forward, and reading ahead *)

Module ReadFacts.

Import PacketStream.

(** A read that gets all the bytes it asks for moves the stream as a skip
    of as many. *)
Lemma read_all_is_skip len st bs st' :
  read len st = (bs, st') → Z.of_nat (length bs) = len → 0 < len →
  seekable st = true → st' = (skip len st).2.
Proof.
  intros Hr Hlen Hpos Hseek. unfold read, skip in *.
  change (seekable (set_tag 0 st)) with (seekable st). rewrite Hseek.
  unfold base_read, base_seekg in *.
  change (is_open (set_tag 0 st)) with (is_open st) in *.
  change (good (set_tag 0 st)) with (good st) in *.
  destruct (is_open st && good st) eqn:Hog.
  2:{ injection Hr as <- _. simpl in Hlen. lia. }
  set (avail := remaining (set_tag 0 st)) in *.
  set (got := take (Z.to_nat (len `min` Z.of_nat (length avail))) avail) in *.
  destruct (Z.ltb_spec (Z.of_nat (length got)) len) as [Hlt|Hge].
  { injection Hr as <- _. lia. }
  injection Hr as Hbs <-.
  assert (Hgpos : 0 ≤ gpos st).
  { destruct (Z.leb_spec 0 (gpos st)) as [H|H]; [exact H|].
    exfalso. subst got avail. unfold remaining in Hbs. simpl in Hbs.
    destruct (Z.leb_spec 0 (gpos st)); [lia|]. simpl in Hbs.
    rewrite take_nil in Hbs. subst bs. simpl in Hlen. lia. }
  rewrite Hbs, Hlen. simpl.
  destruct (Z.ltb_spec (gpos st + len) 0); [lia|]. reflexivity.
Qed.

Lemma skip_window len st :
  seekable st = true → _data_len st = len →
  data_len (skip len st).2 = 0 ∧ _tag (skip len st).2 = 0 ∧
  medium (skip len st).2 = medium st.
Proof.
  intros Hseek Hd. unfold skip.
  change (seekable (set_tag 0 st)) with (seekable st). rewrite Hseek.
  unfold base_seekg, data_len. simpl.
  repeat match goal with |- context [if ?b then _ else _] => destruct b end;
    simpl; rewrite Hd, Z.sub_diag; auto.
Qed.

End ReadFacts.

Lemma payload_consumed_state fi s1 s2 m :
  payload_consumed fi s1 s2 →
  PacketStream.seekable (_stream s1) = true →
  PacketStream.data_len (_stream s1) = FrameInfo.size fi →
  _mutex s1 = S m →
  FrameInfo.size fi ≠ 0 ∧
  s2 = set_mutex m
         (set_stream (PacketStream.skip (FrameInfo.size fi) (_stream s1)).2 s1).
Proof.
  intros Hc Hseek Hw Hm.
  destruct (ReadFacts.skip_window (FrameInfo.size fi) (_stream s1) Hseek Hw)
    as (Hd0 & _ & _).
  destruct Hc as [s c s' H | s bs s' H Hlen].
  - unfold Skip in H.
    bind_inv H as remain sa Ra. injection Ra as <- <-. rewrite Hw in H.
    destruct (Z.eqb_spec (FrameInfo.size fi) 0) as [Hz|Hnz];
      [bind_inv H as len' sb Rb; discriminate|].
    split; [exact Hnz|]. rewrite Z.ltb_irrefl in H.
    bind_inv H as len' sb Rb. injection Rb as <- <-.
    bind_inv H as r sc Rc. unfold on_stream in Rc.
    destruct (PacketStream.skip (FrameInfo.size fi) (_stream s)) as [r' st'] eqn:E.
    injection Rc as -> <-.
    bind_inv H as remain' sd Rd. injection Rd as <- <-. simpl in H, Hd0.
    rewrite Hd0 in H. simpl in H.
    bind_inv H as u se Re. injection H as _ <-.
    unfold Unlock in Re. simpl in Re. rewrite Hm in Re. injection Re as _ <-.
    reflexivity.
  - unfold ReadRaw in H.
    bind_inv H as remain sa Ra. injection Ra as <- <-. rewrite Hw in H.
    destruct (Z.eqb_spec (FrameInfo.size fi) 0) as [Hz|Hnz];
      [bind_inv H as len' sb Rb; discriminate|].
    split; [exact Hnz|]. rewrite Z.ltb_irrefl in H.
    bind_inv H as len' sb Rb. injection Rb as <- <-.
    bind_inv H as r sc Rc. unfold on_stream in Rc.
    destruct (PacketStream.read (FrameInfo.size fi) (_stream s)) as [r' st'] eqn:E.
    injection Rc as -> <-.
    assert (Hpos : 0 < FrameInfo.size fi) by lia.
    bind_inv H as remain' sd Rd. injection Rd as <- <-. simpl in H.
    bind_inv H as u se Re. injection H as <- <-.
    pose proof (ReadFacts.read_all_is_skip _ _ _ _ E Hlen Hpos Hseek) as Hst.
    rewrite Hst, Hd0 in Re. simpl in Re.
    unfold Unlock in Re. simpl in Re. rewrite Hm in Re. injection Re as _ <-.
    reflexivity.
Qed.

Lemma relog_relog k l k' l' s :
  relog k' l' (relog k l s) = relog (k + k') l' s.
Proof.
  unfold relog. simpl. unfold set_mutex, set_world. simpl.
  f_equal. lia.
Qed.

Lemma window_passed_log u k l s l2 :
  window_passed u = relog k l s →
  window_passed (set_world (set_log l2 (world u)) u) = relog k l2 s.
Proof.
  intros H.
  change (relog k l2 s)
    with (set_world (set_log l2 (world (relog k l s))) (relog k l s)).
  rewrite <- H. unfold window_passed. simpl.
  destruct (PacketStream.data_len (_stream u) =? 0); reflexivity.
Qed.

Lemma window_passed_index u : _index (window_passed u) = _index u.
Proof. unfold window_passed. destruct (_ =? 0); reflexivity. Qed.

Section ReadAhead.

Variable picojson_parse : list byte → option (json * nat).

(** A turn of the read-ahead on a pair that the index does not hold. *)
Lemma seek_read_ahead_miss f src n u :
  PacketIndex.has (_index u) src n = false →
  seek_read_ahead picojson_parse (S f) src n u
  = (fi ← NextFrame picojson_parse f src;
     if negb (FrameInfo.to_bool fi) then throw OutOfRange
     else seek_read_ahead picojson_parse f src n)
      (window_passed (set_world (set_log (WarnSeekMiss :: log (world u)) (world u)) u)).
Proof.
  intros H. simpl. unfold mbind at 1, M_bind at 1, gets at 1. rewrite H. cbn [negb].
  unfold mbind at 1, M_bind at 1, pango_print_warn, modify.
  unfold mbind at 1, M_bind at 1, ask_stream at 1.
  unfold window_passed. cbn [_stream set_world].
  destruct (PacketStream.data_len (_stream u) =? 0) eqn:E; cbn [negb].
  - reflexivity.
  - unfold mbind at 1, M_bind at 1. unfold mbind at 1, M_bind at 1, on_stream at 1.
    cbn [_stream set_world].
    destruct (PacketStream.skip _ _) as [c st]. reflexivity.
Qed.

(** [NextFrame] with more fuel, more holds and another log. *)
Lemma NextFrame_again fuel src s fi s1 f k l :
  NextFrame picojson_parse fuel src s = Ret fi s1 → (fuel ≤ f)%nat →
  ∃ l', NextFrame picojson_parse f src (relog k l s) = Ret fi (relog k l' s1).
Proof.
  intros H Hle. pose proof (blind_NextFrame picojson_parse fuel src s k l) as Hb.
  rewrite H in Hb. destruct Hb as [l' Hb]. exists l'.
  rewrite <- Hb. apply (NextFrame_more_fuel picojson_parse src fuel f _ Hle).
  rewrite Hb. discriminate.
Qed.

(** A frame read forward and consumed leaves the session between two
    records again, one hold of the mutex less and the stream past the
    payload. *)
Lemma consumed_between fuel src s fi s1 s2 :
  between_records s →
  NextFrame picojson_parse fuel src s = Ret fi s1 →
  FrameInfo.to_bool fi = true →
  payload_consumed fi s1 s2 →
  between_records s2 ∧
  PacketStream.data_len (_stream s1) ≠ 0 ∧
  ∃ m, _mutex s1 = S m ∧
       s2 = set_mutex m
              (set_stream (PacketStream.skip (PacketStream.data_len (_stream s1))
                             (_stream s1)).2 s1).
Proof.
  intros Hs H Hb Hc.
  destruct (NextFrame_lands picojson_parse _ _ _ _ _ Hs H Hb) as (Hf1 & _ & _).
  destruct (NextFrame_frame picojson_parse _ _ _ _ _ H Hb) as (_ & Hm & Hw & _).
  destruct (payload_consumed_state _ _ _ _ Hc (proj1 Hf1) Hw Hm) as [Hnz ->].
  destruct (ReadFacts.skip_window _ _ (proj1 Hf1) Hw) as (Hd0 & Ht0 & Hmed).
  rewrite Hw. split; [|split; [exact Hnz | eauto]].
  split.
  - apply (fr_mutex _ on_file_frameable).
    apply (fr_stream _ on_file_frameable); [exact Hf1 | exact Hmed].
  - simpl. apply TagFacts.clean_tidy. split; [exact Ht0 | exact Hd0].
Qed.

(** The read-ahead of [Seek] follows a session that reads forward: where
    that session has [NextFrame] return the frame under which the index
    holds the pair sought, the read-ahead ends, in the state of that
    session but for the holds of the mutex and the log. *)
Lemma seek_read_ahead_follows src n fuel s fi s1 :
  NextFrame picojson_parse fuel src s = Ret fi s1 →
  FrameInfo.to_bool fi = true →
  PacketIndex.has (_index s1) src n = true →
  ∀ s3, reads_on picojson_parse src n s3 s →
  between_records s3 →
  PacketIndex.has (_index s3) src n = false →
  ∀ u, (∃ k l, window_passed u = relog k l s3) →
  ∃ f0, ∀ f, (f0 ≤ f)%nat →
    ∃ k l, seek_read_ahead picojson_parse f src n u = Ret tt (relog k l s1).
Proof.
  intros Hlast Hb Hhas s3 Hrun.
  induction Hrun as [s | fuel0 s fi0 s1' s2 t H0 Hb0 Hmiss0 Hc0 Hrun IH];
    intros Hs Hmiss u (k & l & Hu).
  - exists (S (S fuel)). intros f Hf.
    destruct f as [|f]; [lia|]. rewrite seek_read_ahead_miss.
    2:{ rewrite <- (window_passed_index u), Hu. exact Hmiss. }
    rewrite (window_passed_log _ _ _ _ _ Hu).
    destruct (NextFrame_again fuel src s fi s1 f k
                (WarnSeekMiss :: log (world u)) Hlast ltac:(lia)) as [l' E].
    rewrite (bind_run _ _ _ _ _ E). cbv beta. rewrite Hb. cbn [negb].
    destruct f as [|f]; [lia|].
    exists k, l'. apply seek_read_ahead_hit. exact Hhas.
  - destruct (consumed_between _ _ _ _ _ _ Hs H0 Hb0 Hc0)
      as (Hs2 & Hnz & m & Hm & Hs2eq).
    assert (Hmiss2 : PacketIndex.has (_index s2) src n = false).
    { rewrite Hs2eq. exact Hmiss0. }
    specialize (IH Hlast Hs2 Hmiss2).
    assert (Hnext : ∀ k1 l1,
               ∃ k2 l2, window_passed (relog k1 l1 s1') = relog k2 l2 s2).
    { intros k1 l1. exists (S k1), l1. unfold window_passed.
      change (_stream (relog k1 l1 s1')) with (_stream s1').
      destruct (Z.eqb_spec (PacketStream.data_len (_stream s1')) 0); [contradiction|].
      rewrite Hs2eq. unfold relog. simpl. rewrite Hm.
      unfold set_mutex, set_stream, set_world. simpl. f_equal. lia. }
    assert (Hall : ∀ k1 l1, ∃ f0, ∀ f, (f0 ≤ f)%nat →
               ∃ k2 l2, seek_read_ahead picojson_parse f src n (relog k1 l1 s1')
                        = Ret tt (relog k2 l2 s1)).
    { intros k1 l1. apply IH. apply Hnext. }
    (* the fuel that the rest of the read-ahead needs may depend on the log *)
    destruct (NextFrame_again fuel0 src s fi0 s1' fuel0 k
                (WarnSeekMiss :: log (world u)) H0 ltac:(lia)) as [l' E0].
    destruct (Hall k l') as [f1 Hf1].
    exists (S (Nat.max fuel0 f1)). intros f Hf.
    destruct f as [|f]; [lia|]. rewrite seek_read_ahead_miss.
    2:{ rewrite <- (window_passed_index u), Hu. exact Hmiss. }
    rewrite (window_passed_log _ _ _ _ _ Hu).
    assert (E : NextFrame picojson_parse f src
                  (relog k (WarnSeekMiss :: log (world u)) s)
                = Ret fi0 (relog k l' s1')).
    { rewrite <- E0. apply (NextFrame_more_fuel picojson_parse src fuel0 f).
      - lia.
      - rewrite E0. discriminate. }
    rewrite (bind_run _ _ _ _ _ E). cbv beta. rewrite Hb0. cbn [negb].
    apply Hf1. lia.
Qed.

End ReadAhead.

(** ** The frame found again *)

Lemma relog_self s : set_mutex (S (_mutex s)) s = relog 1 (log (world s)) s.
Proof.
  destruct s as [? ? ? ? ? ? ? ? mu [? ? ? ?]]. unfold relog. simpl.
  unfold set_mutex, set_world, set_log. simpl. f_equal. lia.
Qed.

Section SeekAgain.

Variable picojson_parse : list byte → option (json * nat).

(** A frame that [NextFrame] returns has a counter. *)
Lemma NextFrame_counter fuel src s fi s1 :
  NextFrame picojson_parse fuel src s = Ret fi s1 →
  FrameInfo.to_bool fi = true →
  is_Some (vec_at (_next_packet_framenum s1) (FrameInfo.src fi)).
Proof.
  intros H Hfi.
  destruct (NextFrame_dispatched picojson_parse _ _ _ _ _ H Hfi) as (f & s0 & Hd).
  clear H. unfold NextFrame_dispatch in Hd. bind_inv Hd as fi0 sa Ra.
  destruct (FrameInfo.to_bool fi0) eqn:Hb; simpl in Hd.
  2:{ injection Hd as <- <-. congruence. }
  bind_inv Hd as cnt sb Rb. injection Rb as <- <-.
  destruct (vec_at (_next_packet_framenum sa) (FrameInfo.src fi0)) as [k|] eqn:Hk;
    [|discriminate].
  bind_inv Hd as u sc Rc. injection Rc as _ <-.
  bind_inv Hd as seekable sd Rd. injection Rd as <- <-.
  bind_inv Hd as u1 se Re.
  assert (Hse : _next_packet_framenum se
                = vec_set (_next_packet_framenum sa) (FrameInfo.src fi0) (wrap64 (k + 1))).
  { eapply (stable_Ret (λ s', _next_packet_framenum s' = _)); [| |exact Re].
    - unfold index_position, PANGO_ENSURE, pango_print_warn.
      repeat first [stable_step | apply stable_modify; intros ? Hs'; exact Hs'].
    - reflexivity. }
  bind_inv Hd as u2 sf Rf. injection Rf as _ <-. injection Hd as <- <-.
  simpl. rewrite Hse. apply vec_at_Some in Hk as [Hk _].
  rewrite vec_at_set_eq by exact Hk. eauto.
Qed.

(** [Seek] once its read-ahead has ended. *)
Lemma Seek_after_read_ahead fuel src n s u q r S0 m :
  PacketStream.seekable (_stream s) = true →
  PacketStream.data_len (_stream s) = 0 →
  src ≤ Z.of_nat (length (_sources s)) →
  seek_read_ahead picojson_parse fuel src n (set_mutex (S (_mutex s)) s) = Ret tt u →
  PacketIndex.position (_index u) src n = Some q →
  0 ≤ src < Z.of_nat (length (_next_packet_framenum u)) →
  readFrameHeader picojson_parse
    (set_next_packet_framenum (vec_set (_next_packet_framenum u) src n)
       (set_stream (PacketStream.seekg q (_stream u)) u))
  = Ret r
      (set_stream S0
         (set_next_packet_framenum (vec_set (_next_packet_framenum u) src n)
            (set_stream (PacketStream.seekg q (_stream u)) u))) →
  _mutex u = S m →
  Seek picojson_parse fuel src n s
  = Ret r
      (set_mutex m
         (set_stream (PacketStream.seekg (FrameInfo.packet_streampos r) S0)
            (set_next_packet_framenum (vec_set (_next_packet_framenum u) src n)
               (set_stream (PacketStream.seekg q (_stream u)) u)))).
Proof.
  intros Hseek Hd Hsrc Hahead Hpos Hcnt Hhdr Hm.
  rewrite Seek_unfold. apply lock_guard_run; [|exact Hm].
  set (s0 := set_mutex (S (_mutex s)) s) in *.
  assert (E1 : ask_stream PacketStream.seekable s0 = Ret true s0).
  { unfold ask_stream. simpl. rewrite Hseek. reflexivity. }
  rewrite (bind_run _ _ _ _ _ E1); cbv beta. cbn [negb].
  assert (E2 : gets _sources s0 = Ret (_sources s) s0) by reflexivity.
  rewrite (bind_run _ _ _ _ _ E2); cbv beta.
  destruct (Z.ltb_spec (Z.of_nat (length (_sources s))) src); [lia|].
  unfold Seek_body.
  assert (E3 : ask_stream PacketStream.data_len s0 = Ret 0 s0).
  { unfold ask_stream. simpl. rewrite Hd. reflexivity. }
  rewrite (bind_run _ _ _ _ _ E3); cbv beta. cbn [negb].
  rewrite (bind_run _ _ s0 tt s0) by reflexivity. cbv beta.
  rewrite (bind_run _ _ _ _ _ Hahead). cbv beta.
  assert (E4 : index_position src n u = Ret q u).
  { unfold index_position. mrun. rewrite Hpos. reflexivity. }
  rewrite (bind_run _ _ _ _ _ E4); cbv beta.
  rewrite (bind_run _ _ u tt (set_stream (PacketStream.seekg q (_stream u)) u))
    by reflexivity.
  cbv beta.
  set (u1 := set_stream (PacketStream.seekg q (_stream u)) u) in *.
  rewrite (bind_run _ _ u1 (_next_packet_framenum u) u1) by reflexivity. cbv beta.
  destruct (Z.leb_spec 0 src); [|lia].
  destruct (Z.ltb_spec src (Z.of_nat (length (_next_packet_framenum u)))); [|lia].
  cbn [andb].
  rewrite (bind_run _ _ u1 tt
             (set_next_packet_framenum (vec_set (_next_packet_framenum u) src n) u1))
    by reflexivity.
  cbv beta.
  rewrite (bind_run _ _ _ _ _ Hhdr); cbv beta.
  reflexivity.
Qed.

(** The frame [fi], read forward, found again from a state [u] in which the
    read-ahead of [Seek] has ended: the header that [Seek] reads, and the
    [NextFrame] and the [ReadRaw] that follow [Seek]. *)
Lemma frame_found_again fuel src s fi s1 len payload s2 u :
  between_records s →
  NextFrame picojson_parse fuel src s = Ret fi s1 →
  FrameInfo.to_bool fi = true →
  PacketStream.good (_stream s1) = true →
  ReadRaw len s1 = Ret payload s2 →
  PacketStream.seekable (_stream u) = true →
  PacketStream.good (_stream u) = true →
  PacketStream.medium (_stream u) = PacketStream.medium (_stream s1) →
  vec_at (_sources u) src = vec_at (_sources s1) src →
  is_Some (vec_at (_next_packet_framenum u) src) →
  PacketIndex.position (_index u) src (FrameInfo.sequence_num fi)
    = Some (FrameInfo.packet_streampos fi) →
  ∃ S0,
    let sa := set_next_packet_framenum
                (vec_set (_next_packet_framenum u) src (FrameInfo.sequence_num fi))
                (set_stream (PacketStream.seekg (FrameInfo.packet_streampos fi)
                               (_stream u)) u) in
    0 ≤ src < Z.of_nat (length (_next_packet_framenum u)) ∧
    src < Z.of_nat (length (_sources u)) ∧
    readFrameHeader picojson_parse sa = Ret (sought fi) (set_stream S0 sa) ∧
    ∀ m fuel',
      let s4 := set_mutex m
                  (set_stream (PacketStream.seekg
                                 (FrameInfo.packet_streampos (sought fi)) S0) sa) in
      PacketStream.data_len (_stream s4) = 0 ∧
      ∃ s5 s6,
        NextFrame picojson_parse (S (S fuel')) src s4 = Ret (sought fi) s5 ∧
        ReadRaw len s5 = Ret payload s6.
Proof.
  intros Hs Hnext Hb Hg1 Hread Hseeku Hgu Hmu Hsrcu [ku Hku] Hpos.
  destruct (NextFrame_lands picojson_parse _ _ _ _ _ Hs Hnext Hb)
    as (Hf1 & (sA & sh & HsA & HrA & Hst1 & Hsrc1) & <-).
  destruct (readFrameHeader_result picojson_parse _ _ _ HrA)
    as (HsrcA & _ & Hrange & _).
  destruct (readFrameHeader_packet_part picojson_parse _ _ _ HsA HrA)
    as (sB & src0 & meta & HsB & HB & HsrcB & HmB).
  assert (Hgh : PacketStream.good (_stream sh) = true).
  { rewrite Hst1 in Hg1. exact Hg1. }
  assert (Hmh : PacketStream.medium (_stream sh) = PacketStream.medium (_stream sB)).
  { rewrite HmB.
    pose proof (registry_medium_frameable (_sources sA)
                  (PacketStream.medium (_stream sA))) as HP0.
    refine (proj2 (stable_Ret _ _ _ _ _
                     (readFrameHeader_framed picojson_parse HP0) _ HrA)).
    split; reflexivity. }
  destruct (read_packet_header_marker _ _ _ _ _ _ HB Hgh) as (Hq & st' & Hp & Hg').
  destruct HsB as [HfB HtB].
  destruct (Rewind.peekTag_rewound _ _ _ (proj1 HfB) HtB Hp Hg')
    as (Hq0 & Hpeek & Htell & Hcached).
  destruct (Hcached TAG_SRC_PACKET_nonzero) as [Htell' Hp'].
  assert (HgB : PacketStream.good (_stream sB) = true).
  { apply TagFacts.peekTag_good_before. rewrite Hp. exact Hg'. }
  set (q := FrameInfo.packet_streampos fi) in *.
  set (n := FrameInfo.sequence_num fi) in *.
  rewrite <- Hq in Hq0, Hpeek, Htell, Htell'.
  assert (HmuB : PacketStream.medium (_stream u) = PacketStream.medium (_stream sB)).
  { rewrite Hmu, Hst1. exact Hmh. }
  assert (HXu : PacketStream.seekg q (_stream u) = PacketStream.seekg q (_stream sB)).
  { apply Rewind.seekg_medium_eq; auto. apply HfB. }
  assert (HXh : PacketStream.seekg q (_stream sh) = PacketStream.seekg q (_stream sB)).
  { apply Rewind.seekg_medium_eq; auto. apply HfB. }
  assert (HgX : PacketStream.good (PacketStream.seekg q (_stream sB)) = true).
  { rewrite Rewind.seekg_good; auto. apply HfB. }
  assert (Hreg : vec_at (_sources u) (FrameInfo.src fi)
                 = vec_at (_sources sB) (FrameInfo.src fi)).
  { rewrite Hsrcu, Hsrc1, HsrcB, HsrcA. reflexivity. }
  apply vec_at_Some in Hku as Hcnt. destruct Hcnt as [Hcnt _].
  assert (Hsome : is_Some (vec_at (_sources u) (FrameInfo.src fi))).
  { rewrite Hreg, HsrcB, vec_at_in_range by lia.
    apply lookup_lt_is_Some. lia. }
  destruct Hsome as [pss Hpss]. apply vec_at_Some in Hpss as [Hpss _].
  exists (_stream sh). cbv zeta.
  set (sa := set_next_packet_framenum
               (vec_set (_next_packet_framenum u) (FrameInfo.src fi) n)
               (set_stream (PacketStream.seekg q (_stream u)) u)).
  assert (Hhdr : readFrameHeader picojson_parse sa
                 = Ret (sought fi) (set_stream (_stream sh) sa)).
  { apply (readFrameHeader_again picojson_parse _ _ _ sB fi sh sa n (conj HfB HtB) HB Hgh).
    - simpl. rewrite HXu, Hpeek. symmetry. exact Hp.
    - simpl. rewrite HXu, Htell. exact Hq.
    - simpl. exact Hreg.
    - simpl. apply vec_at_set_eq. lia. }
  split; [exact Hcnt|]. split; [lia|]. split; [exact Hhdr|].
  intros m fuel'.
  set (s4 := set_mutex m
               (set_stream (PacketStream.seekg (FrameInfo.packet_streampos (sought fi))
                              (_stream sh)) sa)).
  assert (Hst4 : _stream s4 = PacketStream.seekg q (_stream sB)).
  { simpl. exact HXh. }
  split.
  { rewrite Hst4, Rewind.seekg_good; auto. apply HfB. }
  assert (Hhdr4 : readFrameHeader picojson_parse
                    (set_stream st' (set_mutex (S (_mutex s4)) s4))
                  = Ret (sought fi)
                      (set_stream (_stream sh)
                         (set_stream st' (set_mutex (S (_mutex s4)) s4)))).
  { apply (readFrameHeader_again picojson_parse _ _ _ sB fi sh _ n (conj HfB HtB) HB Hgh).
    - simpl. rewrite Hp'. symmetry. exact Hp.
    - simpl. rewrite Htell'. exact Hq.
    - simpl. exact Hreg.
    - simpl. apply vec_at_set_eq. lia. }
  destruct (NextFrame_at_packet picojson_parse fuel' s4 st' (sought fi) (_stream sh) n)
    as (s5 & HNext & Hst5 & Hm5).
  { rewrite Hst4. exact HgX. }
  { rewrite Hst4. exact Hpeek. }
  { exact Hhdr4. }
  { exact Hb. }
  { simpl. apply vec_at_set_eq. lia. }
  { simpl. exact Hpos. }
  destruct (ReadRaw_same_stream len s1 payload s2 s5 Hread) as [s6 Hread5].
  { rewrite Hst5, Hst1. reflexivity. }
  { rewrite Hm5. lia. }
  exists s5, s6. auto.
Qed.

End SeekAgain.

Section SeekAgainMain.

Variable picojson_parse : list byte → option (json * nat).

Lemma no_window_throws s :
  PacketStream.data_len (_stream s) = 0 →
  ∀ len, ReadRaw len s = Throw InvalidState s.
Proof.
  intros Hd len. unfold ReadRaw, mbind, M_bind, ask_stream. rewrite Hd. reflexivity.
Qed.

(** C1, amended: [Seek] declares no data window, so that the payload is
    reached through the [NextFrame] that follows it.  Let [NextFrame], called
    on a file session between two records, return a frame [fi] of source
    [src] with the stream good, and let [ReadRaw] then return [payload].
    Let [Seek] to the frame be called in a session on the same medium
    whose index holds the frame at its packet marker, or in a session that
    does not hold it yet and reads forward to it.  Then, given fuel enough,
    [Seek] returns the frame, with both positions at the packet marker and
    without metadata, and leaves no data window, so that a [ReadRaw] made
    then throws; the [NextFrame] after [Seek] returns the same frame, and
    [ReadRaw] with the same length then returns the same [payload]. *)
Theorem Seek_then_NextFrame_reproduces_the_payload
    fuel src s fi s1 len payload s2 s3 :
  between_records s →
  NextFrame picojson_parse fuel src s = Ret fi s1 →
  FrameInfo.to_bool fi = true →
  PacketStream.good (_stream s1) = true →
  ReadRaw len s1 = Ret payload s2 →
  frame_indexed src fi s1 s3 ∨ frame_ahead picojson_parse src fi s s1 s3 →
  ∃ fuel0, ∀ fuel', (fuel0 ≤ fuel')%nat →
    ∃ s4 s5 s6,
      Seek picojson_parse fuel' src (FrameInfo.sequence_num fi) s3
        = Ret (sought fi) s4 ∧
      PacketStream.data_len (_stream s4) = 0 ∧
      (∀ len', ReadRaw len' s4 = Throw InvalidState s4) ∧
      NextFrame picojson_parse fuel' src s4 = Ret (sought fi) s5 ∧
      ReadRaw len s5 = Ret payload s6.
Proof.
  intros Hs Hnext Hb Hg1 Hread [Hhit | Hmiss].
  - (* the index holds the frame *)
    destruct Hhit as (Hf3 & Hg3 & Hd3 & Hm3 & Hsrc3 & Hk3 & Hpos).
    exists 2%nat. intros fuel' Hfuel.
    destruct fuel' as [|[|f]]; [lia | lia |].
    set (u := set_mutex (S (_mutex s3)) s3).
    destruct (frame_found_again picojson_parse fuel src s fi s1 len payload s2 u
                Hs Hnext Hb Hg1 Hread (proj1 Hf3) Hg3 Hm3 Hsrc3 Hk3 Hpos)
      as (S0 & Hcnt & Hlt & Hhdr & Hrest).
    destruct (Hrest (_mutex s3) f) as (Hd4 & s5 & s6 & HN & HR).
    lazymatch type of HN with
    | NextFrame _ _ _ ?s4 = _ => exists s4, s5, s6
    end.
    split; [|split; [exact Hd4 | split; [|split; [exact HN | exact HR]]]].
    + apply (Seek_after_read_ahead picojson_parse (S (S f)) src _ s3 u
               (FrameInfo.packet_streampos fi) (sought fi) S0 (_mutex s3)).
      * exact (proj1 Hf3).
      * exact Hd3.
      * simpl in Hlt. lia.
      * apply seek_read_ahead_hit. exact (position_has _ _ _ _ Hpos).
      * exact Hpos.
      * exact Hcnt.
      * exact Hhdr.
      * reflexivity.
    + apply no_window_throws. exact Hd4.
  - (* Seek reads ahead to the frame *)
    destruct Hmiss as (Hs3 & Hreg3 & Hmiss3 & Hrun & Hpos).
    destruct (NextFrame_lands picojson_parse _ _ _ _ _ Hs Hnext Hb)
      as (Hf1 & _ & Hsrc).
    destruct (NextFrame_frame picojson_parse _ _ _ _ _ Hnext Hb) as (_ & Hm1 & _).
    pose proof (NextFrame_counter picojson_parse _ _ _ _ _ Hnext Hb) as Hk1. rewrite Hsrc in Hk1.
    destruct (seek_read_ahead_follows picojson_parse src (FrameInfo.sequence_num fi)
                fuel s fi s1 Hnext Hb (position_has _ _ _ _ Hpos) s3 Hrun Hs3 Hmiss3
                (set_mutex (S (_mutex s3)) s3)) as [f0 Hf0].
    { exists 1%nat, (log (world s3)). unfold window_passed.
      change (_stream (set_mutex (S (_mutex s3)) s3)) with (_stream s3).
      replace (PacketStream.data_len (_stream s3)) with 0
        by (symmetry; apply Hs3).
      apply relog_self. }
    exists (Nat.max f0 2). intros fuel' Hfuel.
    destruct (Hf0 fuel' ltac:(lia)) as (k & l & Hahead).
    destruct fuel' as [|[|f]]; [lia | lia |].
    set (u := relog k l s1) in *.
    destruct (frame_found_again picojson_parse fuel src s fi s1 len payload s2 u
                Hs Hnext Hb Hg1 Hread (proj1 Hf1) Hg1 eq_refl eq_refl Hk1 Hpos)
      as (S0 & Hcnt & Hlt & Hhdr & Hrest).
    destruct (Hrest (_mutex s + k)%nat f) as (Hd4 & s5 & s6 & HN & HR).
    lazymatch type of HN with
    | NextFrame _ _ _ ?s4 = _ => exists s4, s5, s6
    end.
    split; [|split; [exact Hd4 | split; [|split; [exact HN | exact HR]]]].
    + apply (Seek_after_read_ahead picojson_parse (S (S f)) src _ s3 u
               (FrameInfo.packet_streampos fi) (sought fi) S0 (_mutex s + k)%nat).
      * apply Hs3.
      * apply Hs3.
      * destruct Hreg3 as [pss Hpss]. apply vec_at_Some in Hpss. lia.
      * exact Hahead.
      * exact Hpos.
      * exact Hcnt.
      * exact Hhdr.
      * subst u. simpl. rewrite Hm1. reflexivity.
    + apply no_window_throws. exact Hd4.
Qed.

End SeekAgainMain.

(** The second frame of the three-frame stream, read forward after the
    first: sought in the session just opened, whose index is empty, so that
    [Seek] reads ahead to it; and sought once the three frames have been
    read, when the index holds it. *)
Lemma Seek_then_NextFrame_witness :
  let o := NextFrame Json.parse 10 0 Sample.past_first_frame in
  let fi := Sample.returned FrameInfo.none o in
  let sought_from s3 :=
    ∃ fuel0, ∀ fuel', (fuel0 ≤ fuel')%nat →
      ∃ s4 s5 s6,
        Seek Json.parse fuel' 0 (FrameInfo.sequence_num fi) s3 = Ret (sought fi) s4 ∧
        PacketStream.data_len (_stream s4) = 0 ∧
        (∀ len', ReadRaw len' s4 = Throw InvalidState s4) ∧
        NextFrame Json.parse fuel' 0 s4 = Ret (sought fi) s5 ∧
        ReadRaw 16 s5 = Ret (Sample.payload x02 16) s6 in
  FrameInfo.sequence_num fi = 1 ∧
  PacketIndex.has (_index (Sample.opened Sample.three_frames)) 0 1 = false ∧
  sought_from (Sample.opened Sample.three_frames) ∧
  PacketIndex.has (_index Sample.read_to_end) 0 1 = true ∧
  sought_from Sample.read_to_end.
Proof.
  intros o fi sought_from.
  split; [vm_compute; reflexivity|].
  assert (Hboth : ∀ s3, s3 = Sample.opened Sample.three_frames ∨ s3 = Sample.read_to_end →
                        sought_from s3).
  2:{ split; [vm_compute; reflexivity|]. split; [apply Hboth; left; reflexivity|].
      split; [vm_compute; reflexivity|]. apply Hboth; right; reflexivity. }
  intros s3 Hs3.
  refine (Seek_then_NextFrame_reproduces_the_payload Json.parse 10 0
            Sample.past_first_frame fi (Sample.after o) 16 (Sample.payload x02 16)
            (Sample.after (ReadRaw 16 (Sample.after o))) s3 _ _ _ _ _ _).
  - split; [split; vm_compute; reflexivity|].
    split; [vm_compute; reflexivity|].
    intros _ Ht. exfalso. apply Ht. vm_compute; reflexivity.
  - vm_compute; reflexivity.
  - vm_compute; reflexivity.
  - vm_compute; reflexivity.
  - vm_compute; reflexivity.
  - destruct Hs3 as [-> | ->]; [right | left].
    + split.
      { split; [split; vm_compute; reflexivity|].
        split; [vm_compute; reflexivity|].
        intros _ _. split; [split; vm_compute; discriminate | vm_compute; reflexivity]. }
      split.
      { destruct (vec_at (_sources (Sample.opened Sample.three_frames)) 0) eqn:E;
          [eauto | vm_compute in E; discriminate]. }
      split; [vm_compute; reflexivity|].
      split; [|vm_compute; reflexivity].
      apply (reads_on_frame Json.parse 0 _ 10 (Sample.opened Sample.three_frames)
               (Sample.returned FrameInfo.none
                  (NextFrame Json.parse 10 0 (Sample.opened Sample.three_frames)))
               Sample.at_first_payload Sample.past_first_frame).
      * vm_compute; reflexivity.
      * vm_compute; reflexivity.
      * vm_compute; reflexivity.
      * apply (consumed_by_ReadRaw _ _ (Sample.payload x01 16));
          vm_compute; reflexivity.
      * apply reads_on_here.
    + split; [split; vm_compute; reflexivity|].
      split; [vm_compute; reflexivity|].
      split; [vm_compute; reflexivity|].
      split; [vm_compute; reflexivity|].
      split; [vm_compute; reflexivity|].
      split; [|vm_compute; reflexivity].
      destruct (vec_at (_next_packet_framenum Sample.read_to_end) 0) eqn:E;
        [eauto | vm_compute in E; discriminate].
Defined.
